(** * sec-dw-downloader: the resumable download pipeline of [sec-dw-downloader.js]

    A shallow embedding of the progress ledger ([ProgressTracker]), the cache
    store ([CacheManager]), the transport ([fetchWithRetry]), the download
    worker ([downloadWarrant]), the batch scheduler ([processDownloads]) and
    the pipeline ([main]), followed by the properties of the specification
    that are settled on it.

    Conventions.
    - A JavaScript string is the list of its UTF-16 code units ([jsstring]);
      [js] turns an ASCII literal into one.
    - [completion A] is the outcome of an expression that may raise: a value or
      a thrown [Error] with its [message].
    - An [async] function is a [task]: a tree of synchronous effects ([Do]) and
      suspension points ([Await]); between two suspension points a task runs
      without interleaving, as on the JavaScript event loop.
    - The cache directory, the download directory and the progress file are
      three stores of the [World]; a directory is the finite map from the file
      name joined to it ([path.join]) to the file's content. *)

From Stdlib Require Import String Ascii.
From stdpp Require Import gmap list.

Set Warnings "-register-all".


(* ===================================================================== *)
(** ** JavaScript strings *)
(* ===================================================================== *)

Abbreviation jsstring := (list N).

Definition js (s : string) : jsstring :=
  N_of_ascii <$> list_ascii_of_string s.

Definition is_digit (c : N) : bool := (48 <=? c)%N && (c <=? 57)%N.

Definition is_alnum (c : N) : bool :=
  is_digit c || ((65 <=? c)%N && (c <=? 90)%N) || ((97 <=? c)%N && (c <=? 122)%N).

(** [s.replace(/[^a-zA-Z0-9]/g, '_')] *)
Definition sanitize (s : jsstring) : jsstring :=
  (fun c => if is_alnum c then c else 95%N) <$> s.

(** [s.startsWith(p)] *)
Fixpoint startsWith (p s : jsstring) : bool :=
  match p, s with
  | [], _ => true
  | _ :: _, [] => false
  | a :: p', b :: s' => bool_decide (a = b) && startsWith p' s'
  end.

(** [s.includes(p)] *)
Fixpoint includes (p s : jsstring) : bool :=
  startsWith p s ||
  match s with
  | [] => false
  | _ :: s' => includes p s'
  end.

(** [s.replace(/x/g, '')] for a single code unit [x] *)
Definition remove_all (x : N) (s : jsstring) : jsstring :=
  filter (fun c => c ≠ x) s.

(** [s.replace(/&amp;/g, '&')]: the occurrences are replaced from left to
    right, without overlap. The recursion is on the length of the string. *)
Fixpoint replace_amp_fuel (fuel : nat) (s : jsstring) : jsstring :=
  match fuel with
  | O => s
  | S fuel' =>
      match s with
      | [] => []
      | c :: s' =>
          if startsWith (js "&amp;") s
          then 38%N :: replace_amp_fuel fuel' (drop 5 s)
          else c :: replace_amp_fuel fuel' s'
      end
  end.

Definition replace_amp (s : jsstring) : jsstring :=
  replace_amp_fuel (length s) s.

(** The longest prefix whose code units satisfy [p], and the rest. *)
Fixpoint span (p : N -> bool) (s : jsstring) : jsstring * jsstring :=
  match s with
  | [] => ([], [])
  | c :: s' =>
      if p c then let '(a, b) := span p s' in (c :: a, b) else ([], s)
  end.

(** [s.match(/TransID=(\d+)/)]: the first capture of the leftmost match. *)
Fixpoint match_TransID (s : jsstring) : option jsstring :=
  match (if startsWith (js "TransID=") s
         then match fst (span is_digit (drop 8 s)) with
              | [] => None
              | ds => Some ds
              end
         else None) with
  | Some ds => Some ds
  | None =>
      match s with
      | [] => None
      | _ :: s' => match_TransID s'
      end
  end.

(** [s.match(/window\.open\('([^']+)'/)]: the first capture of the leftmost
    match. *)
Fixpoint match_window_open (s : jsstring) : option jsstring :=
  match (if startsWith (js "window.open('") s
         then match span (fun c => negb (c =? 39)%N) (drop 13 s) with
              | ((_ :: _) as u, _ :: _) => Some u
              | _ => None
              end
         else None) with
  | Some u => Some u
  | None =>
      match s with
      | [] => None
      | _ :: s' => match_window_open s'
      end
  end.

(** A line terminator, which [.] does not match. *)
Definition is_line_terminator (c : N) : bool :=
  (c =? 10)%N || (c =? 13)%N || (c =? 8232)%N || (c =? 8233)%N.

(** The content-disposition pattern of [downloadWarrant], tried at the start
    of [s]: the literal [filename], code units other than [;], [=] and the
    newline, then [=], then the capture: either a quote (single or double),
    as few code units as possible that are no line terminators, and the same
    quote again; or else the code units up to the next [;] or newline. *)
Definition match_filename_here (s : jsstring) : option jsstring :=
  if startsWith (js "filename") s then
    match snd (span (fun c => negb ((c =? 59) || (c =? 61) || (c =? 10))%N)
                    (drop 8 s)) with
    | 61%N :: v =>
        let unquoted := fst (span (fun c => negb ((c =? 59) || (c =? 10))%N) v) in
        match v with
        | q :: v' =>
            if ((q =? 39) || (q =? 34))%N then
              match span (fun c => negb (c =? q)%N) v' with
              | (body, _ :: _) =>
                  if forallb (fun c => negb (is_line_terminator c)) body
                  then Some (q :: body ++ [q])
                  else Some unquoted
              | _ => Some unquoted
              end
            else Some unquoted
        | [] => Some unquoted
        end
    | _ => None
    end
  else None.

(** [contentDisposition.match(...)] with that pattern: the first capture of
    the leftmost match. *)
Fixpoint match_filename (s : jsstring) : option jsstring :=
  match match_filename_here s with
  | Some v => Some v
  | None =>
      match s with
      | [] => None
      | _ :: s' => match_filename s'
      end
  end.

(* ===================================================================== *)
(** ** Errors and completions *)
(* ===================================================================== *)

(** A thrown [Error] object; [message] is [error.message]. *)
Record error := Error { message : jsstring }.

Inductive completion (A : Type) : Type :=
| Normal (a : A)
| Throw (e : error).
Arguments Normal {A} a.
Arguments Throw {A} e.

Definition is_normal {A} (c : completion A) : bool :=
  match c with Normal _ => true | Throw _ => false end.

(* ===================================================================== *)
(** ** Download outcomes and the progress ledger *)
(* ===================================================================== *)

(** The object returned by [downloadWarrant]:
    [{ success: true, transID, symbol, issuer, filename, fileDate, fileSize }]
    or [{ success: false, transID, reason }]. *)
Inductive DownloadOutcome : Type :=
| Downloaded (transID symbol issuer filename fileDate : jsstring) (fileSize : nat)
| NotDownloaded (transID reason : jsstring).

Definition success (r : DownloadOutcome) : bool :=
  match r with Downloaded _ _ _ _ _ _ => true | NotDownloaded _ _ => false end.

Definition transID (r : DownloadOutcome) : jsstring :=
  match r with Downloaded t _ _ _ _ _ => t | NotDownloaded t _ => t end.

Global Instance DownloadOutcome_eq_dec : EqDecision DownloadOutcome.
Proof. solve_decision. Defined.

(** [this.data] of a [ProgressTracker] whose progress file holds a ledger. *)
Record ledger := Ledger {
  completed : list DownloadOutcome;
  failed : list DownloadOutcome;
  pending : list jsstring
}.

Global Instance ledger_eq_dec : EqDecision ledger.
Proof. solve_decision. Defined.

Definition empty_ledger : ledger :=
  {| completed := []; failed := []; pending := [] |}.

Module ProgressTracker.

(** [this.data.completed.some(item => item.transID === transID)] *)
Definition isCompleted (data : ledger) (id : jsstring) : bool :=
  existsb (fun item => bool_decide (transID item = id)) (completed data).

(** [markCompleted(result)], before [this.save()] *)
Definition markCompleted (result : DownloadOutcome) (data : ledger) : ledger :=
  {| completed := completed data ++ [result];
     failed := failed data;
     pending := filter (fun id => id ≠ transID result) (pending data) |}.

(** [markFailed(result)], before [this.save()] *)
Definition markFailed (result : DownloadOutcome) (data : ledger) : ledger :=
  {| completed := completed data;
     failed := failed data ++ [result];
     pending := filter (fun id => id ≠ transID result) (pending data) |}.

(** [setPending(transIDs)], before [this.save()] *)
Definition setPending (transIDs : list jsstring) (data : ledger) : ledger :=
  {| completed := completed data;
     failed := failed data;
     pending := filter (fun id => isCompleted data id = false) transIDs |}.

Definition getPending (data : ledger) : list jsstring := pending data.

Record stats := Stats {
  stats_completed : nat; stats_failed : nat; stats_pending : nat
}.

Definition getStats (data : ledger) : stats :=
  {| stats_completed := length (completed data);
     stats_failed := length (failed data);
     stats_pending := length (pending data) |}.

End ProgressTracker.

(** The IDs recorded in a list of outcomes. *)
Definition ids_of (l : list DownloadOutcome) : list jsstring := transID <$> l.

(* ===================================================================== *)
(** ** The progress file: JSON values and [load] *)
(* ===================================================================== *)

(** What [JSON.parse] returns. Numbers are carried as integers: the only
    numbers a ledger holds are file sizes. An object is the list of its
    properties, each name once. *)
Inductive json : Type :=
| JNull
| JBool (b : bool)
| JNum (n : Z)
| JStr (s : jsstring)
| JArr (items : list json)
| JObj (props : list (jsstring * json)).

(** The progress file when it exists: either a text on which [JSON.parse]
    raises, or the JSON text of a value (the text [JSON.stringify] writes for
    it, which [JSON.parse] reads back). *)
Inductive file_content : Type :=
| Unparsable (text : jsstring)
| Json (j : json).

Definition SyntaxError : error := Error (js "Unexpected token in JSON").

(** [JSON.parse(text)] on the content of the file. *)
Definition JSON_parse (c : file_content) : completion json :=
  match c with
  | Unparsable _ => Throw SyntaxError
  | Json j => Normal j
  end.

Definition empty_state : json :=
  JObj [(js "completed", JArr []); (js "failed", JArr []); (js "pending", JArr [])].

Module ProgressFile.

(** [load()]: [file] is [None] when [fs.existsSync(this.filepath)] is false;
    [read] is the completion of [fs.readFileSync] on the existing file. *)
Definition load (file : option (completion file_content)) : json :=
  match file with
  | Some read =>
      match (match read with
             | Normal c => JSON_parse c
             | Throw e => Throw e
             end) with
      | Normal j => j
      | Throw _ => empty_state
      end
  | None => empty_state
  end.

Fixpoint assoc (name : jsstring) (props : list (jsstring * json)) : option json :=
  match props with
  | [] => None
  | (k, v) :: rest => if bool_decide (k = name) then Some v else assoc name rest
  end.

Definition TypeError_read (name : jsstring) : error :=
  Error (js "Cannot read properties of undefined (reading '" ++ name ++ js "')").

Definition TypeError_not_a_function (name : jsstring) : error :=
  Error (name ++ js " is not a function").

(** [v.name] for one of the property names of the ledger ([completed],
    [failed], [pending], [transID]): none of them is a property of a
    primitive or of an array. [None] is [undefined]. *)
Definition get_prop (v : json) (name : jsstring) : completion (option json) :=
  match v with
  | JNull => Throw (TypeError_read name)
  | JObj props => Normal (assoc name props)
  | _ => Normal None
  end.

(** [item.transID === id] *)
Definition transID_is (id : jsstring) (item : json) : completion bool :=
  match get_prop item (js "transID") with
  | Normal (Some (JStr s)) => Normal (bool_decide (s = id))
  | Normal _ => Normal false
  | Throw e => Throw e
  end.

(** [items.some(p)]: stops at the first item on which [p] is true or raises. *)
Fixpoint some (p : json -> completion bool) (items : list json) : completion bool :=
  match items with
  | [] => Normal false
  | item :: rest =>
      match p item with
      | Normal true => Normal true
      | Normal false => some p rest
      | Throw e => Throw e
      end
  end.

(** [isCompleted(transID)] on whatever [load] returned. *)
Definition isCompleted (data : json) (id : jsstring) : completion bool :=
  match get_prop data (js "completed") with
  | Throw e => Throw e
  | Normal None => Throw (TypeError_read (js "some"))
  | Normal (Some JNull) => Throw (TypeError_read (js "some"))
  | Normal (Some (JArr items)) => some (transID_is id) items
  | Normal (Some _) => Throw (TypeError_not_a_function (js "this.data.completed.some"))
  end.

(** [transIDs.filter(id => !this.isCompleted(id))]: the first part of
    [setPending]; a raise of [isCompleted] leaves the method. *)
Fixpoint filter_not_completed (data : json) (transIDs : list jsstring)
  : completion (list jsstring) :=
  match transIDs with
  | [] => Normal []
  | id :: rest =>
      match isCompleted data id with
      | Throw e => Throw e
      | Normal b =>
          match filter_not_completed data rest with
          | Throw e => Throw e
          | Normal keep => Normal (if b then keep else id :: keep)
          end
      end
  end.

(** The JSON value of an outcome and of a ledger, as [save] writes them. *)
Definition outcome_to_json (r : DownloadOutcome) : json :=
  match r with
  | Downloaded t symbol issuer filename fileDate fileSize =>
      JObj [(js "success", JBool true); (js "transID", JStr t);
            (js "symbol", JStr symbol); (js "issuer", JStr issuer);
            (js "filename", JStr filename); (js "fileDate", JStr fileDate);
            (js "fileSize", JNum (Z.of_nat fileSize))]
  | NotDownloaded t reason =>
      JObj [(js "success", JBool false); (js "transID", JStr t);
            (js "reason", JStr reason)]
  end.

Definition ledger_to_json (data : ledger) : json :=
  JObj [(js "completed", JArr (outcome_to_json <$> completed data));
        (js "failed", JArr (outcome_to_json <$> failed data));
        (js "pending", JArr (JStr <$> pending data))].

(** Reading a JSON value back as a ledger; [None] when it has another
    shape. *)
Definition json_to_outcome (j : json) : option DownloadOutcome :=
  match j with
  | JObj props =>
      match assoc (js "success") props, assoc (js "transID") props with
      | Some (JBool true), Some (JStr t) =>
          match assoc (js "symbol") props, assoc (js "issuer") props,
                assoc (js "filename") props, assoc (js "fileDate") props,
                assoc (js "fileSize") props with
          | Some (JStr symbol), Some (JStr issuer), Some (JStr filename),
            Some (JStr fileDate), Some (JNum n) =>
              if bool_decide (0 ≤ n)%Z
              then Some (Downloaded t symbol issuer filename fileDate (Z.to_nat n))
              else None
          | _, _, _, _, _ => None
          end
      | Some (JBool false), Some (JStr t) =>
          match assoc (js "reason") props with
          | Some (JStr reason) => Some (NotDownloaded t reason)
          | _ => None
          end
      | _, _ => None
      end
  | _ => None
  end.

Definition json_to_id (j : json) : option jsstring :=
  match j with JStr s => Some s | _ => None end.

Definition json_to_ledger (j : json) : option ledger :=
  match j with
  | JObj props =>
      match assoc (js "completed") props, assoc (js "failed") props,
            assoc (js "pending") props with
      | Some (JArr c), Some (JArr f), Some (JArr p) =>
          c' ← mapM json_to_outcome c;
          f' ← mapM json_to_outcome f;
          p' ← mapM json_to_id p;
          Some (Ledger c' f' p')
      | _, _, _ => None
      end
  | _ => None
  end.

End ProgressFile.

(* ===================================================================== *)
(** ** Configuration, requests, the world *)
(* ===================================================================== *)

(** The fields of [CONFIG] the pipeline reads. The three paths of [CONFIG]
    name the three stores of the [World]. *)
Record Config := {
  concurrentDownloads : nat;
  retryAttempts : nat;
  retryDelay : nat;
  requestDelay : nat;
  dateFrom : jsstring;
  dateTo : jsstring
}.

(** [httpClient.get(url, options)]: the URL, the [Referer] header added to
    [BROWSER_HEADERS] and whether [responseType] is ['arraybuffer']. *)
Record request := Request {
  url : jsstring;
  referer : option jsstring;
  arraybuffer : bool
}.

Global Instance request_eq_dec : EqDecision request.
Proof. solve_decision. Defined.

(** [response.data] (the text, or the bytes of an array buffer) and
    [response.headers['content-disposition']]. *)
Record response := Response {
  data : list N;
  content_disposition : option jsstring
}.

Inductive event : Type :=
| EvGet (r : request)      (** a call of [httpClient.get] has completed *)
| EvSleep (ms : nat).      (** a [sleep(ms)] has elapsed *)

Global Instance event_eq_dec : EqDecision event.
Proof. solve_decision. Defined.

Record World := {
  cache : gmap jsstring (list N);       (** the files of [CONFIG.cacheDir] *)
  downloads : gmap jsstring (list N);   (** the files of [CONFIG.downloadDir] *)
  progress_file : option file_content;  (** [CONFIG.progressFile] *)
  bar : nat;                            (** the value of the progress bar *)
  trace : list event;                   (** network calls and sleeps, oldest first *)
  fs_ops : nat                          (** file reads and writes so far *)
}.

(** What the program does not control: the answer to the [n]-th call of
    [httpClient.get] (a response, or the error of a network failure, a
    non-2xx status or a timeout), and the file reads and writes that raise. *)
Record Env := {
  http : nat -> request -> completion response;
  fs_fault : nat -> option error
}.

Definition is_get (e : event) : bool :=
  match e with EvGet _ => true | EvSleep _ => false end.

(** The number of calls of [httpClient.get] completed so far. *)
Definition calls (w : World) : nat :=
  length (List.filter is_get (trace w)).

Inductive dir : Type := CacheDir | DownloadDir.

Definition files (d : dir) (w : World) : gmap jsstring (list N) :=
  match d with CacheDir => cache w | DownloadDir => downloads w end.

Definition set_files (d : dir) (m : gmap jsstring (list N)) (w : World) : World :=
  match d with
  | CacheDir =>
      {| cache := m; downloads := downloads w; progress_file := progress_file w;
         bar := bar w; trace := trace w; fs_ops := fs_ops w |}
  | DownloadDir =>
      {| cache := cache w; downloads := m; progress_file := progress_file w;
         bar := bar w; trace := trace w; fs_ops := fs_ops w |}
  end.

Definition tick_fs (w : World) : World :=
  {| cache := cache w; downloads := downloads w; progress_file := progress_file w;
     bar := bar w; trace := trace w; fs_ops := S (fs_ops w) |}.

Definition log (e : event) (w : World) : World :=
  {| cache := cache w; downloads := downloads w; progress_file := progress_file w;
     bar := bar w; trace := trace w ++ [e]; fs_ops := fs_ops w |}.

Definition start_bar (w : World) : World :=
  {| cache := cache w; downloads := downloads w; progress_file := progress_file w;
     bar := 0; trace := trace w; fs_ops := fs_ops w |}.

(** The part of the world that network calls and sleeps leave alone. *)
Definition other_than_trace (w : World)
  : gmap jsstring (list N) * gmap jsstring (list N) * option file_content * nat * nat :=
  (cache w, downloads w, progress_file w, bar w, fs_ops w).

Definition ENOENT : error := Error (js "ENOENT: no such file or directory").

(* ===================================================================== *)
(** ** Tasks: synchronous effects and suspension points *)
(* ===================================================================== *)

(** The synchronous effects: [fs.existsSync], [fs.readFileSync],
    [fs.writeFileSync] on a file of one of the two directories or on the
    progress file, and [progressBar.increment()]. *)
Inductive sync : Type -> Type :=
| ExistsSync (d : dir) (name : jsstring) : sync bool
| ReadFileSync (d : dir) (name : jsstring) : sync (completion (list N))
| WriteFileSync (d : dir) (name : jsstring) (content : list N) : sync (completion unit)
| ProgressExists : sync bool
| ProgressRead : sync (completion file_content)
| ProgressWrite (j : json) : sync (completion unit)
| BarIncrement : sync unit.

(** What an [async] function awaits: [httpClient.get] and [sleep]. *)
Inductive async : Type -> Type :=
| HttpGet (r : request) : async (completion response)
| Sleep (ms : nat) : async unit.

Inductive task (A : Type) : Type :=
| Ret (a : A)
| Do {X : Type} (e : sync X) (k : X -> task A)
| Await {X : Type} (e : async X) (k : X -> task A).
Arguments Ret {A} a.
Arguments Do {A X} e k.
Arguments Await {A X} e k.

Fixpoint bind {A B} (t : task A) (f : A -> task B) : task B :=
  match t with
  | Ret a => f a
  | Do e k => Do e (fun x => bind (k x) f)
  | Await e k => Await e (fun x => bind (k x) f)
  end.

(** A task that may raise. *)
Abbreviation prog A := (task (completion A)).

Definition ret {A} (a : A) : prog A := Ret (Normal a).
Definition throw {A} (e : error) : prog A := Ret (Throw e).

Definition bindE {A B} (t : prog A) (f : A -> prog B) : prog B :=
  bind t (fun c => match c with Normal a => f a | Throw e => Ret (Throw e) end).

(** [try { t } catch (error) { h error }] *)
Definition try_catch {A} (t : prog A) (h : error -> prog A) : prog A :=
  bind t (fun c => match c with Normal a => Ret (Normal a) | Throw e => h e end).

Definition do_ {X} (e : sync (completion X)) : prog X := Do e Ret.
Definition do_total {X} (e : sync X) : prog X := Do e ret.
Definition await_ {X} (e : async (completion X)) : prog X := Await e Ret.
Definition await_total {X} (e : async X) : prog X := Await e ret.

Declare Scope prog_scope.
Delimit Scope prog_scope with prog.
Notation "'let!' x ':=' t 'in' k" := (bindE t (fun x => k))
  (at level 10, x pattern, t at level 100, k at level 200) : prog_scope.

(** *** The meaning of the effects *)

Definition do_sync (env : Env) {X} (e : sync X) (w : World) : X * World :=
  match e in sync X return X * World with
  | ExistsSync d name => (bool_decide (is_Some (files d w !! name)), w)
  | ReadFileSync d name =>
      match fs_fault env (fs_ops w) with
      | Some err => (Throw err, tick_fs w)
      | None =>
          match files d w !! name with
          | Some content => (Normal content, tick_fs w)
          | None => (Throw ENOENT, tick_fs w)
          end
      end
  | WriteFileSync d name content =>
      match fs_fault env (fs_ops w) with
      | Some err => (Throw err, tick_fs w)
      | None => (Normal tt, tick_fs (set_files d (<[name := content]> (files d w)) w))
      end
  | ProgressExists => (bool_decide (is_Some (progress_file w)), w)
  | ProgressRead =>
      match fs_fault env (fs_ops w) with
      | Some err => (Throw err, tick_fs w)
      | None =>
          match progress_file w with
          | Some c => (Normal c, tick_fs w)
          | None => (Throw ENOENT, tick_fs w)
          end
      end
  | ProgressWrite j =>
      match fs_fault env (fs_ops w) with
      | Some err => (Throw err, tick_fs w)
      | None =>
          (Normal tt,
           tick_fs {| cache := cache w; downloads := downloads w;
                      progress_file := Some (Json j);
                      bar := bar w; trace := trace w; fs_ops := fs_ops w |})
      end
  | BarIncrement =>
      (tt, {| cache := cache w; downloads := downloads w;
              progress_file := progress_file w;
              bar := S (bar w); trace := trace w; fs_ops := fs_ops w |})
  end.

(** The completion of what a task awaits. *)
Definition do_async (env : Env) {X} (e : async X) (w : World) : X * World :=
  match e in async X return X * World with
  | HttpGet r => (http env (calls w) r, log (EvGet r) w)
  | Sleep ms => (tt, log (EvSleep ms) w)
  end.

(** A task run alone, from its call to its settlement. *)
Fixpoint run (env : Env) {A} (t : task A) (w : World) : A * World :=
  match t with
  | Ret a => (a, w)
  | Do e k => let '(x, w') := do_sync env e w in run env (k x) w'
  | Await e k => let '(x, w') := do_async env e w in run env (k x) w'
  end.

(** A task run up to its next suspension point (or its settlement). *)
Fixpoint advance (env : Env) {A} (t : task A) (w : World) : task A * World :=
  match t with
  | Do e k => let '(x, w') := do_sync env e w in advance env (k x) w'
  | _ => (t, w)
  end.

(** One resumption: what the task awaits completes and the task runs on to
    its next suspension point. [None] when the task is not suspended. *)
Definition resume (env : Env) {A} (t : task A) (w : World) : option (task A * World) :=
  match t with
  | Await e k => let '(x, w') := do_async env e w in Some (advance env (k x) w')
  | _ => None
  end.

Definition settled {A} (t : task A) : bool :=
  match t with Ret _ => true | _ => false end.

Definition awaits_get {A} (t : task A) : bool :=
  match t with
  | Await e _ => match e with HttpGet _ => true | Sleep _ => false end
  | _ => false
  end.

(* ===================================================================== *)
(** ** Transport: [fetchWithRetry] *)
(* ===================================================================== *)

Section Transport.
Variable cfg : Config.

(** The iterations of the [for] loop from [attempt] on; [remaining] is the
    number of iterations left, [retries - attempt + 1]. Falling out of the
    loop returns [undefined] ([None]). *)
Fixpoint fetch_loop (r : request) (retries attempt remaining : nat)
  : prog (option response) :=
  match remaining with
  | O => ret None
  | S remaining' =>
      Await (HttpGet r) (fun c =>
        match c with
        | Normal resp => ret (Some resp)
        | Throw err =>
            if bool_decide (attempt = retries) then throw err
            else Await (Sleep (retryDelay cfg * attempt)) (fun _ =>
                   fetch_loop r retries (S attempt) remaining')
        end)
  end.

(** [fetchWithRetry(url, options, retries)] *)
Definition fetchWithRetry_n (r : request) (retries : nat) : prog (option response) :=
  fetch_loop r retries 1 retries.

(** [fetchWithRetry(url, options)], with [retries = CONFIG.retryAttempts] *)
Definition fetchWithRetry (r : request) : prog (option response) :=
  fetchWithRetry_n r (retryAttempts cfg).

End Transport.

(* ===================================================================== *)
(** ** Cache store: [CacheManager] *)
(* ===================================================================== *)

Module CacheManager.

(** [getCachePath(key)]: the name of the file in the cache directory. *)
Definition getCachePath (key : jsstring) : jsstring :=
  sanitize key ++ js ".html".

Definition has (key : jsstring) : prog bool :=
  do_total (ExistsSync CacheDir (getCachePath key)).

(** [get(key)]; [None] is [null]. *)
Definition get (key : jsstring) : prog (option jsstring) :=
  (let! present := has key in
   if present : bool then
     let! content := do_ (ReadFileSync CacheDir (getCachePath key)) in
     ret (Some content)
   else ret None)%prog.

Definition set (key : jsstring) (content : jsstring) : prog unit :=
  do_ (WriteFileSync CacheDir (getCachePath key) content).

End CacheManager.

(* ===================================================================== *)
(** ** Page markup: what [cheerio] and the string built-ins return *)
(* ===================================================================== *)

(** One element of [$('table tbody tr')], through the queries the program
    makes on it. An attribute that is missing is [None] ([undefined]). *)
Record row := Row {
  first_cell_text : jsstring;            (** [$(row).find('td:first-child').text()] *)
  last_link_text : jsstring;             (** [$(row).find('td:last-child a').text()] *)
  last_link_href : option jsstring;      (** [$(row).find('td:last-child a').attr('href')] *)
  last_link_onclick : option jsstring    (** [$(row).find('td:last-child a').attr('onclick')] *)
}.

(** The library functions whose tables are not part of the program:
    [cheerio.load(html)] with the three selections made on it, and the
    Unicode-aware string methods [trim] and [toLowerCase]. *)
Record Dom := {
  table_rows : jsstring -> list row;
  issuer_text : jsstring -> jsstring;    (** [$('span#ctl00_ContentPlaceHolder1_lblIssuer').text()] *)
  symbol_text : jsstring -> jsstring;    (** [$('span#ctl00_ContentPlaceHolder1_lblSymbol').text()] *)
  trim : jsstring -> jsstring;
  toLowerCase : jsstring -> jsstring
}.

(** A value used as a condition: [null], [undefined] and the empty string are
    falsy. *)
Definition truthy (v : option jsstring) : bool :=
  match v with
  | Some (_ :: _) => true
  | _ => false
  end.

(** [URLS.base] *)
Definition URLS_base : jsstring := js "https://market.sec.or.th".

(** The marker of the row that carries the terms file. *)
Definition terms_marker : jsstring :=
  [3586; 3657; 3629; 3585; 3635; 3627; 3609; 3604; 3626; 3636; 3607; 3608; 3636;
   3593; 3610; 3633; 3610; 3627; 3621; 3633; 3585; 32; 3648; 3593; 3614; 3634;
   3632]%N.

Record TermsInfo := {
  terms_url : jsstring;
  terms_issuer : jsstring;
  terms_symbol : jsstring;
  terms_fileDate : option jsstring     (** [null] until a row matches *)
}.

Section Pages.
Variable dom : Dom.
Variable cfg : Config.

(** [URLS.getListUrl()] *)
Definition getListUrl : jsstring :=
  URLS_base ++ js "/public/idisc/en/ViewMore/filing-dw?SecuTypeCode=DW&DbenEfftDateFrom="
  ++ remove_all 45%N (dateFrom cfg) ++ js "&DbenEfftDateTo="
  ++ remove_all 45%N (dateTo cfg) ++ js "&FilingData=0".

(** The body of the [.each] of [extractTransIDs] on one row. *)
Definition listing_row (transIDs : list jsstring) (r : row) : list jsstring :=
  if truthy (last_link_href r) then
    match match_TransID (default [] (last_link_href r)) with
    | Some id => transIDs ++ [id]
    | None => transIDs
    end
  else transIDs.

(** The IDs of a listing page, in the order of its rows. *)
Definition parse_listing (html : jsstring) : list jsstring :=
  foldl listing_row [] (table_rows dom html).

(** The body of the [.each] of [extractTermsURL] on one row; the state is
    [(termsFileURL, fileDate)]. *)
Definition terms_row (st : option jsstring * option jsstring) (r : row)
  : option jsstring * option jsstring :=
  let topicText := trim dom (first_cell_text r) in
  if includes terms_marker (toLowerCase dom topicText) then
    let fileDate := Some (trim dom (last_link_text r)) in
    if truthy (last_link_onclick r) then
      match match_window_open (default [] (last_link_onclick r)) with
      | Some u => (Some (replace_amp u), fileDate)
      | None => (st.1, fileDate)
      end
    else (st.1, fileDate)
  else st.

(** [extractTermsURL(html)]; [None] is [null]. *)
Definition extractTermsURL (html : jsstring) : option TermsInfo :=
  let issuer := trim dom (issuer_text dom html) in
  let symbol := trim dom (symbol_text dom html) in
  let '(termsFileURL, fileDate) := foldl terms_row (None, None) (table_rows dom html) in
  if truthy termsFileURL then
    let u := default [] termsFileURL in
    let u := if startsWith (js "http") u then u else URLS_base ++ u in
    Some {| terms_url := u; terms_issuer := issuer; terms_symbol := symbol;
            terms_fileDate := fileDate |}
  else None.

Definition TypeError_undefined (name : jsstring) : error :=
  Error (js "Cannot read properties of undefined (reading '" ++ name ++ js "')").

(** [response.data] on what [fetchWithRetry] returned. *)
Definition response_data (resp : option response) : prog (list N) :=
  match resp with
  | Some r => ret (data r)
  | None => throw (TypeError_undefined (js "data"))
  end.

(** [extractTransIDs(cache)] *)
Definition extractTransIDs : prog (list jsstring) :=
  try_catch
    (let cacheKey := js "listing_" ++ dateFrom cfg ++ js "_" ++ dateTo cfg in
     let! html := CacheManager.get cacheKey in
     let! html :=
       if truthy html then ret (default [] html)
       else
         let! resp := fetchWithRetry cfg (Request getListUrl None false) in
         let! html := response_data resp in
         let! _ := CacheManager.set cacheKey html in
         ret html
     in
     ret (parse_listing html))%prog
    (fun err => throw (Error (js "Failed to fetch listings: " ++ message err))).

(** The filename taken from the content-disposition header, when there is
    one and the pattern matches with a non-empty capture: the capture
    without its quotes. *)
Definition disposition_filename (contentDisposition : option jsstring) : option jsstring :=
  if truthy contentDisposition then
    match match_filename (default [] contentDisposition) with
    | Some ((_ :: _) as v) => Some (remove_all 34%N (remove_all 39%N v))
    | _ => None
    end
  else None.

(** The name under which the file is written. *)
Definition filename_for (info : TermsInfo) (id : jsstring) (resp : response) : jsstring :=
  let filename := disposition_filename (content_disposition resp) in
  if truthy filename then default [] filename
  else sanitize (terms_symbol info) ++ js "_Terms_" ++ id ++ js ".pdf".

Definition detailURL (id : jsstring) : jsstring :=
  URLS_base ++ js "/public/ipos/IPOSDW01.aspx?TransID=" ++ id.

(** The first statements of the [try] block of [downloadWarrant]: the
    detail page of the item, from the cache or else fetched after the
    pacing delay and written to the cache. *)
Definition detail_html (id : jsstring) : prog jsstring :=
  (let! html := CacheManager.get (js "detail_" ++ id) in
   if truthy html then ret (default [] html)
   else
     let! _ := await_total (Sleep (requestDelay cfg)) in
     let! resp := fetchWithRetry cfg (Request (detailURL id) (Some getListUrl) false) in
     let! html := response_data resp in
     let! _ := CacheManager.set (js "detail_" ++ id) html in
     ret html)%prog.

(** The rest of the [try] block, on the page. *)
Definition download_terms (id : jsstring) (html : jsstring) : prog DownloadOutcome :=
  (match extractTermsURL html with
   | None =>
       let! _ := do_total BarIncrement in
       ret (NotDownloaded id (js "Terms file not found"))
   | Some termsInfo =>
       let! fileResponse :=
         fetchWithRetry cfg (Request (terms_url termsInfo) (Some (detailURL id)) true) in
       match fileResponse with
       | None => throw (TypeError_undefined (js "headers"))
       | Some fileResponse =>
           let filename := filename_for termsInfo id fileResponse in
           let! _ := do_ (WriteFileSync DownloadDir filename (data fileResponse)) in
           let! _ := do_total BarIncrement in
           ret (Downloaded id (terms_symbol termsInfo) (terms_issuer termsInfo)
                  filename (default [] (terms_fileDate termsInfo))
                  (length (data fileResponse)))
       end
   end)%prog.

(** The [try] block of [downloadWarrant]. *)
Definition downloadWarrant_try (id : jsstring) : prog DownloadOutcome :=
  (let! html := detail_html id in download_terms id html)%prog.

(** The [catch] block of [downloadWarrant]. *)
Definition downloadWarrant_catch (id : jsstring) (err : error) : prog DownloadOutcome :=
  (let! _ := do_total BarIncrement in
   ret (NotDownloaded id (message err)))%prog.

(** [downloadWarrant(transID, cache, progressBar)]: the [try] block and its
    [catch]. The result is the value the returned promise is fulfilled
    with, or the error it is rejected with. *)
Definition downloadWarrant (id : jsstring) : prog DownloadOutcome :=
  try_catch (downloadWarrant_try id) (downloadWarrant_catch id).

End Pages.

(* ===================================================================== *)
(** ** The progress ledger on disk *)
(* ===================================================================== *)

(** [new ProgressTracker(CONFIG.progressFile)]: [this.data = this.load()]. *)
Definition ProgressTracker_new : task json :=
  Do ProgressExists (fun present =>
    if present : bool then
      Do ProgressRead (fun read => Ret (ProgressFile.load (Some read)))
    else Ret (ProgressFile.load None)).

(** [save()] *)
Definition save (data : ledger) : prog unit :=
  do_ (ProgressWrite (ProgressFile.ledger_to_json data)).

(** [result.success ? progress.markCompleted(result) : progress.markFailed(result)],
    before [this.save()] *)
Definition mark (result : DownloadOutcome) (data : ledger) : ledger :=
  if success result then ProgressTracker.markCompleted result data
  else ProgressTracker.markFailed result data.

(* ===================================================================== *)
(** ** Batch scheduler: [processDownloads] *)
(* ===================================================================== *)

(** Where the coordinating flow of [processDownloads] stands. *)
Inductive phase : Type :=
| AtLoop (i : nat)
    (** at the test [i < transIDs.length] of the [for] loop *)
| AwaitAll (i : nat) (pool : list (prog DownloadOutcome))
    (** at [await Promise.all(...)]: the workers of the batch, in batch order *)
| Marking (i : nat) (rest : list DownloadOutcome)
    (** inside [batchResults.forEach]: the results still to record *)
| Returned
    (** [processDownloads] has returned [results] *)
| Rejected (e : error).
    (** [processDownloads] has raised *)

Record sched := Sched {
  at_phase : phase;
  tracker : ledger;                  (** [progress.data] *)
  results : list DownloadOutcome;    (** [results] *)
  world : World
}.

(** [batch.map(transID => downloadWarrant(transID, cache, progressBar))]: each
    call runs up to its first suspension point before the next one starts. *)
Fixpoint launch (env : Env) {A} (ts : list (task A)) (w : World) : list (task A) * World :=
  match ts with
  | [] => ([], w)
  | t :: rest =>
      let '(t', w') := advance env t w in
      let '(rest', w'') := launch env rest w' in
      (t' :: rest', w'')
  end.

(** The first rejected promise of a pool. *)
Fixpoint rejection {A} (pool : list (prog A)) : option error :=
  match pool with
  | [] => None
  | Ret (Throw e) :: _ => Some e
  | _ :: rest => rejection rest
  end.

(** The values of a pool whose promises are all fulfilled. *)
Fixpoint fulfilled {A} (pool : list (prog A)) : option (list A) :=
  match pool with
  | [] => Some []
  | Ret (Normal a) :: rest => cons a <$> fulfilled rest
  | _ => None
  end.

Section Scheduler.
Variable env : Env.
Variable dom : Dom.
Variable cfg : Config.
Variable transIDs : list jsstring.

(** [transIDs.slice(i, i + CONFIG.concurrentDownloads)] *)
Definition batch_at (i : nat) : list jsstring :=
  take (concurrentDownloads cfg) (drop i transIDs).

(** One step of the event loop while [processDownloads] runs. In
    [AwaitAll], [j] is the worker of the batch whose awaited call or timer
    completes next. *)
Definition sched_step (j : nat) (s : sched) : option sched :=
  match at_phase s with
  | AtLoop i =>
      if bool_decide (i < length transIDs) then
        let '(pool, w) := launch env (downloadWarrant dom cfg <$> batch_at i) (world s) in
        Some (Sched (AwaitAll i pool) (tracker s) (results s) w)
      else Some (Sched Returned (tracker s) (results s) (world s))
  | AwaitAll i pool =>
      match rejection pool with
      | Some e => Some (Sched (Rejected e) (tracker s) (results s) (world s))
      | None =>
          match fulfilled pool with
          | Some batchResults =>
              Some (Sched (Marking i batchResults) (tracker s) (results s) (world s))
          | None =>
              t ← pool !! j;
              '(t', w) ← resume env t (world s);
              Some (Sched (AwaitAll i (<[j := t']> pool)) (tracker s) (results s) w)
          end
      end
  | Marking i [] =>
      Some (Sched (AtLoop (i + concurrentDownloads cfg)) (tracker s) (results s) (world s))
  | Marking i (result :: rest) =>
      let data := mark result (tracker s) in
      match run env (save data) (world s) with
      | (Normal _, w) => Some (Sched (Marking i rest) data (results s ++ [result]) w)
      | (Throw e, w) => Some (Sched (Rejected e) data (results s) w)
      end
  | Returned => None
  | Rejected _ => None
  end.

Definition sched_next (s s' : sched) : Prop := ∃ j, sched_step j s = Some s'.

(** [processDownloads(transIDs, cache, progress)] is entered with the
    ledger [data] and the world [w]; [progressBar.start(total, 0)]. *)
Definition sched_init (data : ledger) (w : World) : sched :=
  Sched (AtLoop 0) data [] (start_bar w).

Definition reachable (data : ledger) (w : World) (s : sched) : Prop :=
  rtc sched_next (sched_init data w) s.

(** The workers of the current batch that have not settled, and those with
    a network request in flight. *)
Definition in_flight (s : sched) : list (prog DownloadOutcome) :=
  match at_phase s with
  | AwaitAll _ pool => List.filter (fun t => negb (settled t)) pool
  | _ => []
  end.

Definition requests_in_flight (s : sched) : list (prog DownloadOutcome) :=
  match at_phase s with
  | AwaitAll _ pool => List.filter awaits_get pool
  | _ => []
  end.

End Scheduler.

(* ===================================================================== *)
(** ** The pipeline: [main] *)
(* ===================================================================== *)

(** How a run of [main] ends, once the inputs are confirmed. *)
Inductive exit_status : Type :=
| NoWarrants                                (** [process.exit(0)]: no warrants found *)
| AllDownloaded                             (** [process.exit(0)]: nothing pending *)
| Complete (results : list DownloadOutcome) (** download complete, with the summary *)
| Fatal (e : error)                         (** [process.exit(1)] from the [catch] *)
| IllShapedLedger.
    (** the progress file holds JSON of another shape than a ledger: such runs
        are not followed further *)

Section Main.
Variable env : Env.
Variable dom : Dom.
Variable cfg : Config.

(** [main] up to the call of [processDownloads]: the ledger is loaded, the
    listing resolved and the pending IDs are set and saved. The result is
    either the way the run ends here, or the ledger and the pending IDs
    handed to [processDownloads]. *)
Definition main_prologue (w : World)
  : (exit_status + ledger * list jsstring) * World :=
  let '(loaded, w1) := run env ProgressTracker_new w in
  match run env (extractTransIDs dom cfg) w1 with
  | (Throw e, w2) => (inl (Fatal e), w2)
  | (Normal allTransIDs, w2) =>
      if bool_decide (length allTransIDs = 0) then (inl NoWarrants, w2)
      else
        match ProgressFile.json_to_ledger loaded with
        | None => (inl IllShapedLedger, w2)
        | Some data0 =>
            let data := ProgressTracker.setPending allTransIDs data0 in
            match run env (save data) w2 with
            | (Throw e, w3) => (inl (Fatal e), w3)
            | (Normal _, w3) =>
                let pendingTransIDs := ProgressTracker.getPending data in
                if bool_decide (length pendingTransIDs = 0)
                then (inl AllDownloaded, w3)
                else (inr (data, pendingTransIDs), w3)
            end
        end
  end.

(** A run of [main] from the world [w] ends with the given status in the
    world [w']. *)
Inductive main_run (w : World) : exit_status -> World -> Prop :=
| main_exits st w' :
    main_prologue w = (inl st, w') ->
    main_run w st w'
| main_completes data pendingTransIDs w1 s :
    main_prologue w = (inr (data, pendingTransIDs), w1) ->
    reachable env dom cfg pendingTransIDs data w1 s ->
    at_phase s = Returned ->
    main_run w (Complete (results s)) (world s)
| main_fails data pendingTransIDs w1 s e :
    main_prologue w = (inr (data, pendingTransIDs), w1) ->
    reachable env dom cfg pendingTransIDs data w1 s ->
    at_phase s = Rejected e ->
    main_run w (Fatal e) (world s).

End Main.

(** The ledger a world holds on disk, when its progress file holds one. *)
Definition stored_ledger (w : World) : option ledger :=
  match progress_file w with
  | Some (Json j) => ProgressFile.json_to_ledger j
  | _ => None
  end.

(* ===================================================================== *)
(** ** Vocabulary of the ledger properties *)
(* ===================================================================== *)

(** No ID is both in the completed and in the failed list. *)
Definition exclusive (data : ledger) : Prop :=
  ∀ id, ¬ (id ∈ ids_of (completed data) ∧ id ∈ ids_of (failed data)).

(** The ledger after one run: [setPending] on the listing, then one mark per
    pending ID, in order, as [main] and [processDownloads] make them;
    [worker id] is the outcome of the worker of [id]. *)
Definition ledger_run (worker : jsstring -> DownloadOutcome)
    (allIDs : list jsstring) (data : ledger) : ledger :=
  let data1 := ProgressTracker.setPending allIDs data in
  foldl (fun d id => mark (worker id) d) data1 (ProgressTracker.getPending data1).

(** A set of IDs. *)
Definition id_set (ids : list jsstring) : gset jsstring := list_to_set ids.

(** A worker that fails and a worker that succeeds, for the examples. *)
Definition failing_worker (id : jsstring) : DownloadOutcome :=
  NotDownloaded id (js "Terms file not found").

Definition succeeding_worker (id : jsstring) : DownloadOutcome :=
  Downloaded id (js "ABC") (js "Issuer") (js "ABC_Terms_" ++ id ++ js ".pdf")
    (js "01/02/2026") 1024.

(* ===================================================================== *)
(** ** Vocabulary of the transport properties *)
(* ===================================================================== *)

(** The trace of [k] calls for [r] of which all but the last fail, the first
    of them being attempt number [attempt]: after failed attempt [n] comes a
    sleep of [d * n]. *)
Fixpoint attempts_from (d : nat) (r : request) (attempt k : nat) : list event :=
  match k with
  | O => []
  | S k' =>
      EvGet r ::
      match k' with
      | O => []
      | S _ => EvSleep (d * attempt) :: attempts_from d r (S attempt) k'
      end
  end.

(** The sleep that comes immediately before the [n]-th call of a trace
    (counted from 1), if there is one; [prev] is the sleep just seen. *)
Fixpoint wait_before (n : nat) (prev : option nat) (tr : list event) : option nat :=
  match tr with
  | [] => None
  | EvSleep ms :: tr' => wait_before n (Some ms) tr'
  | EvGet _ :: tr' =>
      match n with
      | O => None
      | S O => prev
      | S n' => wait_before n' None tr'
      end
  end.

Definition wait_before_call (n : nat) (tr : list event) : option nat :=
  wait_before n None tr.

(** *** Concrete inputs *)

Definition empty_world : World :=
  {| cache := ∅; downloads := ∅; progress_file := None; bar := 0; trace := [];
     fs_ops := 0 |}.

(** The initial value of [CONFIG], for January 2026. *)
Definition default_config : Config :=
  {| concurrentDownloads := 3; retryAttempts := 3; retryDelay := 2000;
     requestDelay := 1000; dateFrom := js "2026-01-01"; dateTo := js "2026-01-31" |}.

Definition network_error : error := Error (js "timeout of 30000ms exceeded").

Definition some_request : request := Request (js "https://market.sec.or.th/x") None false.

Definition some_response : response := Response (js "<html></html>") None.

(** A transport whose first [n] calls fail and whose later calls succeed; no
    file operation fails. *)
Definition env_failing_first (n : nat) : Env :=
  {| http := fun i _ => if bool_decide (i < n) then Throw network_error
                        else Normal some_response;
     fs_fault := fun _ => None |}.

(** What a call of [fetchWithRetry(url, options, retries)] does, from the
    world [w] to the world [w'] with the completion [result]: [k] calls are
    made, at most [retries]; every call but the last fails; after failed call
    [n] the loop sleeps [retryDelay * n], so the wait before call [n] (from
    the second on) is [retryDelay * (n - 1)]; the result is the response of
    the last call or, when all [retries] calls have failed, the error of the
    last call. *)
Definition retry_contract (env : Env) (cfg : Config) (r : request) (retries : nat)
    (w : World) (result : completion (option response)) (w' : World) : Prop :=
  ∃ k, 1 ≤ k ≤ retries
    ∧ trace w' = trace w ++ attempts_from (retryDelay cfg) r 1 k
    ∧ other_than_trace w' = other_than_trace w
    ∧ wait_before_call 1 (attempts_from (retryDelay cfg) r 1 k) = None
    ∧ (∀ n, 2 ≤ n ≤ k ->
         wait_before_call n (attempts_from (retryDelay cfg) r 1 k)
         = Some (retryDelay cfg * (n - 1)))
    ∧ (∀ n, n < k - 1 -> is_normal (http env (calls w + n) r) = false)
    ∧ result = match http env (calls w + (k - 1)) r with
               | Normal resp => Normal (Some resp)
               | Throw e => Throw e
               end
    ∧ (is_normal result = false -> k = retries).

(* ===================================================================== *)
(** ** Vocabulary of the worker properties *)
(* ===================================================================== *)

(** [leaves P t]: however the effects of [t] answer, [t] settles with a value
    that satisfies [P]. *)
Fixpoint leaves {A} (P : A -> Prop) (t : task A) : Prop :=
  match t with
  | Ret a => P a
  | Do e k => ∀ x, leaves P (k x)
  | Await e k => ∀ x, leaves P (k x)
  end.

(** The promise of a worker is fulfilled, with an outcome for [id]. *)
Definition outcome_for (id : jsstring) (c : completion DownloadOutcome) : Prop :=
  ∃ o, c = Normal o ∧ transID o = id.

(** *** A small site, for the examples

    Three warrants are listed for January 2026. The detail page of 123
    (symbol ABC) carries a terms row, the detail page of 124 carries none and
    the detail page of 125 is served with an empty body. *)

Definition listing_page : jsstring := js "<html>listing 123 124 125</html>".
Definition detail_page_123 : jsstring := js "<html>detail 123 ABC</html>".
Definition detail_page_124 : jsstring := js "<html>detail 124 XYZ</html>".

Definition site_dom : Dom :=
  {| table_rows := fun html =>
       if decide (html = listing_page) then
         [Row (js "ABC") (js "view") (Some (js "/public/ipos/IPOSDW01.aspx?TransID=123")) None;
          Row (js "XYZ") (js "view") (Some (js "/public/ipos/IPOSDW01.aspx?TransID=124")) None;
          Row (js "header") [] None None;
          Row (js "QQQ") (js "view") (Some (js "/public/ipos/IPOSDW01.aspx?TransID=125")) None]
       else if decide (html = detail_page_123) then
         [Row (js "Prospectus") (js "01/01/2026") (Some (js "#")) None;
          Row terms_marker (js "02/01/2026") (Some (js "#"))
            (Some (js "window.open('/FILEVIEW?id=5&amp;type=terms', '_blank')"))]
       else [];
     issuer_text := fun html =>
       if decide (html = detail_page_123) then js "KGI" else [];
     symbol_text := fun html =>
       if decide (html = detail_page_123) then js "ABC" else [];
     trim := fun s => s;
     toLowerCase := fun s => s |}.

Definition terms_file : list N := js "%PDF-1.4 terms".

Definition not_found : error := Error (js "Request failed with status code 404").

(** The answers of the site: they depend on the URL only. *)
Definition site (r : request) : completion response :=
  if decide (url r = getListUrl default_config) then Normal (Response listing_page None)
  else if decide (url r = detailURL (js "123")) then Normal (Response detail_page_123 None)
  else if decide (url r = detailURL (js "124")) then Normal (Response detail_page_124 None)
  else if decide (url r = detailURL (js "125")) then Normal (Response [] None)
  else if decide (url r = URLS_base ++ js "/FILEVIEW?id=5&type=terms")
       then Normal (Response terms_file None)
  else Throw not_found.

Definition site_env : Env :=
  {| http := fun _ r => site r; fs_fault := fun _ => None |}.

(* ===================================================================== *)
(** ** Vocabulary of the scheduler properties *)
(* ===================================================================== *)

(** [safe env I Q t w]: the task [t], entered or resumed in the world [w],
    runs without interleaving up to its next suspension point; it is
    suspended only in a world that satisfies [I]; when what it awaits
    completes, the other tasks have brought the world to some [w'] that
    satisfies [I] again; and it settles with a value [a] in a world [w'] such
    that [I w'] and [Q a w']. *)
Fixpoint safe (env : Env) (I : World -> Prop) {A} (Q : A -> World -> Prop)
    (t : task A) (w : World) : Prop :=
  match t with
  | Ret a => I w ∧ Q a w
  | Do e k => safe env I Q (k (do_sync env e w).1) (do_sync env e w).2
  | Await e k =>
      I w ∧ ∀ w', I w' ->
        safe env I Q (k (do_async env e w').1) (do_async env e w').2
  end.

(** [footprint Ps Pa t]: every synchronous effect of [t] satisfies [Ps] and
    everything it awaits satisfies [Pa]. *)
Fixpoint footprint (Ps : ∀ X, sync X -> Prop) (Pa : ∀ X, async X -> Prop)
    {A} (t : task A) : Prop :=
  match t with
  | Ret _ => True
  | Do e k => Ps _ e ∧ ∀ x, footprint Ps Pa (k x)
  | Await e k => Pa _ e ∧ ∀ x, footprint Ps Pa (k x)
  end.

(** The cache file of the detail page of an item, and the request for it. *)
Definition detail_path (id : jsstring) : jsstring :=
  CacheManager.getCachePath (js "detail_" ++ id).

Definition detail_request (cfg : Config) (id : jsstring) : request :=
  Request (detailURL id) (Some (getListUrl cfg)) false.

(** The requests of the worker of an item: the one for its detail page, and
    those for its terms file, which carry the URL of the detail page as
    [Referer]. *)
Definition request_for (cfg : Config) (id : jsstring) (r : request) : Prop :=
  r = detail_request cfg id ∨ (referer r = Some (detailURL id) ∧ arraybuffer r = true).

(** The synchronous effects of the worker of an item: on the cache file of
    its detail page, on the files of the download directory and on the
    progress bar. *)
Definition worker_sync (id : jsstring) {X} (e : sync X) : Prop :=
  match e with
  | ExistsSync CacheDir p => p = detail_path id
  | ReadFileSync CacheDir p => p = detail_path id
  | WriteFileSync CacheDir p _ => p = detail_path id
  | WriteFileSync DownloadDir _ _ => True
  | BarIncrement => True
  | _ => False
  end.

(** The synchronous effects of the second part of a worker: it writes to the
    download directory and ticks the progress bar. *)
Definition terms_sync {X} (e : sync X) : Prop :=
  match e with
  | WriteFileSync DownloadDir _ _ => True
  | BarIncrement => True
  | _ => False
  end.

(** What the second part of a worker awaits: requests for the terms file,
    with the URL of the detail page as [Referer], and the sleeps between
    them. *)
Definition terms_async (id : jsstring) {X} (e : async X) : Prop :=
  match e with
  | HttpGet r => referer r = Some (detailURL id) ∧ arraybuffer r = true
  | Sleep _ => True
  end.

Definition worker_async (cfg : Config) (id : jsstring) {X} (e : async X) : Prop :=
  match e with
  | HttpGet r => request_for cfg id r
  | Sleep _ => True
  end.

(** The task leaves the progress file alone. *)
Definition keeps_progress (env : Env) {A} (t : task A) : Prop :=
  ∀ w, safe env (fun w' => progress_file w' = progress_file w) (fun _ _ => True) t w.

(** The ledger after the marks of a list of results. *)
Definition marks (data : ledger) (rs : list DownloadOutcome) : ledger :=
  foldl (fun d r => mark r d) data rs.

(** A sequence of steps of the event loop, given by the worker resumed at
    each step; a step that is not possible is skipped. *)
Fixpoint exec (env : Env) (dom : Dom) (cfg : Config) (transIDs : list jsstring)
    (choices : list nat) (s : sched) : sched :=
  match choices with
  | [] => s
  | j :: rest =>
      exec env dom cfg transIDs rest
        (default s (sched_step env dom cfg transIDs j s))
  end.

(** The outcomes of the workers of the current batch that have settled. *)
Definition settled_outcomes (s : sched) : list DownloadOutcome :=
  match at_phase s with
  | AwaitAll _ pool =>
      omap (fun t => match t with Ret (Normal o) => Some o | _ => None end) pool
  | _ => []
  end.

(** The outcomes the progress file holds. *)
Definition persisted (w : World) : list DownloadOutcome :=
  match stored_ledger w with
  | Some data => completed data ++ failed data
  | None => []
  end.

Section SchedulerInvariant.
Variable env : Env.
Variable dom : Dom.
Variable cfg : Config.
Variable transIDs : list jsstring.
Variable data0 : ledger.
Variable stored0 : option ledger.
Variable I : World -> Prop.
Variable Q : jsstring -> DownloadOutcome -> Prop.

Definition worker_ok (id : jsstring) (t : prog DownloadOutcome) : Prop :=
  (∀ w, I w -> safe env I (fun c _ => ∀ r, c = Normal r -> Q id r) t w)
  ∧ leaves (outcome_for id) t
  ∧ footprint (@worker_sync id) (@worker_async cfg id) t.

Definition outcome_ok (id : jsstring) (r : DownloadOutcome) : Prop :=
  transID r = id ∧ Q id r.

(** What holds in every state of [processDownloads], entered with the
    ledger [data0] while the progress file holds [stored0]: when the file
    held [data0], it holds the marks of the results recorded so far; these
    are the outcomes of the first IDs in order; the batch index is a
    multiple of the batch size; the pool holds one worker per ID of the
    batch. *)
Definition sched_inv (s : sched) : Prop :=
  I (world s)
  ∧ (stored0 = Some data0 -> stored_ledger (world s) = Some (marks data0 (results s)))
  ∧ Forall2 outcome_ok (take (length (results s)) transIDs) (results s)
  ∧ match at_phase s with
    | AtLoop i =>
        tracker s = marks data0 (results s)
        ∧ (∃ n, i = n * concurrentDownloads cfg)
        ∧ length (results s) = i `min` length transIDs
    | AwaitAll i pool =>
        tracker s = marks data0 (results s)
        ∧ (∃ n, i = n * concurrentDownloads cfg)
        ∧ i < length transIDs
        ∧ length (results s) = i
        ∧ Forall2 worker_ok (batch_at cfg transIDs i) pool
    | Marking i rest =>
        tracker s = marks data0 (results s)
        ∧ (∃ n, i = n * concurrentDownloads cfg)
        ∧ i < length transIDs
        ∧ i ≤ length (results s)
        ∧ length (results s) + length rest
          = (i + concurrentDownloads cfg) `min` length transIDs
        ∧ Forall2 outcome_ok
            (drop (length (results s)) (take (i + concurrentDownloads cfg) transIDs))
            rest
    | Returned =>
        tracker s = marks data0 (results s)
        ∧ length (results s) = length transIDs
    | Rejected _ => True
    end.

End SchedulerInvariant.

(** *** A run of [processDownloads] on the site *)

Definition site_ids : list jsstring := [js "123"; js "124"; js "125"].

(** The ledger and the world with which [main] calls [processDownloads] on
    its first run on the site. *)
Definition site_data : ledger := ProgressTracker.setPending site_ids empty_ledger.

Definition site_entry : World :=
  (main_prologue site_env site_dom default_config empty_world).2.

(** The state of [processDownloads] after the given resumptions. *)
Definition site_state (choices : list nat) : sched :=
  exec site_env site_dom default_config site_ids choices (sched_init site_data site_entry).

(* ===================================================================== *)
(** ** Vocabulary of the idempotence property *)
(* ===================================================================== *)

(** No remote change: the answer to a request does not depend on when it is
    made. *)
Definition steady (env : Env) : Prop := ∀ n m r, http env n r = http env m r.

(** No file operation fails. *)
Definition no_faults (env : Env) : Prop := ∀ n, fs_fault env n = None.

(** An item ID of a listing: a non-empty string of digits. *)
Definition valid_id (id : jsstring) : Prop := id ≠ [] ∧ forallb is_digit id = true.

(** The cache file and the request of the listing. *)
Definition listing_path (cfg : Config) : jsstring :=
  CacheManager.getCachePath (js "listing_" ++ dateFrom cfg ++ js "_" ++ dateTo cfg).

Definition listing_request (cfg : Config) : request :=
  Request (getListUrl cfg) None false.

(** What [load] returns in the world [w] when the read does not fail. *)
Definition loaded (w : World) : json :=
  ProgressFile.load
    match progress_file w with
    | Some c => Some (Normal c)
    | None => None
    end.

(** The completed entries of the ledger on disk. *)
Definition completed_of (w : World) : list DownloadOutcome :=
  match stored_ledger w with
  | Some data => completed data
  | None => []
  end.

Section Steady.
Variable env : Env.
Variable dom : Dom.
Variable cfg : Config.

(** What [fetchWithRetry] returns when the answers are steady: nothing
    when no attempt is allowed, else the answer to the request. *)
Definition fetched (r : request) : completion (option response) :=
  match retryAttempts cfg with
  | O => Normal None
  | S _ =>
      match http env 0 r with
      | Normal resp => Normal (Some resp)
      | Throw e => Throw e
      end
  end.

(** The body from a cache entry, or else from the response to [r]. *)
Definition body_of (r : request) (entry : option jsstring) : completion jsstring :=
  if truthy entry then Normal (default [] entry)
  else
    match fetched r with
    | Normal (Some resp) => Normal (data resp)
    | Normal None => Throw (TypeError_undefined (js "data"))
    | Throw e => Throw e
    end.

(** What the second part of the worker of [id] returns on the page. *)
Definition terms_outcome (id : jsstring) (html : jsstring) : completion DownloadOutcome :=
  match extractTermsURL dom html with
  | None => Normal (NotDownloaded id (js "Terms file not found"))
  | Some info =>
      match fetched (Request (terms_url info) (Some (detailURL id)) true) with
      | Normal (Some resp) =>
          Normal (Downloaded id (terms_symbol info) (terms_issuer info)
                    (filename_for info id resp) (default [] (terms_fileDate info))
                    (length (data resp)))
      | Normal None => Throw (TypeError_undefined (js "headers"))
      | Throw e => Throw e
      end
  end.

(** The outcome of the [catch] block. *)
Definition caught (id : jsstring) (c : completion DownloadOutcome) : DownloadOutcome :=
  match c with
  | Normal o => o
  | Throw e => NotDownloaded id (message e)
  end.

(** The outcome of the worker of [id] when the cache file of its detail page
    holds [entry]. *)
Definition outcome_of (id : jsstring) (entry : option jsstring) : DownloadOutcome :=
  caught id
    match body_of (detail_request cfg id) entry with
    | Normal html => terms_outcome id html
    | Throw e => Throw e
    end.

(** The outcome of the worker of each item in the world [w]. *)
Definition prediction (w : World) (id : jsstring) : DownloadOutcome :=
  outcome_of id (cache w !! detail_path id).

(** The IDs [extractTransIDs] returns when the cache file of the listing
    holds [entry]. *)
Definition listing_result (entry : option jsstring) : completion (list jsstring) :=
  match body_of (listing_request cfg) entry with
  | Normal html => Normal (parse_listing dom html)
  | Throw e => Throw (Error (js "Failed to fetch listings: " ++ message e))
  end.

(** The workers keep the outcome [o] of every item. *)
Definition outcomes_kept (o : jsstring -> DownloadOutcome) (w : World) : Prop :=
  ∀ id, valid_id id -> prediction w id = o id.

(** The invariant of a run on a steady server: the outcome of every item is
    kept, and [F]. *)
Definition steady_inv (o : jsstring -> DownloadOutcome) (F : World -> Prop)
    (w : World) : Prop :=
  outcomes_kept o w ∧ F w.

End Steady.

(** *** Two runs of [main] on the site *)

(** An order in which the event loop resumes the workers. *)
Definition site_schedule : list nat := concat (replicate 12 [0; 1; 2]).

(** The first run, from the empty world, when [processDownloads] has
    returned. *)
Definition site_first : sched := site_state site_schedule.

(** The ledger and the world with which [main] calls [processDownloads] on
    its second run. *)
Definition site_rerun_data : ledger :=
  ProgressTracker.setPending site_ids (marks site_data (results site_first)).

Definition site_rerun_entry : World :=
  (main_prologue site_env site_dom default_config (world site_first)).2.

(** The second run, when [processDownloads] has returned. *)
Definition site_second : sched :=
  exec site_env site_dom default_config (ProgressTracker.getPending site_rerun_data)
    site_schedule (sched_init site_rerun_data site_rerun_entry).

(* ===================================================================== *)
(** ** Vocabulary of termination *)
(* ===================================================================== *)

(** [processDownloads] has returned or raised. *)
Definition ended (s : sched) : Prop :=
  at_phase s = Returned ∨ ∃ e, at_phase s = Rejected e.

(** A task that is settled or suspended: it is not about to run. *)
Definition at_rest {A} (t : task A) : Prop :=
  match t with Do _ _ => False | _ => True end.

(* ===================================================================== *)
(** ** The inputs: [getUserInputs] *)
(* ===================================================================== *)

(** [\d{n}] at the start of [s]: the rest of [s] after [n] digits. *)
Fixpoint eat_digits (n : nat) (s : jsstring) : option jsstring :=
  match n with
  | O => Some s
  | S n' =>
      match s with
      | c :: s' => if is_digit c then eat_digits n' s' else None
      | [] => None
      end
  end.

(** A literal code unit at the start of [s]. *)
Definition eat_char (x : N) (s : jsstring) : option jsstring :=
  match s with
  | c :: s' => if (c =? x)%N then Some s' else None
  | [] => None
  end.

(** [dateRegex.test(input)] for [/^\d{4}-\d{2}-\d{2}$/] *)
Definition dateRegex_test (input : jsstring) : bool :=
  match
    s1 ← eat_digits 4 input;
    s2 ← eat_char 45 s1;
    s3 ← eat_digits 2 s2;
    s4 ← eat_char 45 s3;
    eat_digits 2 s4
  with
  | Some [] => true
  | _ => false
  end.

(** What a [validate] function of a question returns: [true], or the message
    shown before the question is asked again. *)
Inductive validation : Type :=
| Valid
| Invalid (message : jsstring).

(** The speed chosen in the list question. *)
Inductive speed : Type := slow | normal | fast.

(** The answers [inquirer.prompt(questions)] resolves to. *)
Record answers := Answers {
  ans_dateFrom : jsstring;
  ans_dateTo : jsstring;
  ans_downloadDir : jsstring;
  ans_speed : speed
}.

(** [CONFIG] after [getUserInputs], with its three paths. *)
Record Settings := {
  settings_config : Config;
  settings_downloadDir : jsstring;
  settings_cacheDir : jsstring;
  settings_progressFile : jsstring
}.

(** [speedSettings[speed]]: [(concurrent, delay)] *)
Definition speedSettings (s : speed) : nat * nat :=
  match s with
  | slow => (1, 2000)
  | normal => (3, 1000)
  | fast => (5, 500)
  end.

Section Inputs.
(** [new Date(input).getTime()]: [None] is [NaN]. *)
Variable Date_getTime : jsstring -> option Z.
(** [input.trim()] and [path.join(a, b)] *)
Variable String_trim : jsstring -> jsstring.
Variable path_join : jsstring -> jsstring -> jsstring.

(** The [validate] of the two date questions. *)
Definition validate_date (input : jsstring) : validation :=
  if negb (dateRegex_test input)
  then Invalid (js "Please enter date in YYYY-MM-DD format (e.g., 2026-01-01)")
  else
    match Date_getTime input with
    | None => Invalid (js "Please enter a valid date")
    | Some _ => Valid
    end.

(** The [validate] of the folder question. *)
Definition validate_folder (input : jsstring) : validation :=
  if negb (truthy (Some input)) || bool_decide (String_trim input = [])
  then Invalid (js "Please enter a folder path")
  else Valid.

(** [endDate < startDate] on two [Date] objects: false when one is invalid. *)
Definition Date_lt (a b : jsstring) : bool :=
  match Date_getTime a, Date_getTime b with
  | Some x, Some y => (x <? y)%Z
  | _, _ => false
  end.

(** [getUserInputs()] once the questions are answered: [None] is
    [process.exit(1)]; otherwise [CONFIG] is updated from its initial value,
    of which [retryAttempts] and [retryDelay] stay. *)
Definition getUserInputs (a : answers) : option Settings :=
  if Date_lt (ans_dateTo a) (ans_dateFrom a) then None
  else
    let settings := speedSettings (ans_speed a) in
    Some {| settings_config :=
              {| concurrentDownloads := settings.1;
                 retryAttempts := 3;
                 retryDelay := 2000;
                 requestDelay := settings.2;
                 dateFrom := ans_dateFrom a;
                 dateTo := ans_dateTo a |};
            settings_downloadDir := ans_downloadDir a;
            settings_cacheDir := path_join (ans_downloadDir a) (js ".cache");
            settings_progressFile := path_join (ans_downloadDir a) (js ".progress.json") |}.

End Inputs.

(* ===================================================================== *)
(** ** The summary: [displaySummary] *)
(* ===================================================================== *)

(** What [displaySummary(results)] prints: the two counts; the total size in
    bytes, which is printed (in MB) when at least one download succeeded; the
    failed downloads that are listed, with their reasons. *)
Record summary := {
  shown_successful : nat;
  shown_failed : nat;
  shown_totalSize : option nat;
  shown_failures : list (jsstring * jsstring)
}.

(** [r.fileSize || 0] *)
Definition fileSize_or_0 (r : DownloadOutcome) : nat :=
  match r with
  | Downloaded _ _ _ _ _ sz => sz
  | NotDownloaded _ _ => 0
  end.

(** [f.reason] of a failed result *)
Definition reason_of (r : DownloadOutcome) : jsstring :=
  match r with
  | Downloaded _ _ _ _ _ _ => []
  | NotDownloaded _ reason => reason
  end.

Definition displaySummary (results : list DownloadOutcome) : summary :=
  let successful := List.filter success results in
  let failed := List.filter (fun r => negb (success r)) results in
  {| shown_successful := length successful;
     shown_failed := length failed;
     shown_totalSize :=
       if 0 <? length successful
       then Some (foldl (fun sum r => sum + fileSize_or_0 r) 0 successful)
       else None;
     shown_failures :=
       if (0 <? length failed) && (length failed <=? 10)
       then (fun f => (transID f, reason_of f)) <$> failed
       else [] |}.

(* ===================================================================== *)
(** ** Vocabulary of the page properties *)
(* ===================================================================== *)

(** The ID a row of the listing contributes, if any. *)
Definition row_transID (r : row) : option jsstring :=
  if truthy (last_link_href r) then match_TransID (default [] (last_link_href r))
  else None.

(** The row is one that carries the terms file. *)
Definition is_terms_row (dom : Dom) (r : row) : bool :=
  includes terms_marker (toLowerCase dom (trim dom (first_cell_text r))).

(** A code unit of a sanitized name: a letter, a digit or the underscore. *)
Definition is_safe_char (c : N) : bool := is_alnum c || (c =? 95)%N.

(* ===================================================================== *)
(** ** Vocabulary of the listing and of the prologue *)
(* ===================================================================== *)

(** The synchronous effects of [extractTransIDs]: on the cache file of the
    listing. *)
Definition listing_sync (cfg : Config) {X} (e : sync X) : Prop :=
  match e with
  | ExistsSync CacheDir p => p = listing_path cfg
  | ReadFileSync CacheDir p => p = listing_path cfg
  | WriteFileSync CacheDir p _ => p = listing_path cfg
  | _ => False
  end.

(** What [extractTransIDs] awaits: requests for the listing, and the sleeps
    between them. *)
Definition listing_async (cfg : Config) {X} (e : async X) : Prop :=
  match e with
  | HttpGet r => r = listing_request cfg
  | Sleep _ => True
  end.

(* ===================================================================== *)
(** ** Vocabulary of the worker's effects *)
(* ===================================================================== *)

(** The synchronous effects of the first part of a worker: on the cache file
    of the detail page of its item. *)
Definition detail_sync (id : jsstring) {X} (e : sync X) : Prop :=
  match e with
  | ExistsSync CacheDir p => p = detail_path id
  | ReadFileSync CacheDir p => p = detail_path id
  | WriteFileSync CacheDir p _ => p = detail_path id
  | _ => False
  end.

(* ===================================================================== *)
(** ** Vocabulary of the scheduler's termination *)
(* ===================================================================== *)

(** A pool of workers from which every sequence of resumptions is finite. *)
Inductive pool_wf (env : Env) {A} : list (task A) -> Prop :=
| pool_wf_intro pool :
    (∀ j t w t' w',
       pool !! j = Some t -> resume env t w = Some (t', w') ->
       pool_wf env (<[j := t']> pool)) ->
    pool_wf env pool.

(** An initial configuration with no concurrency, for the examples. *)
Definition stalled_config : Config :=
  {| concurrentDownloads := 0; retryAttempts := 3; retryDelay := 2000;
     requestDelay := 1000; dateFrom := js "2026-01-01"; dateTo := js "2026-01-31" |}.

(** The URL the link of a row opens, if its [onclick] does so, with
    [&amp;] decoded. *)
Definition row_terms_url (r : row) : option jsstring :=
  if truthy (last_link_onclick r)
  then replace_amp <$> match_window_open (default [] (last_link_onclick r))
  else None.

(** The row gives [extractTermsURL] a URL. *)
Definition gives_url (dom : Dom) (r : row) : bool :=
  is_terms_row dom r && bool_decide (is_Some (row_terms_url r)).

(* ===================================================================== *)
(** ** Vocabulary of waiting and of the progress bar *)
(* ===================================================================== *)

(** The time slept in a trace, in milliseconds. *)
Definition total_sleep (tr : list event) : nat :=
  foldr (fun ev n => match ev with EvSleep ms => ms + n | EvGet _ => n end) 0 tr.

Definition is_bar_increment {X} (e : sync X) : bool :=
  match e with BarIncrement => true | _ => false end.

(** [ticks Q t]: however the effects of [t] answer, [t] settles with a value
    [a] after [m] increments of the progress bar such that [Q m a]. *)
Fixpoint ticks {A} (Q : nat -> A -> Prop) (t : task A) : Prop :=
  match t with
  | Ret a => Q 0 a
  | Do e k => ∀ x, ticks (if is_bar_increment e then (fun m => Q (S m)) else Q) (k x)
  | Await e k => ∀ x, ticks Q (k x)
  end.

(** The progress bar while [processDownloads] runs: it counts the results
    recorded so far, the results of the batch that are still to record, and
    the increments [ds] the workers of the pool have made, each of which
    makes one in all. *)
Definition bar_inv (s : sched) : Prop :=
  match at_phase s with
  | AtLoop _ => bar (world s) = length (results s)
  | AwaitAll _ pool =>
      ∃ ds, Forall2 (fun d t => ticks (fun m _ => d + m = 1) t) ds pool
            ∧ bar (world s) = length (results s) + sum_list ds
  | Marking _ rest => bar (world s) = length (results s) + length rest
  | Returned => bar (world s) = length (results s)
  | Rejected _ => True
  end.

(* ===================================================================== *)
(** * Properties *)
(* ===================================================================== *)

(** ** The patterns on concrete strings *)

Example match_TransID_ex :
  match_TransID (js "/public/ipos/IPOSDW01.aspx?TransID=740646&x=1") = Some (js "740646").
Proof. reflexivity. Qed.

Example match_filename_ex :
  match_filename (js "attachment; filename=" ++ [34%N] ++ js "a b.pdf" ++ [34%N] ++ js "; size=3")
  = Some ([34%N] ++ js "a b.pdf" ++ [34%N]).
Proof. reflexivity. Qed.

Example match_filename_plain :
  match_filename (js "attachment; filename=terms.pdf; size=3") = Some (js "terms.pdf").
Proof. reflexivity. Qed.


(* ===================================================================== *)
(** ** Progress ledger *)
(* ===================================================================== *)

Section LedgerFacts.
Import ProgressTracker.

Lemma isCompleted_spec data id :
  isCompleted data id = true ↔ id ∈ ids_of (completed data).
Proof.
  unfold isCompleted, ids_of. rewrite existsb_exists, list_elem_of_fmap.
  split.
  - intros (r & Hin & Hr). apply bool_decide_eq_true in Hr.
    exists r. split; [done | by apply list_elem_of_In].
  - intros (r & -> & Hin). exists r. split; [by apply list_elem_of_In |].
    by apply bool_decide_eq_true.
Qed.

Lemma isCompleted_false data id :
  isCompleted data id = false ↔ id ∉ ids_of (completed data).
Proof.
  rewrite <- isCompleted_spec. destruct (isCompleted data id); naive_solver.
Qed.

Lemma setPending_pending data allIDs :
  pending (setPending allIDs data)
  = filter (fun id => id ∉ ids_of (completed data)) allIDs.
Proof.
  unfold setPending; simpl. apply list_filter_iff. intros id.
  apply isCompleted_false.
Qed.

Lemma elem_of_setPending data allIDs id :
  id ∈ pending (setPending allIDs data)
  ↔ id ∈ allIDs ∧ id ∉ ids_of (completed data).
Proof. rewrite setPending_pending, list_elem_of_filter. tauto. Qed.

(** The marks of a list of results only append to the two lists. *)
Lemma marks_completed (worker : jsstring -> DownloadOutcome) ids data :
  completed (foldl (fun d id => mark (worker id) d) data ids)
  = completed data ++ List.filter success (worker <$> ids).
Proof.
  revert data. induction ids as [|id ids IH]; intros data; simpl.
  - by rewrite app_nil_r.
  - rewrite IH. unfold mark. destruct (success (worker id)) eqn:Hs; simpl.
    + by rewrite <- app_assoc.
    + done.
Qed.

Lemma marks_failed (worker : jsstring -> DownloadOutcome) ids data :
  failed (foldl (fun d id => mark (worker id) d) data ids)
  = failed data ++ List.filter (fun r => negb (success r)) (worker <$> ids).
Proof.
  revert data. induction ids as [|id ids IH]; intros data; simpl.
  - by rewrite app_nil_r.
  - rewrite IH. unfold mark. destruct (success (worker id)) eqn:Hs; simpl.
    + done.
    + by rewrite <- app_assoc.
Qed.

Lemma elem_of_ids_filter (worker : jsstring -> DownloadOutcome) (p : DownloadOutcome -> bool) ids id :
  (∀ i, transID (worker i) = i) ->
  id ∈ ids_of (List.filter p (worker <$> ids)) ↔ id ∈ ids ∧ p (worker id) = true.
Proof.
  intros Hw. unfold ids_of. rewrite list_elem_of_fmap. split.
  - intros (r & -> & Hin). apply list_elem_of_In, filter_In in Hin.
    destruct Hin as [Hin Hp].
    apply list_elem_of_In, list_elem_of_fmap in Hin.
    destruct Hin as (i & -> & Hi). rewrite Hw. done.
  - intros [Hin Hp]. exists (worker id). split; [by rewrite Hw |].
    apply list_elem_of_In, filter_In. split; [|done].
    apply list_elem_of_In, list_elem_of_fmap. eauto.
Qed.

End LedgerFacts.

(** C3, as stated, fails: an item that fails in one run and succeeds in the
    next one is in both lists, since [markCompleted] leaves the failed list as
    it is. *)
Lemma exclusivity_counterexample :
  ¬ exclusive
      (ledger_run succeeding_worker [js "7"]
         (ledger_run failing_worker [js "7"] empty_ledger)).
Proof.
  intros H. apply (H (js "7")). vm_compute. split; apply list_elem_of_here.
Qed.

(** The IDs of the two lists after a run. *)
Lemma ledger_run_completed worker allIDs data id :
  (∀ i, transID (worker i) = i) ->
  id ∈ ids_of (completed (ledger_run worker allIDs data))
  ↔ id ∈ ids_of (completed data)
    ∨ (id ∈ allIDs ∧ (id ∉ ids_of (completed data)) ∧ success (worker id) = true).
Proof.
  intros Hw. unfold ledger_run, ProgressTracker.getPending.
  rewrite marks_completed. unfold ids_of at 1. rewrite fmap_app, elem_of_app.
  fold (ids_of (completed (ProgressTracker.setPending allIDs data))).
  fold (ids_of (List.filter success
         (worker <$> pending (ProgressTracker.setPending allIDs data)))).
  rewrite elem_of_ids_filter by done. rewrite elem_of_setPending. simpl. tauto.
Qed.

Lemma ledger_run_failed worker allIDs data id :
  (∀ i, transID (worker i) = i) ->
  id ∈ ids_of (failed (ledger_run worker allIDs data))
  ↔ id ∈ ids_of (failed data)
    ∨ (id ∈ allIDs ∧ (id ∉ ids_of (completed data)) ∧ success (worker id) = false).
Proof.
  intros Hw. unfold ledger_run, ProgressTracker.getPending.
  rewrite marks_failed. unfold ids_of at 1. rewrite fmap_app, elem_of_app.
  fold (ids_of (failed (ProgressTracker.setPending allIDs data))).
  fold (ids_of (List.filter (fun r => negb (success r))
         (worker <$> pending (ProgressTracker.setPending allIDs data)))).
  rewrite elem_of_ids_filter by done. rewrite elem_of_setPending. simpl.
  rewrite negb_true_iff. tauto.
Qed.

(** C3 (amended): in a run ([setPending] on the listing, then one mark per
    pending ID, [worker id] being the outcome of the worker of [id], which
    carries that ID), an ID that ends in both the completed and the failed
    list was in the failed list before the run. Hence a run puts no ID in
    both lists by itself; the IDs in both are those that failed in an earlier
    run and were completed since. *)
Theorem ledger_run_overlap worker allIDs data id :
  (∀ i, transID (worker i) = i) ->
  id ∈ ids_of (completed (ledger_run worker allIDs data)) ->
  id ∈ ids_of (failed (ledger_run worker allIDs data)) ->
  id ∈ ids_of (failed data).
Proof.
  intros Hw.
  rewrite ledger_run_completed, ledger_run_failed by done.
  intros [Hc | (_ & _ & Hs)] [Hf | (_ & Hnc & Hns)]; try done.
  rewrite Hs in Hns. discriminate Hns.
Qed.

Lemma ledger_run_overlap_witness :
  (∀ i, transID (succeeding_worker i) = i)
  ∧ js "7" ∈ ids_of (failed (ledger_run failing_worker [js "7"] empty_ledger)).
Proof.
  split; [reflexivity |].
  apply (ledger_run_overlap succeeding_worker [js "7"]
           (ledger_run failing_worker [js "7"] empty_ledger) (js "7")).
  - reflexivity.
  - vm_compute. apply list_elem_of_here.
  - vm_compute. apply list_elem_of_here.
Defined.

(** After a first run from the empty ledger the two lists are disjoint. *)
Corollary first_run_exclusive worker allIDs :
  (∀ i, transID (worker i) = i) ->
  exclusive (ledger_run worker allIDs empty_ledger).
Proof.
  intros Hw id. rewrite ledger_run_completed, ledger_run_failed by done. simpl.
  intros [[Hc | (_ & _ & Hs)] [Hf | (_ & _ & Hns)]];
    try (by apply not_elem_of_nil in Hc); try (by apply not_elem_of_nil in Hf).
  rewrite Hs in Hns. discriminate Hns.
Qed.

Lemma elem_of_id_set ids id : id ∈ id_set ids ↔ id ∈ ids.
Proof. unfold id_set. apply elem_of_list_to_set. Qed.

(** C4, as stated, fails on its second half: an ID completed under another
    listing (an earlier run on another date range into the same folder) stays
    in the completed list, so the union is larger than the listing. *)
Lemma setPending_union_counterexample :
  let data := Ledger [succeeding_worker (js "9")] [] [] in
  let data' := ProgressTracker.setPending [js "1"] data in
  pending data' = [js "1"] ∧
  id_set (pending data') ∪ id_set (ids_of (completed data')) ≠ id_set [js "1"].
Proof.
  split; [reflexivity |].
  intros H.
  assert (js "9" ∈ id_set [js "1"]) as Hin.
  { rewrite <- H. apply elem_of_union_r, elem_of_id_set. vm_compute. apply list_elem_of_here. }
  apply elem_of_id_set, list_elem_of_singleton in Hin. discriminate Hin.
Qed.

(** C4 (amended): after [setPending(allIDs)] the pending list is [allIDs]
    without the already completed IDs, in the order of the listing; the
    pending IDs together with the completed IDs of the listing are the IDs of
    the listing; no pending ID is completed; and the union of pending and
    completed is the listing's ID set exactly when every completed ID is in
    the listing. *)
Theorem setPending_postcondition data allIDs :
  let data' := ProgressTracker.setPending allIDs data in
  pending data' = filter (fun id => id ∉ ids_of (completed data)) allIDs
  ∧ completed data' = completed data
  ∧ id_set (pending data') ∪ (id_set (ids_of (completed data')) ∩ id_set allIDs)
    = id_set allIDs
  ∧ id_set (pending data') ∩ id_set (ids_of (completed data')) = ∅
  ∧ (id_set (pending data') ∪ id_set (ids_of (completed data')) = id_set allIDs
     ↔ id_set (ids_of (completed data)) ⊆ id_set allIDs).
Proof.
  intros data'. subst data'.
  split; [apply setPending_pending |].
  split; [reflexivity |].
  simpl completed.
  assert (∀ id, id ∈ id_set (pending (ProgressTracker.setPending allIDs data))
                ↔ id ∈ id_set allIDs ∧ id ∉ id_set (ids_of (completed data))) as Hp.
  { intros id. rewrite !elem_of_id_set. apply elem_of_setPending. }
  split; [|split]; [| |split].
  - apply set_eq. intros id. rewrite elem_of_union, elem_of_intersection, Hp.
    destruct (decide (id ∈ id_set (ids_of (completed data)))); tauto.
  - apply set_eq. intros id. rewrite elem_of_intersection, Hp.
    split; [tauto | intros Hf; by apply not_elem_of_empty in Hf].
  - intros H id Hc. rewrite <- H. by apply elem_of_union_r.
  - intros H. apply set_eq. intros id. rewrite elem_of_union, Hp.
    specialize (H id).
    destruct (decide (id ∈ id_set (ids_of (completed data)))); tauto.
Qed.

(* ===================================================================== *)
(** ** The progress file *)
(* ===================================================================== *)

Section ProgressFileFacts.
Import ProgressFile.

Lemma assoc_here k v rest : assoc k ((k, v) :: rest) = Some v.
Proof. simpl. by rewrite bool_decide_eq_true_2. Qed.

Lemma assoc_next k k' v rest : k' ≠ k -> assoc k ((k', v) :: rest) = assoc k rest.
Proof. intros H. simpl. by rewrite bool_decide_eq_false_2. Qed.

Ltac assoc_step :=
  first [ rewrite assoc_here
        | rewrite assoc_next by (let H := fresh in intros H; vm_compute in H; discriminate H) ].

Lemma json_to_outcome_to_json r : json_to_outcome (outcome_to_json r) = Some r.
Proof.
  destruct r as [t sy iss fn fd sz | t reason]; unfold outcome_to_json, json_to_outcome.
  - repeat assoc_step.
    rewrite bool_decide_eq_true_2 by lia. by rewrite Nat2Z.id.
  - repeat assoc_step. done.
Qed.

Lemma mapM_json_to_outcome l :
  mapM json_to_outcome (outcome_to_json <$> l) = Some l.
Proof.
  apply mapM_Some. induction l as [|r l IH]; simpl; constructor; [|done].
  apply json_to_outcome_to_json.
Qed.

Lemma mapM_json_to_id l : mapM json_to_id (JStr <$> l) = Some l.
Proof.
  apply mapM_Some. induction l as [|r l IH]; simpl; constructor; done.
Qed.

(** A ledger is read back from the JSON value [save] writes for it. *)
Lemma json_to_ledger_to_json data :
  json_to_ledger (ledger_to_json data) = Some data.
Proof.
  unfold json_to_ledger, ledger_to_json. repeat assoc_step.
  rewrite mapM_json_to_outcome, mapM_json_to_outcome, mapM_json_to_id. simpl.
  by destruct data.
Qed.

Lemma transID_is_outcome id r :
  transID_is id (outcome_to_json r) = Normal (bool_decide (transID r = id)).
Proof.
  destruct r; unfold transID_is, get_prop, outcome_to_json; repeat assoc_step; done.
Qed.

Lemma some_transID_is id l :
  some (transID_is id) (outcome_to_json <$> l)
  = Normal (existsb (fun item => bool_decide (transID item = id)) l).
Proof.
  induction l as [|r l IH]; simpl; [done |].
  rewrite transID_is_outcome. destruct (bool_decide (transID r = id)); simpl; done.
Qed.

(** On a ledger, [isCompleted] does not raise and is the membership test of
    the completed list. *)
Lemma isCompleted_ledger data id :
  isCompleted (ledger_to_json data) id = Normal (ProgressTracker.isCompleted data id).
Proof.
  unfold isCompleted, ledger_to_json, get_prop. repeat assoc_step.
  apply some_transID_is.
Qed.

Lemma filter_not_completed_ledger data ids :
  filter_not_completed (ledger_to_json data) ids
  = Normal (pending (ProgressTracker.setPending ids data)).
Proof.
  unfold ProgressTracker.setPending; simpl pending.
  induction ids as [|id ids IH]; simpl filter_not_completed; [done |].
  rewrite isCompleted_ledger, IH, filter_cons.
  destruct (ProgressTracker.isCompleted data id) eqn:Hc.
  - rewrite decide_False; [done | congruence].
  - rewrite decide_True; done.
Qed.

End ProgressFileFacts.

(** C6, as stated, fails on content that parses: the file [{}] is returned as
    it is, not as the empty state, and the first [isCompleted] on it raises
    (in [main], inside [setPending], which ends the run with exit code 1). *)
Lemma load_counterexample :
  let data := ProgressFile.load (Some (Normal (Json (JObj [])))) in
  data = JObj [] ∧
  data ≠ empty_state ∧
  is_normal (ProgressFile.isCompleted data (js "740646")) = false ∧
  is_normal (ProgressFile.filter_not_completed data [js "740646"]) = false.
Proof. repeat split. intros H. discriminate H. Qed.

(** C6 (amended): constructing the ledger never raises. When the progress
    file is absent, cannot be read or does not parse, the ledger is the empty
    state; when it holds a ledger that [save] wrote, that ledger is loaded and
    [isCompleted] and the filter of [setPending] on it do not raise. *)
Theorem load_robust :
  ProgressFile.load None = empty_state
  ∧ (∀ e, ProgressFile.load (Some (Throw e)) = empty_state)
  ∧ (∀ text, ProgressFile.load (Some (Normal (Unparsable text))) = empty_state)
  ∧ ProgressFile.json_to_ledger empty_state = Some empty_ledger
  ∧ (∀ data,
       ProgressFile.load (Some (Normal (Json (ProgressFile.ledger_to_json data))))
       = ProgressFile.ledger_to_json data)
  ∧ (∀ data id,
       ProgressFile.isCompleted (ProgressFile.ledger_to_json data) id
       = Normal (ProgressTracker.isCompleted data id))
  ∧ (∀ data ids,
       ProgressFile.filter_not_completed (ProgressFile.ledger_to_json data) ids
       = Normal (pending (ProgressTracker.setPending ids data))).
Proof.
  repeat split.
  - intros data id. apply isCompleted_ledger.
  - intros data ids. apply filter_not_completed_ledger.
Qed.

(* ===================================================================== *)
(** ** Tasks *)
(* ===================================================================== *)

Lemma run_bind {A B} env (t : task A) (f : A -> task B) w :
  run env (bind t f) w = let '(a, w') := run env t w in run env (f a) w'.
Proof.
  revert w. induction t as [a | X e k IH | X e k IH]; intros w; simpl.
  - done.
  - destruct (do_sync env e w) as [x w']. apply IH.
  - destruct (do_async env e w) as [x w']. apply IH.
Qed.

Lemma run_bindE {A B} env (t : prog A) (f : A -> prog B) w :
  run env (bindE t f) w
  = match run env t w with
    | (Normal a, w') => run env (f a) w'
    | (Throw e, w') => (Throw e, w')
    end.
Proof.
  unfold bindE. rewrite run_bind. destruct (run env t w) as [[a | e] w']; done.
Qed.

Lemma run_ret {A} env (a : A) w : run env (ret a) w = (Normal a, w).
Proof. reflexivity. Qed.

Lemma run_throw {A} env e w : run env (@throw A e) w = (Throw e, w).
Proof. reflexivity. Qed.

Lemma run_await_sleep env ms w :
  run env (await_total (Sleep ms)) w = (Normal tt, log (EvSleep ms) w).
Proof. reflexivity. Qed.

Ltac step_bindE :=
  match goal with
  | |- context [run ?env (@bindE ?A ?B ?t ?f) ?w] => rewrite (@run_bindE A B env t f w)
  end.

Lemma run_try_catch {A} env (t : prog A) (h : error -> prog A) w :
  run env (try_catch t h) w
  = match run env t w with
    | (Normal a, w') => (Normal a, w')
    | (Throw e, w') => run env (h e) w'
    end.
Proof.
  unfold try_catch. rewrite run_bind. destruct (run env t w) as [[a | e] w']; done.
Qed.

Lemma calls_log_get r w : calls (log (EvGet r) w) = S (calls w).
Proof.
  unfold calls, log; simpl. rewrite List.filter_app, length_app. simpl. lia.
Qed.

Lemma calls_log_sleep ms w : calls (log (EvSleep ms) w) = calls w.
Proof.
  unfold calls, log; simpl. rewrite List.filter_app, length_app. simpl. lia.
Qed.

(* ===================================================================== *)
(** ** Transport *)
(* ===================================================================== *)

Section TransportFacts.
Variable env : Env.
Variable cfg : Config.
Variable r : request.

Lemma fetch_loop_step retries attempt remaining w :
  run env (fetch_loop cfg r retries attempt (S remaining)) w
  = match http env (calls w) r with
    | Normal resp => (Normal (Some resp), log (EvGet r) w)
    | Throw err =>
        if bool_decide (attempt = retries) then (Throw err, log (EvGet r) w)
        else run env (fetch_loop cfg r retries (S attempt) remaining)
               (log (EvSleep (retryDelay cfg * attempt)) (log (EvGet r) w))
    end.
Proof.
  simpl. destruct (http env (calls w) r); [done |].
  destruct (bool_decide (attempt = retries)); done.
Qed.

(** What a run of the retry loop does, when at least one iteration is
    left. *)
Lemma fetch_loop_run retries remaining : ∀ attempt w,
  attempt + remaining = S retries ->
  1 ≤ remaining ->
  ∃ k, 1 ≤ k ≤ remaining
    ∧ trace (run env (fetch_loop cfg r retries attempt remaining) w).2
      = trace w ++ attempts_from (retryDelay cfg) r attempt k
    ∧ other_than_trace (run env (fetch_loop cfg r retries attempt remaining) w).2
      = other_than_trace w
    ∧ (∀ n, n < k - 1 -> is_normal (http env (calls w + n) r) = false)
    ∧ (run env (fetch_loop cfg r retries attempt remaining) w).1
      = match http env (calls w + (k - 1)) r with
        | Normal resp => Normal (Some resp)
        | Throw e => Throw e
        end
    ∧ (is_normal (http env (calls w + (k - 1)) r) = false -> k = remaining).
Proof.
  induction remaining as [|remaining IH]; intros attempt w Hsum Hpos; [lia |].
  rewrite fetch_loop_step.
  destruct (http env (calls w) r) as [resp | err] eqn:Hget.
  - exists 1. simpl. rewrite Nat.add_0_r, Hget.
    repeat split; try done; try lia; intros; lia.
  - destruct (bool_decide (attempt = retries)) eqn:Hlast.
    + apply bool_decide_eq_true in Hlast.
      exists 1. simpl. rewrite Nat.add_0_r, Hget.
      repeat split; try done; try lia; intros; lia.
    + apply bool_decide_eq_false in Hlast.
      destruct (IH (S attempt) (log (EvSleep (retryDelay cfg * attempt)) (log (EvGet r) w)))
        as (k & Hk & Htr & Hoth & Hfail & Hres & Hex); [lia | lia |].
      rewrite calls_log_sleep, calls_log_get in Hfail, Hres, Hex.
      exists (S k). split; [lia |].
      split; [|split; [|split; [|split]]].
      * rewrite Htr. simpl trace. rewrite <- !app_assoc. simpl.
        destruct k as [|k']; [lia | done].
      * rewrite Hoth. done.
      * intros n Hn. destruct n as [|n].
        -- rewrite Nat.add_0_r, Hget. done.
        -- replace (calls w + S n) with (S (calls w) + n) by lia.
           apply Hfail. lia.
      * rewrite Hres. replace (calls w + (S k - 1)) with (S (calls w) + (k - 1)) by lia.
        done.
      * replace (calls w + (S k - 1)) with (S (calls w) + (k - 1)) by lia.
        intros Hf. rewrite (Hex Hf). done.
Qed.

End TransportFacts.

Lemma attempts_from_SS d r a k :
  attempts_from d r a (S (S k))
  = EvGet r :: EvSleep (d * a) :: attempts_from d r (S a) (S k).
Proof. reflexivity. Qed.

Lemma wait_before_attempts d r k : ∀ n a prev,
  1 ≤ n ≤ k ->
  wait_before n prev (attempts_from d r a k)
  = if bool_decide (n = 1) then prev else Some (d * (a + n - 2)).
Proof.
  induction k as [|k IH]; intros n a prev Hn; [lia |].
  destruct k as [|k].
  - assert (n = 1) as -> by lia. reflexivity.
  - rewrite attempts_from_SS.
    destruct n as [|[|n]]; [lia | reflexivity |].
    change (wait_before (S (S n)) prev
              (EvGet r :: EvSleep (d * a) :: attempts_from d r (S a) (S k)))
      with (wait_before (S n) (Some (d * a)) (attempts_from d r (S a) (S k))).
    rewrite IH by lia.
    rewrite (bool_decide_eq_false_2 (S (S n) = 1)) by lia.
    destruct (bool_decide (S n = 1)) eqn:Hn1.
    + apply bool_decide_eq_true in Hn1. do 2 f_equal; lia.
    + do 2 f_equal; lia.
Qed.

Lemma fetchWithRetry_n_contract env cfg r retries w :
  1 ≤ retries ->
  retry_contract env cfg r retries w
    (run env (fetchWithRetry_n cfg r retries) w).1
    (run env (fetchWithRetry_n cfg r retries) w).2.
Proof.
  intros Hpos. unfold fetchWithRetry_n.
  destruct (fetch_loop_run env cfg r retries retries 1 w)
    as (k & Hk & Htr & Hoth & Hfail & Hres & Hex); [lia | lia |].
  exists k. split; [lia |]. split; [done |]. split; [done |].
  split; [|split; [|split; [|split]]].
  - unfold wait_before_call. rewrite wait_before_attempts by lia. done.
  - intros n Hn. unfold wait_before_call. rewrite wait_before_attempts by lia.
    rewrite bool_decide_eq_false_2 by lia. do 2 f_equal; lia.
  - done.
  - done.
  - intros Hf. apply Hex. rewrite Hres in Hf.
    destruct (http env (calls w + (k - 1)) r); done.
Qed.

(** C5, as stated, fails on the delays and on the count. With
    [retryAttempts = 3] and [retryDelay = 2000], a request whose first two
    calls fail is called three times; nothing is waited before the first
    call, and the wait before the second call is [2000 = retryDelay * 1], not
    [retryDelay * 2]. A request that always fails is called three times in
    all, that is retried twice, and the third error is raised after waits of
    2000 and 4000: no wait of [retryDelay * 3] is ever made. *)
Lemma linear_backoff_counterexample :
  let cfg := default_config in
  let run2 := run (env_failing_first 2) (fetchWithRetry cfg some_request) empty_world in
  let run_all := run (env_failing_first 5) (fetchWithRetry cfg some_request) empty_world in
  run2.1 = Normal (Some some_response)
  ∧ trace run2.2
    = [EvGet some_request; EvSleep 2000; EvGet some_request; EvSleep 4000;
       EvGet some_request]
  ∧ wait_before_call 1 (trace run2.2) = None
  ∧ wait_before_call 2 (trace run2.2) = Some (retryDelay cfg * 1)
  ∧ wait_before_call 2 (trace run2.2) ≠ Some (retryDelay cfg * 2)
  ∧ run_all.1 = Throw network_error
  ∧ trace run_all.2
    = [EvGet some_request; EvSleep 2000; EvGet some_request; EvSleep 4000;
       EvGet some_request]
  ∧ calls run_all.2 = retryAttempts cfg.
Proof.
  vm_compute. repeat split. intros H. discriminate H.
Qed.

(** C5 (amended): [fetchWithRetry] with [retries >= 1] calls the request at
    most [retries] times in all (the first call and up to [retries - 1]
    retries); it sleeps [retryDelay * n] after failed call [n], so that the
    wait before call [n] is [retryDelay * (n - 1)] and nothing is waited
    before the first call; a request that fails its first [retries - 1] calls
    and succeeds on the next one yields that response; and when all
    [retries] calls fail, the error of the last call is raised. *)
Theorem fetchWithRetry_contract env cfg r retries w :
  1 ≤ retries ->
  retry_contract env cfg r retries w
    (run env (fetchWithRetry_n cfg r retries) w).1
    (run env (fetchWithRetry_n cfg r retries) w).2
  ∧ ((∀ n, n < retries - 1 -> is_normal (http env (calls w + n) r) = false) ->
     ∀ resp, http env (calls w + (retries - 1)) r = Normal resp ->
     (run env (fetchWithRetry_n cfg r retries) w).1 = Normal (Some resp))
  ∧ ((∀ n, n < retries -> is_normal (http env (calls w + n) r) = false) ->
     ∀ err, http env (calls w + (retries - 1)) r = Throw err ->
     (run env (fetchWithRetry_n cfg r retries) w).1 = Throw err
     ∧ calls (run env (fetchWithRetry_n cfg r retries) w).2 = calls w + retries).
Proof.
  intros Hpos.
  pose proof (fetchWithRetry_n_contract env cfg r retries w Hpos) as Hc.
  split; [exact Hc |].
  destruct Hc as (k & Hk & Htr & Hoth & _ & _ & Hfail & Hres & Hex).
  split.
  - intros Hfirst resp Hlast.
    assert (k = retries) as ->.
    { destruct (decide (k = retries)) as [|Hne]; [done |].
      apply Hex. rewrite Hres.
      specialize (Hfirst (k - 1)).
      destruct (http env (calls w + (k - 1)) r); [|done].
      simpl in Hfirst. assert (true = false) by (apply Hfirst; lia). done. }
    rewrite Hres, Hlast. done.
  - intros Hall err Hlast.
    assert (k = retries) as ->.
    { apply Hex. rewrite Hres.
      specialize (Hall (k - 1)).
      destruct (http env (calls w + (k - 1)) r); [|done].
      simpl in Hall. assert (true = false) by (apply Hall; lia). done. }
    rewrite Hres, Hlast. split; [done |].
    unfold calls. rewrite Htr, List.filter_app, length_app. f_equal.
    clear. generalize 1 as a. induction retries as [|n IH]; intros a; [done |].
    simpl. destruct n as [|n]; [done |]. simpl. f_equal.
    specialize (IH (S a)). simpl in IH. exact IH.
Qed.

Lemma fetchWithRetry_contract_witness :
  1 ≤ 3
  ∧ (run (env_failing_first 2) (fetchWithRetry_n default_config some_request 3) empty_world).1
    = Normal (Some some_response).
Proof.
  split; [lia |].
  apply (fetchWithRetry_contract (env_failing_first 2) default_config some_request 3 empty_world);
    [lia | | reflexivity].
  intros n Hn. destruct n as [|[|n]]; [reflexivity | reflexivity | simpl in Hn; lia].
Defined.

(* ===================================================================== *)
(** ** Download worker *)
(* ===================================================================== *)

Lemma leaves_bind {A B} (P : B -> Prop) (t : task A) (f : A -> task B) :
  (∀ a, leaves P (f a)) -> leaves P (bind t f).
Proof.
  intros Hf. induction t as [a | X e k IH | X e k IH]; simpl; auto.
Qed.

Lemma leaves_run {A} (P : A -> Prop) env (t : task A) w :
  leaves P t -> P (run env t w).1.
Proof.
  revert w. induction t as [a | X e k IH | X e k IH]; intros w Hl; simpl in *.
  - done.
  - destruct (do_sync env e w) as [x w']. apply IH, Hl.
  - destruct (do_async env e w) as [x w']. apply IH, Hl.
Qed.

Lemma leaves_advance {A} (P : A -> Prop) env (t : task A) w :
  leaves P t -> leaves P (advance env t w).1.
Proof.
  revert w. induction t as [a | X e k IH | X e k IH]; intros w Hl; simpl in *.
  - done.
  - destruct (do_sync env e w) as [x w']. apply IH, Hl.
  - done.
Qed.

Lemma leaves_resume {A} (P : A -> Prop) env (t t' : task A) w w' :
  leaves P t -> resume env t w = Some (t', w') -> leaves P t'.
Proof.
  destruct t as [a | X e k | X e k]; simpl; intros Hl Hr; try done.
  destruct (do_async env e w) as [x w1]. injection Hr as Hr.
  pose proof (leaves_advance P env (k x) w1 (Hl x)) as H.
  rewrite Hr in H. done.
Qed.

Lemma leaves_bind_strong {A B} (Q : A -> Prop) (P : B -> Prop) (t : task A) (f : A -> task B) :
  leaves Q t -> (∀ a, Q a -> leaves P (f a)) -> leaves P (bind t f).
Proof.
  intros Ht Hf. induction t as [a | X e k IH | X e k IH]; simpl in *; auto.
Qed.

Lemma leaves_bindE {A B} (P : completion B -> Prop) (t : prog A) (f : A -> prog B) :
  (∀ a, leaves P (f a)) -> (∀ e, P (Throw e)) -> leaves P (bindE t f).
Proof.
  intros Hf He. unfold bindE. apply leaves_bind. intros [a | e]; simpl; auto.
Qed.

Lemma leaves_impl {A} (P Q : A -> Prop) (t : task A) :
  (∀ a, P a -> Q a) -> leaves P t -> leaves Q t.
Proof.
  intros HPQ. induction t as [a | X e k IH | X e k IH]; simpl; auto.
Qed.

(** Every outcome the [try] block returns carries the ID of the item. *)
Lemma downloadWarrant_try_leaves dom cfg id :
  leaves (fun c => ∀ o, c = Normal o -> transID o = id) (downloadWarrant_try dom cfg id).
Proof.
  unfold downloadWarrant_try.
  apply leaves_bindE; [|done]. intros html. unfold download_terms.
  destruct (extractTermsURL dom html) as [info |].
  - apply leaves_bindE; [|done]. intros [resp |]; [|done].
    apply leaves_bindE; [|done]. intros _.
    apply leaves_bindE; [|done]. intros _.
    simpl. intros o Ho. injection Ho as <-. done.
  - apply leaves_bindE; [|done]. intros _.
    simpl. intros o Ho. injection Ho as <-. done.
Qed.

(** However the transport, the cache and the file system answer, a worker
    settles with an outcome for its item, never with an error. *)
Lemma downloadWarrant_leaves dom cfg id :
  leaves (outcome_for id) (downloadWarrant dom cfg id).
Proof.
  unfold downloadWarrant, try_catch.
  eapply leaves_bind_strong; [apply downloadWarrant_try_leaves |].
  intros [o | err] Ho; simpl.
  - exists o. split; [done | by apply Ho].
  - intros _. eexists. split; [reflexivity | done].
Qed.

(** C7: [downloadWarrant] returns exactly one outcome and never raises: for
    every item and every behaviour of the transport, the cache and the file
    system, the task settles with a [DownloadOutcome] for that item, run
    alone or among the other workers of a batch; and when a step of the [try]
    block raises, the outcome is a failure whose reason is the message of
    that error. *)
Theorem downloadWarrant_total dom cfg id :
  leaves (outcome_for id) (downloadWarrant dom cfg id)
  ∧ ∀ env w,
      outcome_for id (run env (downloadWarrant dom cfg id) w).1
      ∧ ∀ err, (run env (downloadWarrant_try dom cfg id) w).1 = Throw err ->
               (run env (downloadWarrant dom cfg id) w).1
               = Normal (NotDownloaded id (message err)).
Proof.
  split; [apply downloadWarrant_leaves |].
  intros env w. split; [apply leaves_run, downloadWarrant_leaves |].
  intros err Hraise. unfold downloadWarrant. rewrite run_try_catch.
  destruct (run env (downloadWarrant_try dom cfg id) w) as [[o | e] w'];
    simpl in Hraise; [done |].
  injection Hraise as ->. done.
Qed.

Example site_listing :
  (run site_env (extractTransIDs site_dom default_config) empty_world).1
  = Normal [js "123"; js "124"; js "125"].
Proof. vm_compute. reflexivity. Qed.

Example site_download_123 :
  (run site_env (downloadWarrant site_dom default_config (js "123")) empty_world).1
  = Normal (Downloaded (js "123") (js "ABC") (js "KGI") (js "ABC_Terms_123.pdf")
              (js "02/01/2026") 14).
Proof. vm_compute. reflexivity. Qed.

Example site_download_124 :
  (run site_env (downloadWarrant site_dom default_config (js "124")) empty_world).1
  = Normal (NotDownloaded (js "124") (js "Terms file not found")).
Proof. vm_compute. reflexivity. Qed.

Example match_window_open_ex :
  match_window_open (js "window.open('/FILEVIEW?id=5&amp;type=terms', '_blank')")
  = Some (js "/FILEVIEW?id=5&amp;type=terms").
Proof. reflexivity. Qed.

Example replace_amp_ex :
  replace_amp (js "/FILEVIEW?id=5&amp;type=terms&amp;x") = js "/FILEVIEW?id=5&type=terms&x".
Proof. reflexivity. Qed.

Example disposition_filename_quoted :
  disposition_filename
    (Some (js "attachment; filename=" ++ [34%N] ++ js "N-KGI_740646.pdf" ++ [34%N]))
  = Some (js "N-KGI_740646.pdf").
Proof. reflexivity. Qed.

Example disposition_filename_star :
  disposition_filename (Some (js "attachment; filename*=UTF-8''terms.pdf; x=1"))
  = Some (js "UTF-8terms.pdf").
Proof. reflexivity. Qed.

Example disposition_filename_missing :
  disposition_filename (Some (js "inline")) = None
  ∧ disposition_filename (Some []) = None
  ∧ disposition_filename None = None.
Proof. repeat split. Qed.

Lemma fetch_loop_some env cfg r retries remaining : ∀ attempt w resp,
  (run env (fetch_loop cfg r retries attempt remaining) w).1 = Normal (Some resp) ->
  ∃ n, http env n r = Normal resp.
Proof.
  induction remaining as [|remaining IH]; intros attempt w resp; [done |].
  rewrite fetch_loop_step.
  destruct (http env (calls w) r) as [resp' | err] eqn:Hget.
  - simpl. intros H. injection H as <-. eauto.
  - destruct (bool_decide (attempt = retries)); [done |]. apply IH.
Qed.

Lemma fetch_loop_downloads env cfg r retries remaining : ∀ attempt w,
  other_than_trace (run env (fetch_loop cfg r retries attempt remaining) w).2
  = other_than_trace w.
Proof.
  induction remaining as [|remaining IH]; intros attempt w; [done |].
  rewrite fetch_loop_step.
  destruct (http env (calls w) r) as [resp' | err]; [done |].
  destruct (bool_decide (attempt = retries)); [done |]. rewrite IH. done.
Qed.

Section WorkerFacts.
Variable env : Env.
Variable dom : Dom.
Variable cfg : Config.

(** A successful outcome comes from a terms row of the page and from a
    response to the request for the terms file; the file is written under
    the name [filename_for] derives. *)
Lemma downloadWarrant_success id w t sy iss fn fd sz :
  (run env (downloadWarrant dom cfg id) w).1 = Normal (Downloaded t sy iss fn fd sz) ->
  ∃ info resp n,
    http env n (Request (terms_url info) (Some (detailURL id)) true) = Normal resp
    ∧ t = id ∧ sy = terms_symbol info ∧ iss = terms_issuer info
    ∧ fn = filename_for info id resp
    ∧ sz = length (data resp)
    ∧ downloads (run env (downloadWarrant dom cfg id) w).2 !! fn = Some (data resp).
Proof.
  unfold downloadWarrant. rewrite run_try_catch.
  destruct (run env (downloadWarrant_try dom cfg id) w) as [[o | e] w'] eqn:Htry;
    [|done].
  simpl. intros Ho. injection Ho as ->.
  revert Htry. unfold downloadWarrant_try.
  rewrite run_bindE.
  destruct (run env (detail_html cfg id) w) as [[html | e1] w2]; [|done].
  unfold download_terms.
  destruct (extractTermsURL dom html) as [info |]; [|done].
  rewrite run_bindE.
  destruct (run env (fetchWithRetry cfg
              (Request (terms_url info) (Some (detailURL id)) true)) w2)
    as [[[resp |] | e2] w3] eqn:Hfetch; [|done|done].
  rewrite run_bindE. simpl.
  destruct (fs_fault env (fs_ops w3)) as [err |]; [done |].
  simpl. intros H. injection H as <- <- <- <- <- <- <-.
  assert ((run env (fetchWithRetry cfg
             (Request (terms_url info) (Some (detailURL id)) true)) w2).1
          = Normal (Some resp)) as Hsome by (by rewrite Hfetch).
  apply fetch_loop_some in Hsome as [n Hn].
  exists info, resp, n. repeat split; try done.
  simpl. apply lookup_insert_eq.
Qed.

End WorkerFacts.



(* ===================================================================== *)
(** ** Tasks that keep an invariant of the world *)
(* ===================================================================== *)

Section SafeFacts.
Variable env : Env.
Variable I : World -> Prop.

Lemma safe_impl {A} (P Q : A -> World -> Prop) (t : task A) : ∀ w,
  (∀ a w', P a w' -> Q a w') -> safe env I P t w -> safe env I Q t w.
Proof.
  induction t as [a | X e k IH | X e k IH]; intros w HPQ; simpl.
  - intros [HI HP]. auto.
  - apply IH, HPQ.
  - intros [HI Hk]. split; [done |]. intros w' Hw'. apply IH; auto.
Qed.

Lemma safe_bind {A B} (P : A -> World -> Prop) (Q : B -> World -> Prop)
    (t : task A) (f : A -> task B) : ∀ w,
  safe env I P t w ->
  (∀ a w', I w' -> P a w' -> safe env I Q (f a) w') ->
  safe env I Q (bind t f) w.
Proof.
  induction t as [a | X e k IH | X e k IH]; intros w Ht Hf; simpl in *.
  - destruct Ht. auto.
  - by apply IH.
  - destruct Ht as [HI Hk]. split; [done |]. intros w' Hw'. apply IH; auto.
Qed.

Lemma safe_bindE {A B} (P : A -> World -> Prop) (Q : completion B -> World -> Prop)
    (t : prog A) (f : A -> prog B) w :
  safe env I (fun c w' => match c with
                          | Normal a => P a w'
                          | Throw e => Q (Throw e) w'
                          end) t w ->
  (∀ a w', I w' -> P a w' -> safe env I Q (f a) w') ->
  safe env I Q (bindE t f) w.
Proof.
  intros Ht Hf. unfold bindE. eapply safe_bind; [exact Ht |].
  intros [a | e] w' Hw' Ha; simpl; [by apply Hf | done].
Qed.

Lemma safe_try_catch {A} (P Q : completion A -> World -> Prop)
    (t : prog A) (h : error -> prog A) w :
  safe env I P t w ->
  (∀ a w', P (Normal a) w' -> Q (Normal a) w') ->
  (∀ e w', I w' -> P (Throw e) w' -> safe env I Q (h e) w') ->
  safe env I Q (try_catch t h) w.
Proof.
  intros Ht Hn Hh. unfold try_catch. eapply safe_bind; [exact Ht |].
  intros [a | e] w' Hw' Ha; simpl; auto.
Qed.

(** A task that is safe where it is entered is safe where it is suspended
    or settled, and the invariant holds there. *)
Lemma safe_advance {A} (Q : A -> World -> Prop) (t : task A) : ∀ w,
  safe env I Q t w ->
  I (advance env t w).2 ∧ safe env I Q (advance env t w).1 (advance env t w).2.
Proof.
  induction t as [a | X e k IH | X e k IH]; intros w Ht; simpl in *.
  - by destruct Ht.
  - destruct (do_sync env e w) as [x w']. by apply IH.
  - by destruct Ht.
Qed.

Lemma safe_resume {A} (Q : A -> World -> Prop) (t t' : task A) w0 w w' :
  safe env I Q t w0 -> I w -> resume env t w = Some (t', w') ->
  I w' ∧ safe env I Q t' w'.
Proof.
  destruct t as [a | X e k | X e k]; simpl; intros Ht Hw Hr; try done.
  destruct Ht as [_ Hk]. specialize (Hk w Hw).
  destruct (do_async env e w) as [x w1]. injection Hr as Hr.
  pose proof (safe_advance Q (k x) w1 Hk) as H.
  rewrite Hr in H. done.
Qed.

Lemma safe_run {A} (Q : A -> World -> Prop) (t : task A) : ∀ w,
  safe env I Q t w -> I (run env t w).2 ∧ Q (run env t w).1 (run env t w).2.
Proof.
  induction t as [a | X e k IH | X e k IH]; intros w Ht; simpl in *.
  - done.
  - destruct (do_sync env e w) as [x w']. by apply IH.
  - destruct Ht as [HI Hk]. specialize (Hk w HI).
    destruct (do_async env e w) as [x w']. by apply IH.
Qed.

(** Where a task is suspended or settled does not matter to its safety,
    when the postcondition is on the value only. *)
Lemma safe_suspended {A} (Q : A -> Prop) (t : task A) w w' :
  (match t with Do _ _ => False | _ => True end) ->
  safe env I (fun a _ => Q a) t w -> I w' -> safe env I (fun a _ => Q a) t w'.
Proof.
  destruct t as [a | X e k | X e k]; simpl; try done.
  - intros _ [_ HQ] Hw'. done.
  - intros _ [_ Hk] Hw'. done.
Qed.

End SafeFacts.

Lemma advance_suspended env {A} (t : task A) : ∀ w,
  match (advance env t w).1 with Do _ _ => False | _ => True end.
Proof.
  induction t as [a | X e k IH | X e k IH]; intros w; simpl; try done.
  destruct (do_sync env e w) as [x w']. apply IH.
Qed.

Lemma resume_suspended env {A} (t t' : task A) w w' :
  resume env t w = Some (t', w') ->
  match t' with Do _ _ => False | _ => True end.
Proof.
  destruct t as [a | X e k | X e k]; simpl; try done.
  destruct (do_async env e w) as [x w1]. intros H. injection H as H.
  pose proof (advance_suspended env (k x) w1) as Hs. by rewrite H in Hs.
Qed.

Lemma leaves_safe env {A} (Q : A -> Prop) (t : task A) : ∀ w,
  leaves Q t -> safe env (fun _ => True) (fun a _ => Q a) t w.
Proof.
  induction t as [a | X e k IH | X e k IH]; intros w; simpl; auto.
Qed.

(** *** The footprint of a worker *)

Section FootprintFacts.
Variable Ps : ∀ X, sync X -> Prop.
Variable Pa : ∀ X, async X -> Prop.

Lemma footprint_bind {A B} (t : task A) (f : A -> task B) :
  footprint Ps Pa t -> (∀ a, footprint Ps Pa (f a)) -> footprint Ps Pa (bind t f).
Proof.
  intros Ht Hf. induction t as [a | X e k IH | X e k IH]; simpl in *; [auto | |].
  - destruct Ht as [He Hk]. split; [done |]. intros x. by apply IH.
  - destruct Ht as [He Hk]. split; [done |]. intros x. by apply IH.
Qed.

Lemma footprint_bindE {A B} (t : prog A) (f : A -> prog B) :
  footprint Ps Pa t -> (∀ a, footprint Ps Pa (f a)) -> footprint Ps Pa (bindE t f).
Proof.
  intros Ht Hf. unfold bindE. apply footprint_bind; [done |].
  intros [a | e]; simpl; auto.
Qed.

Lemma footprint_fetch_loop cfg r retries remaining : ∀ attempt,
  Pa _ (HttpGet r) -> (∀ ms, Pa _ (Sleep ms)) ->
  footprint Ps Pa (fetch_loop cfg r retries attempt remaining).
Proof.
  induction remaining as [|remaining IH]; intros attempt Hr Hs; simpl; [done |].
  split; [done |].
  intros [resp | err]; simpl; [done |].
  destruct (bool_decide (attempt = retries)); simpl; [done |].
  split; [done |]. intros _. by apply IH.
Qed.

Lemma footprint_advance env {A} (t : task A) w :
  footprint Ps Pa t -> footprint Ps Pa (advance env t w).1.
Proof.
  revert w. induction t as [a | X e k IH | X e k IH]; intros w Hl; simpl in *.
  - done.
  - destruct (do_sync env e w) as [x w']. apply IH, Hl.
  - done.
Qed.

Lemma footprint_resume env {A} (t t' : task A) w w' :
  footprint Ps Pa t -> resume env t w = Some (t', w') -> footprint Ps Pa t'.
Proof.
  destruct t as [a | X e k | X e k]; simpl; intros Hl Hr; try done.
  destruct (do_async env e w) as [x w1]. injection Hr as Hr.
  destruct Hl as [_ Hl].
  pose proof (footprint_advance env (k x) w1 (Hl x)) as H.
  rewrite Hr in H. done.
Qed.

(** An invariant that the effects of the footprint keep is kept by the
    task. *)
Lemma footprint_safe env {A} (I : World -> Prop) (t : task A) :
  (∀ X (e : sync X) w', Ps X e -> I w' -> I (do_sync env e w').2) ->
  (∀ X (e : async X) w', Pa X e -> I w' -> I (do_async env e w').2) ->
  ∀ w, footprint Ps Pa t -> I w ->
  safe env I (fun _ _ => True) t w.
Proof.
  intros Hs Ha.
  induction t as [a | X e k IH | X e k IH]; intros w Ht Hw; simpl in *; [done | |].
  - destruct Ht as [He Hk]. apply IH; [done |]. by apply Hs.
  - destruct Ht as [He Hk]. split; [done |]. intros w' Hw'. apply IH; [done |].
    by apply Ha.
Qed.

End FootprintFacts.

Ltac footprint_prim := simpl; repeat first [split | intro]; first [exact I | reflexivity | done].

Lemma footprint_cache_get Pa id :
  footprint (@worker_sync id) Pa (CacheManager.get (js "detail_" ++ id)).
Proof.
  unfold CacheManager.get, CacheManager.has.
  apply footprint_bindE; [footprint_prim |].
  intros [|]; [|footprint_prim].
  apply footprint_bindE; [footprint_prim |]. intros c. footprint_prim.
Qed.

Lemma request_for_detail cfg id : request_for cfg id (detail_request cfg id).
Proof. by left. Qed.

Lemma request_for_file cfg id u : request_for cfg id (Request u (Some (detailURL id)) true).
Proof. by right. Qed.

Lemma footprint_impl (Ps Ps' : ∀ X, sync X -> Prop) (Pa Pa' : ∀ X, async X -> Prop)
    {A} (t : task A) :
  (∀ X e, Ps X e -> Ps' X e) -> (∀ X e, Pa X e -> Pa' X e) ->
  footprint Ps Pa t -> footprint Ps' Pa' t.
Proof.
  intros Hs Ha. induction t as [a | X e k IH | X e k IH]; simpl; [done | |].
  - intros [He Hk]. split; [auto |]. intros x. by apply IH.
  - intros [He Hk]. split; [auto |]. intros x. by apply IH.
Qed.

Lemma footprint_downloadWarrant dom cfg id :
  footprint (@worker_sync id) (@worker_async cfg id) (downloadWarrant dom cfg id).
Proof.
  unfold downloadWarrant, try_catch. apply footprint_bind.
  - unfold downloadWarrant_try.
    apply footprint_bindE.
    + unfold detail_html.
      apply footprint_bindE; [apply footprint_cache_get |]. intros html0.
      destruct (truthy html0); [footprint_prim |].
      apply footprint_bindE; [footprint_prim |]. intros _.
      apply footprint_bindE.
      { apply footprint_fetch_loop; [apply request_for_detail | done]. }
      intros resp.
      apply footprint_bindE; [destruct resp; footprint_prim |]. intros html.
      apply footprint_bindE; [footprint_prim |]. intros _. footprint_prim.
    + intros html. unfold download_terms.
      destruct (extractTermsURL dom html) as [info |].
      * apply footprint_bindE.
        { apply footprint_fetch_loop; [apply request_for_file | done]. }
        intros [resp |]; [|footprint_prim].
        apply footprint_bindE; [footprint_prim |]. intros _.
        apply footprint_bindE; [footprint_prim |]. intros _. footprint_prim.
      * apply footprint_bindE; [footprint_prim |]. intros _. footprint_prim.
  - intros [o | err]; [footprint_prim |]. unfold downloadWarrant_catch.
    apply footprint_bindE; [footprint_prim |]. intros _. footprint_prim.
Qed.

Lemma worker_sync_progress env id {X} (e : sync X) w :
  worker_sync id e -> progress_file (do_sync env e w).2 = progress_file w.
Proof.
  destruct e; simpl; intros He; try done;
    repeat match goal with
           | |- context [match ?x with _ => _ end] => destruct x
           end; try done.
  by destruct d.
Qed.

Lemma do_async_progress env {X} (e : async X) w :
  progress_file (do_async env e w).2 = progress_file w.
Proof. destruct e; done. Qed.

(** A task with the footprint of a worker leaves the progress file alone. *)
Lemma footprint_keeps_progress env cfg id {A} (t : task A) :
  footprint (@worker_sync id) (@worker_async cfg id) t -> keeps_progress env t.
Proof.
  intros Ht w.
  apply (footprint_safe (@worker_sync id) (@worker_async cfg id)); try done.
  - intros X e w' He Hw'. by rewrite (worker_sync_progress env id e w' He).
  - intros X e w' He Hw'. by rewrite do_async_progress.
Qed.

(* ===================================================================== *)
(** ** Batch scheduler *)
(* ===================================================================== *)

Lemma run_save env data w :
  run env (save data) w
  = match fs_fault env (fs_ops w) with
    | Some err => (Throw err, tick_fs w)
    | None =>
        (Normal tt,
         tick_fs {| cache := cache w; downloads := downloads w;
                    progress_file := Some (Json (ProgressFile.ledger_to_json data));
                    bar := bar w; trace := trace w; fs_ops := fs_ops w |})
    end.
Proof. unfold save, do_. simpl. destruct (fs_fault env (fs_ops w)); done. Qed.

Lemma stored_ledger_save env data w w' :
  run env (save data) w = (Normal tt, w') -> stored_ledger w' = Some data.
Proof.
  rewrite run_save. destruct (fs_fault env (fs_ops w)); [done |].
  intros H. injection H as <-. unfold stored_ledger; simpl.
  apply json_to_ledger_to_json.
Qed.

Lemma progress_file_save_throw env data w w' e :
  run env (save data) w = (Throw e, w') -> progress_file w' = progress_file w.
Proof.
  rewrite run_save. destruct (fs_fault env (fs_ops w)); [|done].
  intros H. injection H as _ <-. done.
Qed.

Lemma marks_snoc data rs r : marks data (rs ++ [r]) = mark r (marks data rs).
Proof. unfold marks. by rewrite foldl_app. Qed.

Section SchedulerFacts.
Variable env : Env.
Variable dom : Dom.
Variable cfg : Config.
Variable transIDs : list jsstring.
Variable data0 : ledger.
Variable stored0 : option ledger.
Variable I : World -> Prop.
Variable Q : jsstring -> DownloadOutcome -> Prop.

Hypothesis I_save : ∀ w data, I w -> I (run env (save data) w).2.
Hypothesis workers_safe : ∀ id w,
  id ∈ transIDs -> I w ->
  safe env I (fun c _ => ∀ r, c = Normal r -> Q id r) (downloadWarrant dom cfg id) w.

Abbreviation worker_ok := (worker_ok env cfg I Q).
Abbreviation outcome_ok := (outcome_ok Q).
Abbreviation sched_inv := (sched_inv env cfg transIDs data0 stored0 I Q).

Lemma worker_ok_start id :
  id ∈ transIDs -> worker_ok id (downloadWarrant dom cfg id).
Proof.
  intros Hin. split; [intros w Hw; by apply workers_safe |].
  split; [apply downloadWarrant_leaves | apply footprint_downloadWarrant].
Qed.

Lemma worker_ok_advance id t w :
  worker_ok id t -> I w ->
  worker_ok id (advance env t w).1 ∧ I (advance env t w).2
  ∧ progress_file (advance env t w).2 = progress_file w.
Proof.
  intros (Hs & Hl & Hp) Hw.
  destruct (safe_advance env I _ t w (Hs w Hw)) as [HI Hs'].
  destruct (safe_advance env _ _ t w (footprint_keeps_progress env cfg id t Hp w))
    as [Hpf _].
  repeat split; try done.
  - intros w' Hw'. eapply safe_suspended; [apply advance_suspended | exact Hs' | done].
  - by apply leaves_advance.
  - by apply footprint_advance.
Qed.

Lemma worker_ok_resume id t t' w w' :
  worker_ok id t -> I w -> resume env t w = Some (t', w') ->
  worker_ok id t' ∧ I w' ∧ progress_file w' = progress_file w.
Proof.
  intros (Hs & Hl & Hp) Hw Hr.
  destruct (safe_resume env I _ t t' w w w' (Hs w Hw) Hw Hr) as [HI Hs'].
  destruct (safe_resume env _ _ t t' w w w'
              (footprint_keeps_progress env cfg id t Hp w) eq_refl Hr) as [Hpf _].
  repeat split; try done.
  - intros w'' Hw''. eapply safe_suspended; [by eapply resume_suspended | exact Hs' | done].
  - by eapply leaves_resume.
  - by eapply footprint_resume.
Qed.

Lemma launch_ok ids : ∀ ts w,
  Forall2 worker_ok ids ts -> I w ->
  Forall2 worker_ok ids (launch env ts w).1 ∧ I (launch env ts w).2
  ∧ progress_file (launch env ts w).2 = progress_file w.
Proof.
  induction ids as [|id ids IH]; intros ts w Hts Hw.
  - apply Forall2_nil_inv_l in Hts as ->. simpl. done.
  - apply Forall2_cons_inv_l in Hts as (t & ts' & Ht & Hts' & ->).
    simpl.
    destruct (worker_ok_advance id t w Ht Hw) as (Ht' & HI & Hpf).
    destruct (advance env t w) as [t' w1]. simpl in *.
    destruct (IH ts' w1 Hts' HI) as (Hpool & HI' & Hpf').
    destruct (launch env ts' w1) as [pool w2]. simpl in *.
    split; [by constructor |]. split; [done | congruence].
Qed.

Lemma rejection_none ids pool :
  Forall2 worker_ok ids pool -> rejection pool = None.
Proof.
  induction 1 as [|id t ids pool (_ & Hl & _) _ IH]; [done |].
  destruct t as [[o | e] | |]; simpl in *; try done.
  destruct Hl as (o & Ho & _). done.
Qed.

Lemma fulfilled_ok ids pool rs w :
  I w -> Forall2 worker_ok ids pool -> fulfilled pool = Some rs ->
  Forall2 outcome_ok ids rs.
Proof.
  intros Hw H. revert rs. induction H as [|id t ids pool (Hs & Hl & _) _ IH]; intros rs.
  - simpl. intros H. injection H as <-. constructor.
  - destruct t as [[o | e] | |]; simpl in *; try done.
    destruct (fulfilled pool) as [rs' |]; [|done]. simpl.
    intros H. injection H as <-. constructor; [|by apply IH].
    destruct Hl as (o' & Ho & Hid). injection Ho as <-.
    split; [done |]. by apply (Hs w Hw).
Qed.

Lemma batch_at_subset i id : id ∈ batch_at cfg transIDs i -> id ∈ transIDs.
Proof.
  unfold batch_at. intros H.
  by apply subseteq_take, subseteq_drop in H.
Qed.

Lemma batch_workers_ok i :
  Forall2 worker_ok (batch_at cfg transIDs i)
    (downloadWarrant dom cfg <$> batch_at cfg transIDs i).
Proof.
  apply Forall2_fmap_r, Forall_Forall2_diag, Forall_forall.
  intros id Hin. apply worker_ok_start. by eapply batch_at_subset.
Qed.

Lemma stored_ledger_frame w w' :
  progress_file w' = progress_file w -> stored_ledger w' = stored_ledger w.
Proof. unfold stored_ledger. by intros ->. Qed.

(** Every step of the event loop keeps the invariant. *)
Lemma sched_step_inv j s s' :
  sched_inv s -> sched_step env dom cfg transIDs j s = Some s' -> sched_inv s'.
Proof.
  intros (HI & Hst & Hres & Hph). unfold sched_step.
  destruct (at_phase s) as [i | i pool | i rest | | e] eqn:Hphase.
  - (* at the loop test *)
    destruct Hph as (Htr & Hmul & Hlen).
    case_bool_decide as Hi.
    + destruct (launch_ok _ _ (world s) (batch_workers_ok i) HI) as (Hpool & HI' & Hpf).
      destruct (launch env _ (world s)) as [pool w']. simpl in *.
      intros H. injection H as <-. unfold sched_inv; simpl.
      rewrite (stored_ledger_frame _ _ Hpf).
      repeat split; try done. lia.
    + intros H. injection H as <-. unfold sched_inv; simpl.
      repeat split; try done. lia.
  - (* awaiting the batch *)
    destruct Hph as (Htr & Hmul & Hi & Hlen & Hpool).
    rewrite (rejection_none _ _ Hpool).
    destruct (fulfilled pool) as [rs |] eqn:Hful.
    + intros H. injection H as <-. unfold sched_inv; simpl.
      repeat split; try done; try lia.
      * rewrite <- (Forall2_length _ _ _ (fulfilled_ok _ _ _ _ HI Hpool Hful)).
        unfold batch_at. rewrite length_take, length_drop. lia.
      * rewrite Hlen, <- take_drop_commute. by eapply fulfilled_ok.
    + destruct (pool !! j) as [t |] eqn:Hj; [|done]. simpl.
      destruct (resume env t (world s)) as [[t' w'] |] eqn:Hr; [|done]. simpl.
      intros H. injection H as <-. unfold sched_inv; simpl.
      destruct (Forall2_lookup_r _ _ _ _ _ Hpool Hj) as (id & Hid & Hok).
      destruct (worker_ok_resume id t t' (world s) w' Hok HI Hr) as (Hok' & HI' & Hpf).
      rewrite (stored_ledger_frame _ _ Hpf).
      repeat split; try done.
      rewrite <- (list_insert_id _ _ _ Hid). by apply Forall2_insert.
  - (* recording the results *)
    destruct Hph as (Htr & Hmul & Hi & Hle & Hlen & Hrest).
    destruct rest as [|r rest].
    + intros H. injection H as <-. unfold sched_inv; simpl.
      repeat split; try done.
      * destruct Hmul as [n ->]. exists (S n). simpl. lia.
      * simpl in Hlen. lia.
    + apply Forall2_cons_inv_r in Hrest as (id & ids' & [Hid HQ] & Hrest & Hdrop).
      assert (transIDs !! length (results s) = Some id) as Hlook.
      { assert (drop (length (results s))
                  (take (i + concurrentDownloads cfg) transIDs) !! 0 = Some id) as H0
          by (by rewrite Hdrop).
        rewrite lookup_drop, Nat.add_0_r in H0.
        apply lookup_take_Some in H0 as [H0 _]. done. }
      destruct (run env (save (mark r (tracker s))) (world s)) as [[[] | e] w'] eqn:Hsave.
      * intros H. injection H as <-. unfold sched_inv; simpl.
        pose proof (I_save (world s) (mark r (tracker s)) HI) as HI'.
        rewrite Hsave in HI'. simpl in HI'.
        rewrite (stored_ledger_save _ _ _ _ Hsave), marks_snoc, length_app, <- Htr.
        simpl length.
        repeat split; try done; try lia.
        -- rewrite Nat.add_1_r, (take_S_r _ _ _ Hlook).
           apply Forall2_app; [done |]. by repeat constructor.
        -- simpl in Hlen. lia.
        -- rewrite Nat.add_1_r.
           assert (drop (S (length (results s)))
                     (take (i + concurrentDownloads cfg) transIDs) = ids') as ->; [|done].
           replace (S (length (results s))) with (length (results s) + 1) by lia.
           rewrite <- drop_drop, Hdrop. done.
      * intros H. injection H as <-. unfold sched_inv; simpl.
        pose proof (I_save (world s) (mark r (tracker s)) HI) as HI'.
        rewrite Hsave in HI'. simpl in HI'.
        rewrite (stored_ledger_frame _ _ (progress_file_save_throw _ _ _ _ _ Hsave)).
        repeat split; done.
  - done.
  - done.
Qed.

Lemma sched_init_inv w :
  I (start_bar w) -> stored_ledger w = stored0 -> sched_inv (sched_init data0 w).
Proof.
  intros HI Hst. unfold sched_inv, sched_init; simpl.
  split; [done |]. split; [intros <-; done |]. split; [constructor |].
  split; [done |]. split; [by exists 0 | done].
Qed.

(** The invariant holds in every state [processDownloads] reaches. *)
Lemma reachable_inv w s :
  I (start_bar w) -> stored_ledger w = stored0 ->
  reachable env dom cfg transIDs data0 w s -> sched_inv s.
Proof.
  intros HI Hst Hreach. unfold reachable in Hreach.
  apply rtc_ind_r with (x := sched_init data0 w) (P := sched_inv) in Hreach;
    [done | by apply sched_init_inv |].
  intros s1 s2 _ [j Hstep] Hinv. by eapply sched_step_inv.
Qed.

End SchedulerFacts.

Lemma exec_reachable env dom cfg transIDs choices : ∀ s,
  rtc (sched_next env dom cfg transIDs) s (exec env dom cfg transIDs choices s).
Proof.
  induction choices as [|j choices IH]; intros s; simpl; [done |].
  destruct (sched_step env dom cfg transIDs j s) as [s' |] eqn:Hstep; simpl; [|apply IH].
  eapply rtc_l; [by exists j | apply IH].
Qed.

Lemma site_state_reachable choices :
  reachable site_env site_dom default_config site_ids site_data site_entry
    (site_state choices).
Proof. apply exec_reachable. Qed.

Example site_prologue :
  (main_prologue site_env site_dom default_config empty_world).1
  = inr (site_data, site_ids)
  ∧ stored_ledger site_entry = Some site_data.
Proof. vm_compute. done. Qed.

Lemma fulfilled_all_settled {A} (pool : list (prog A)) rs :
  fulfilled pool = Some rs -> List.filter (fun t => negb (settled t)) pool = [].
Proof.
  revert rs. induction pool as [|t pool IH]; intros rs; [done |].
  destruct t as [[a | e] | |]; simpl; try done.
  destruct (fulfilled pool) as [rs' |]; [|done]. intros _. by eapply IH.
Qed.

Lemma filter_length_le {A} (p : A -> bool) (l : list A) :
  length (List.filter p l) ≤ length l.
Proof. induction l as [|x l IH]; simpl; [done |]. destruct (p x); simpl; lia. Qed.

Lemma batch_at_length cfg transIDs i :
  length (batch_at cfg transIDs i) ≤ concurrentDownloads cfg.
Proof. unfold batch_at. rewrite length_take. lia. Qed.

(** Every ID of the sequence is in exactly the batch its position gives. *)
Lemma batch_at_partition cfg (transIDs : list jsstring) p id :
  1 ≤ concurrentDownloads cfg ->
  transIDs !! p = Some id ->
  batch_at cfg transIDs (p / concurrentDownloads cfg * concurrentDownloads cfg)
    !! (p mod concurrentDownloads cfg) = Some id.
Proof.
  intros Hc Hp. unfold batch_at.
  rewrite lookup_take_lt by (apply Nat.mod_upper_bound; lia).
  rewrite lookup_drop, <- Hp. f_equal.
  rewrite (Nat.div_mod_eq p (concurrentDownloads cfg)) at 3. lia.
Qed.

Section ConcurrencyBound.
Variable env : Env.
Variable dom : Dom.
Variable cfg : Config.
Variable transIDs : list jsstring.

Lemma reachable_shape data w s :
  reachable env dom cfg transIDs data w s ->
  sched_inv env cfg transIDs data (stored_ledger w) (fun _ => True) (fun _ _ => True) s.
Proof.
  apply reachable_inv; try done.
  intros id w' _ _. apply leaves_safe.
  eapply leaves_impl; [|apply downloadWarrant_leaves]. done.
Qed.

Lemma concurrency_bound_aux data w s :
  reachable env dom cfg transIDs data w s ->
  length (in_flight s) ≤ concurrentDownloads cfg
  ∧ length (requests_in_flight s) ≤ concurrentDownloads cfg
  ∧ (∀ i pool, at_phase s = AwaitAll i pool ->
       (∃ n, i = n * concurrentDownloads cfg)
       ∧ Forall2 (fun id t => leaves (outcome_for id) t) (batch_at cfg transIDs i) pool)
  ∧ (∀ s', sched_next env dom cfg transIDs s s' -> in_flight s ≠ [] ->
       ∃ i pool j t', at_phase s = AwaitAll i pool
                      ∧ at_phase s' = AwaitAll i (<[j := t']> pool)).
Proof.
  intros Hreach. apply reachable_shape in Hreach as (_ & _ & _ & Hph).
  unfold in_flight, requests_in_flight.
  destruct (at_phase s) as [i | i pool | i rest | | e] eqn:Hphase;
    try (split; [simpl; lia |]; split; [simpl; lia |];
         split; [intros ? ? H; discriminate H | intros ? _ H; done]).
  destruct Hph as (_ & Hmul & _ & _ & Hpool).
  pose proof (Forall2_length _ _ _ Hpool) as Hlen.
  pose proof (batch_at_length cfg transIDs i) as Hb.
  split; [etrans; [apply filter_length_le | lia] |].
  split; [etrans; [apply filter_length_le | lia] |].
  split.
  - intros i' pool' H. injection H as <- <-. split; [done |].
    eapply Forall2_impl; [exact Hpool |].
    intros id t Hok. destruct Hok as (_ & Hl & _). exact Hl.
  - intros s' [j Hstep] Hfl. unfold sched_step in Hstep. rewrite Hphase in Hstep.
    rewrite (rejection_none env cfg (fun _ => True) (fun _ _ => True) _ _ Hpool) in Hstep.
    destruct (fulfilled pool) as [rs |] eqn:Hful.
    { apply fulfilled_all_settled in Hful. done. }
    destruct (pool !! j) as [t |]; [|done]. simpl in Hstep.
    destruct (resume env t (world s)) as [[t' w'] |]; [|done]. simpl in Hstep.
    injection Hstep as <-. by exists i, pool, j, t'.
Qed.

End ConcurrencyBound.



Lemma marks_lists data rs :
  completed (marks data rs) = completed data ++ List.filter success rs
  ∧ failed (marks data rs) = failed data ++ List.filter (fun r => negb (success r)) rs.
Proof.
  revert data. induction rs as [|r rs IH]; intros data; simpl.
  - by rewrite !app_nil_r.
  - destruct (IH (mark r data)) as [Hc Hf]. unfold marks in *. simpl.
    rewrite Hc, Hf. unfold mark. destruct (success r) eqn:Hs; simpl.
    + by rewrite <- app_assoc.
    + by rewrite <- app_assoc.
Qed.

Lemma elem_of_marks data rs r :
  r ∈ rs -> r ∈ completed (marks data rs) ++ failed (marks data rs).
Proof.
  intros Hin. destruct (marks_lists data rs) as [-> ->].
  rewrite !elem_of_app.
  destruct (success r) eqn:Hs.
  - left. right. apply list_elem_of_In, filter_In. split; [by apply list_elem_of_In | done].
  - right. right. apply list_elem_of_In, filter_In.
    split; [by apply list_elem_of_In | by rewrite Hs].
Qed.




(* ===================================================================== *)
(** ** The cache of detail pages *)
(* ===================================================================== *)

Lemma do_sync_trace env {X} (e : sync X) w : trace (do_sync env e w).2 = trace w.
Proof.
  destruct e; simpl; try done;
    repeat match goal with
           | |- context [match ?x with _ => _ end] => destruct x
           end; try done.
  by destruct d.
Qed.

(** The events a task adds to the trace are those it awaits. *)
Lemma footprint_trace Ps Pa env {A} (t : task A) : ∀ w,
  footprint Ps Pa t ->
  ∃ evs, trace (run env t w).2 = trace w ++ evs
         ∧ Forall (fun ev => match ev with
                             | EvGet r => Pa _ (HttpGet r)
                             | EvSleep ms => Pa _ (Sleep ms)
                             end) evs.
Proof.
  induction t as [a | X e k IH | X e k IH]; intros w Ht; simpl in *.
  - exists []. by rewrite app_nil_r.
  - destruct Ht as [He Hk].
    destruct (do_sync env e w) as [x w'] eqn:Hdo.
    destruct (IH x w' (Hk x)) as (evs & Htr & Hall).
    exists evs. split; [|done]. rewrite Htr.
    pose proof (do_sync_trace env e w) as H. rewrite Hdo in H. simpl in H. by rewrite H.
  - destruct Ht as [He Hk]. destruct e as [r | ms]; simpl.
    + destruct (IH (http env (calls w) r) (log (EvGet r) w) (Hk _)) as (evs & Htr & Hall).
      exists (EvGet r :: evs). split; [|by constructor].
      rewrite Htr. simpl. by rewrite <- app_assoc.
    + destruct (IH tt (log (EvSleep ms) w) (Hk _)) as (evs & Htr & Hall).
      exists (EvSleep ms :: evs). split; [|by constructor].
      rewrite Htr. simpl. by rewrite <- app_assoc.
Qed.

Lemma run_cache_get env key w :
  run env (CacheManager.get key) w
  = match cache w !! CacheManager.getCachePath key with
    | None => (Normal None, w)
    | Some c =>
        match fs_fault env (fs_ops w) with
        | Some e => (Throw e, tick_fs w)
        | None => (Normal (Some c), tick_fs w)
        end
    end.
Proof.
  unfold CacheManager.get, CacheManager.has. simpl.
  destruct (cache w !! CacheManager.getCachePath key) as [c |] eqn:Hc; simpl; [|done].
  destruct (fs_fault env (fs_ops w)); [done |]. by rewrite Hc.
Qed.

Lemma run_cache_set env key content w :
  run env (CacheManager.set key content) w
  = match fs_fault env (fs_ops w) with
    | Some e => (Throw e, tick_fs w)
    | None =>
        (Normal tt,
         tick_fs (set_files CacheDir
                    (<[CacheManager.getCachePath key := content]> (cache w)) w))
    end.
Proof.
  unfold CacheManager.set, do_. simpl. destruct (fs_fault env (fs_ops w)); done.
Qed.

Lemma footprint_download_terms dom cfg id html :
  footprint (@terms_sync) (@terms_async id)
    (try_catch (download_terms dom cfg id html) (downloadWarrant_catch id)).
Proof.
  unfold try_catch. apply footprint_bind.
  - unfold download_terms.
    destruct (extractTermsURL dom html) as [info |].
    + apply footprint_bindE.
      { apply footprint_fetch_loop; done. }
      intros [resp |]; [|footprint_prim].
      apply footprint_bindE; [footprint_prim |]. intros _.
      apply footprint_bindE; [footprint_prim |]. intros _. footprint_prim.
    + apply footprint_bindE; [footprint_prim |]. intros _. footprint_prim.
  - intros [o | err]; [footprint_prim |]. unfold downloadWarrant_catch.
    apply footprint_bindE; [footprint_prim |]. intros _. footprint_prim.
Qed.

Lemma terms_sync_cache env {X} (e : sync X) w :
  terms_sync e -> cache (do_sync env e w).2 = cache w.
Proof.
  destruct e; simpl; intros He; try done;
    repeat match goal with
           | |- context [match ?x with _ => _ end] => destruct x
           end; try done.
  by destruct d.
Qed.

Lemma do_async_cache env {X} (e : async X) w :
  cache (do_async env e w).2 = cache w.
Proof. destruct e; done. Qed.

Lemma download_terms_cache env dom cfg id html w :
  cache (run env (try_catch (download_terms dom cfg id html) (downloadWarrant_catch id)) w).2
  = cache w.
Proof.
  pose proof (footprint_safe (@terms_sync) (@terms_async id) env
                (fun w' => cache w' = cache w) _
                (fun X e w' He Hw' => eq_trans (terms_sync_cache env e w' He) Hw')
                (fun X e w' He Hw' => eq_trans (do_async_cache env e w') Hw')
                w (footprint_download_terms dom cfg id html) eq_refl) as Hsafe.
  by apply safe_run in Hsafe as [H _].
Qed.

Section DetailCache.
Variable env : Env.
Variable dom : Dom.
Variable cfg : Config.
Hypothesis no_fault : ∀ n, fs_fault env n = None.

Lemma run_downloadWarrant id w :
  run env (downloadWarrant dom cfg id) w
  = match run env (detail_html cfg id) w with
    | (Normal html, w') =>
        run env (try_catch (download_terms dom cfg id html) (downloadWarrant_catch id)) w'
    | (Throw e, w') => run env (downloadWarrant_catch id e) w'
    end.
Proof.
  unfold downloadWarrant, downloadWarrant_try.
  rewrite !run_try_catch, run_bindE.
  destruct (run env (detail_html cfg id) w) as [[html | e] w']; [|done].
  by rewrite run_try_catch.
Qed.

(** A page that is in the cache and not empty is not fetched. *)
Lemma run_detail_html_hit id html w :
  cache w !! detail_path id = Some html -> html ≠ [] ->
  run env (detail_html cfg id) w = (Normal html, tick_fs w).
Proof.
  intros Hc Hne. unfold detail_html. rewrite run_bindE, run_cache_get.
  fold (detail_path id). rewrite Hc, no_fault.
  destruct html as [|c html]; [done |]. done.
Qed.

(** A page that is not in the cache is fetched after the pacing delay and,
    when the fetch succeeds, written to the cache. *)
Lemma run_detail_html_miss id resp w :
  cache w !! detail_path id = None ->
  (run env (fetchWithRetry cfg (detail_request cfg id))
     (log (EvSleep (requestDelay cfg)) w)).1 = Normal (Some resp) ->
  (run env (detail_html cfg id) w).1 = Normal (data resp)
  ∧ cache (run env (detail_html cfg id) w).2 = <[detail_path id := data resp]> (cache w).
Proof.
  intros Hc Hfetch. unfold detail_html. rewrite run_bindE, run_cache_get.
  fold (detail_path id). rewrite Hc. simpl truthy. cbv iota.
  step_bindE. rewrite run_await_sleep.
  step_bindE. fold (detail_request cfg id).
  pose proof (fetch_loop_downloads env cfg (detail_request cfg id) (retryAttempts cfg)
                (retryAttempts cfg) 1 (log (EvSleep (requestDelay cfg)) w)) as Hoth.
  fold (fetchWithRetry_n cfg (detail_request cfg id) (retryAttempts cfg)) in Hoth.
  fold (fetchWithRetry cfg (detail_request cfg id)) in Hoth.
  destruct (run env (fetchWithRetry cfg (detail_request cfg id))
              (log (EvSleep (requestDelay cfg)) w)) as [res w1].
  simpl in Hfetch. subst res.
  step_bindE. simpl response_data. rewrite run_ret.
  step_bindE. rewrite run_cache_set, no_fault. fold (detail_path id). rewrite run_ret.
  simpl.
  split; [done |].
  unfold other_than_trace in Hoth. simpl in Hoth. injection Hoth as -> _ _ _ _. done.
Qed.

End DetailCache.


Section DetailCacheClaim.
Variable env : Env.
Variable dom : Dom.
Variable cfg : Config.
Hypothesis no_fault : ∀ n, fs_fault env n = None.

Lemma detail_page_cached_aux id resp w :
  cache w !! detail_path id = None ->
  (run env (fetchWithRetry cfg (detail_request cfg id))
     (log (EvSleep (requestDelay cfg)) w)).1 = Normal (Some resp) ->
  cache (run env (downloadWarrant dom cfg id) w).2 !! detail_path id = Some (data resp)
  ∧ (extractTermsURL dom (data resp) = None ->
     (run env (downloadWarrant dom cfg id) w).1
     = Normal (NotDownloaded id (js "Terms file not found"))).
Proof.
  intros Hc Hfetch.
  destruct (run_detail_html_miss env cfg no_fault id resp w Hc Hfetch) as [Hres Hcache].
  rewrite run_downloadWarrant by done.
  destruct (run env (detail_html cfg id) w) as [res w1]. simpl in Hres, Hcache.
  subst res. split.
  - rewrite download_terms_cache, Hcache. apply lookup_insert_eq.
  - intros Hnone. rewrite run_try_catch. unfold download_terms. rewrite Hnone. done.
Qed.

Lemma later_run_aux id html w2 :
  cache w2 !! detail_path id = Some html -> html ≠ [] ->
  run env (downloadWarrant dom cfg id) w2
  = run env (try_catch (download_terms dom cfg id html) (downloadWarrant_catch id))
      (tick_fs w2)
  ∧ (∃ evs, trace (run env (downloadWarrant dom cfg id) w2).2 = trace w2 ++ evs
            ∧ ∀ r, EvGet r ∈ evs ->
                   referer r = Some (detailURL id) ∧ arraybuffer r = true
                   ∧ r ≠ detail_request cfg id)
  ∧ (extractTermsURL dom html = None ->
     (run env (downloadWarrant dom cfg id) w2).1
     = Normal (NotDownloaded id (js "Terms file not found"))
     ∧ trace (run env (downloadWarrant dom cfg id) w2).2 = trace w2).
Proof.
  intros Hc Hne.
  assert (run env (downloadWarrant dom cfg id) w2
          = run env (try_catch (download_terms dom cfg id html) (downloadWarrant_catch id))
              (tick_fs w2)) as Heq.
  { rewrite run_downloadWarrant by done.
    by rewrite (run_detail_html_hit env cfg no_fault id html w2 Hc Hne). }
  split; [done |]. rewrite Heq. split.
  - destruct (footprint_trace (@terms_sync) (@terms_async id) env _ (tick_fs w2)
                (footprint_download_terms dom cfg id html)) as (evs & Htr & Hall).
    exists evs. split; [done |].
    intros r Hr. rewrite Forall_forall in Hall. specialize (Hall _ Hr).
    simpl in Hall. destruct Hall as [Href Hab]. repeat split; try done.
    intros ->. done.
  - intros Hnone. rewrite run_try_catch. unfold download_terms. rewrite Hnone. done.
Qed.

End DetailCacheClaim.



(* ===================================================================== *)
(** ** Workers on a steady server *)
(* ===================================================================== *)

Lemma safe_and env (I1 I2 : World -> Prop) {A} (Q1 Q2 : A -> World -> Prop) (t : task A) :
  ∀ w, safe env I1 Q1 t w -> safe env I2 Q2 t w ->
       safe env (fun w' => I1 w' ∧ I2 w') (fun a w' => Q1 a w' ∧ Q2 a w') t w.
Proof.
  induction t as [a | X e k IH | X e k IH]; intros w; simpl.
  - intros [? ?] [? ?]. done.
  - apply IH.
  - intros [H1 K1] [H2 K2]. split; [done |].
    intros w' [Hw1 Hw2]. apply IH; auto.
Qed.

Section SteadyFetch.
Variable env : Env.
Variable cfg : Config.
Variable I : World -> Prop.
Variable r : request.
Hypothesis env_steady : steady env.
Hypothesis I_get : ∀ w, I w -> I (log (EvGet r) w).
Hypothesis I_sleep : ∀ ms w, I w -> I (log (EvSleep ms) w).

Lemma safe_fetch_loop retries remaining : ∀ attempt w,
  attempt + remaining = S retries ->
  1 ≤ remaining ->
  I w ->
  safe env I
    (fun c _ => c = match http env 0 r with
                    | Normal resp => Normal (Some resp)
                    | Throw e => Throw e
                    end)
    (fetch_loop cfg r retries attempt remaining) w.
Proof.
  induction remaining as [|remaining IH]; intros attempt w Hsum Hpos Hw; [lia |].
  simpl. split; [done |]. intros w' Hw'.
  rewrite (env_steady (calls w') 0 r).
  destruct (http env 0 r) as [resp | err]; simpl.
  - split; [by apply I_get | done].
  - case_bool_decide as Hlast; simpl.
    + split; [by apply I_get | done].
    + split; [by apply I_get |]. intros w'' Hw''.
      apply IH; [lia | lia | by apply I_sleep].
Qed.

(** On a steady server [fetchWithRetry] returns the answer to the request. *)
Lemma safe_fetch w :
  I w -> safe env I (fun c _ => c = fetched env cfg r) (fetchWithRetry cfg r) w.
Proof.
  intros Hw. unfold fetchWithRetry, fetchWithRetry_n, fetched.
  destruct (retryAttempts cfg) as [|n] eqn:Hn.
  - simpl. done.
  - apply safe_fetch_loop; [lia | lia | done].
Qed.

End SteadyFetch.

Section SteadyWorker.
Variable env : Env.
Variable dom : Dom.
Variable cfg : Config.
Variable id : jsstring.
Variable o : DownloadOutcome.
Variable I : World -> Prop.
Hypothesis env_steady : steady env.
Hypothesis env_no_faults : no_faults env.
Hypothesis I_ext : ∀ w w',
  cache w' = cache w -> downloads w' = downloads w -> trace w' = trace w ->
  I w -> I w'.
Hypothesis I_get : ∀ r w, request_for cfg id r -> I w -> I (log (EvGet r) w).
Hypothesis I_sleep : ∀ ms w, I w -> I (log (EvSleep ms) w).
Hypothesis I_outcome : ∀ w, I w -> outcome_of env dom cfg id (cache w !! detail_path id) = o.
Hypothesis I_cache_write : ∀ w html,
  I w -> outcome_of env dom cfg id (Some html) = o ->
  I (set_files CacheDir (<[detail_path id := html]> (cache w)) w).
Hypothesis I_download_write : ∀ w name content,
  success o = true -> I w ->
  I (set_files DownloadDir (<[name := content]> (downloads w)) w).

Lemma I_tick w : I w -> I (tick_fs w).
Proof. by apply I_ext. Qed.

Lemma I_bar w : I w -> I (do_sync env BarIncrement w).2.
Proof. by apply I_ext. Qed.

(** Writing the fetched page to the cache does not change the outcome. *)
Lemma outcome_of_fetched entry resp :
  truthy entry = false ->
  fetched env cfg (detail_request cfg id) = Normal (Some resp) ->
  outcome_of env dom cfg id (Some (data resp)) = outcome_of env dom cfg id entry.
Proof.
  intros Hfalsy Hf. unfold outcome_of, body_of. rewrite Hfalsy, Hf.
  destruct (data resp) as [|c html] eqn:Hd; simpl truthy; cbv iota.
  - by rewrite ?Hf, ?Hd.
  - done.
Qed.

Lemma safe_detail_html w :
  I w ->
  safe env I
    (fun c _ => match c with
                | Normal html => caught id (terms_outcome env dom cfg id html) = o
                | Throw e => NotDownloaded id (message e) = o
                end)
    (detail_html cfg id) w.
Proof.
  intros Hw. unfold detail_html, CacheManager.get, CacheManager.has.
  fold (detail_path id). simpl.
  destruct (cache w !! detail_path id) as [c |] eqn:Hc; simpl.
  - (* the file exists and is read *)
    rewrite env_no_faults, Hc. simpl.
    pose proof (I_outcome w Hw) as Hout. rewrite Hc in Hout.
    destruct c as [|c0 c]; simpl.
    + (* an empty file: the page is fetched *)
      split; [by apply I_tick |]. intros w1 Hw1.
      eapply safe_bind.
      { apply safe_fetch; [done | | | by apply I_sleep].
        - intros w'. apply I_get. by left.
        - apply I_sleep. }
      intros res w2 Hw2 ->. simpl.
      pose proof Hout as Hout'.
      unfold outcome_of, body_of in Hout'. simpl truthy in Hout'. cbv iota in Hout'.
      fold (detail_request cfg id).
      destruct (fetched env cfg (detail_request cfg id)) as [[resp |] | e] eqn:Hf;
        simpl; rewrite ?env_no_faults; simpl.
      * split; [|done]. apply I_tick. apply I_cache_write; [done |].
        rewrite <- Hout. by apply (outcome_of_fetched (Some [])).
      * done.
      * done.
    + split; [by apply I_tick | done].
  - (* no file: the page is fetched *)
    pose proof (I_outcome w Hw) as Hout. rewrite Hc in Hout.
    split; [done |]. intros w1 Hw1.
    eapply safe_bind.
    { apply safe_fetch; [done | | | by apply I_sleep].
      - intros w'. apply I_get. by left.
      - apply I_sleep. }
    intros res w2 Hw2 ->. simpl.
    pose proof Hout as Hout'.
    unfold outcome_of, body_of in Hout'. simpl truthy in Hout'. cbv iota in Hout'.
    fold (detail_request cfg id).
    destruct (fetched env cfg (detail_request cfg id)) as [[resp |] | e] eqn:Hf;
      simpl; rewrite ?env_no_faults; simpl.
    * split; [|done]. apply I_tick. apply I_cache_write; [done |].
      rewrite <- Hout. by apply (outcome_of_fetched None).
    * done.
    * done.
Qed.

Lemma safe_download_terms html w :
  I w ->
  caught id (terms_outcome env dom cfg id html) = o ->
  safe env I (fun c _ => caught id c = o) (download_terms dom cfg id html) w.
Proof.
  intros Hw Hout. unfold download_terms. unfold terms_outcome in Hout.
  destruct (extractTermsURL dom html) as [info |].
  - eapply safe_bind.
    { apply safe_fetch; [done | | | done].
      - intros w'. apply I_get. by right.
      - apply I_sleep. }
    intros res w1 Hw1 ->.
    destruct (fetched env cfg (Request (terms_url info) (Some (detailURL id)) true))
      as [[resp |] | e]; simpl; rewrite ?env_no_faults; simpl.
    + split; [|done].
      apply (I_ext (set_files DownloadDir
                      (<[filename_for info id resp := data resp]> (downloads w1)) w1));
        [done | done | done |].
      apply I_download_write; [|done]. by rewrite <- Hout.
    + done.
    + done.
  - simpl. split; [by apply I_bar | done].
Qed.

(** On a steady server the worker of [id] keeps the invariant and returns
    the outcome the cache determines. *)
Lemma safe_downloadWarrant w :
  I w -> safe env I (fun c _ => c = Normal o) (downloadWarrant dom cfg id) w.
Proof.
  intros Hw. unfold downloadWarrant, downloadWarrant_try.
  eapply safe_try_catch with (P := fun c _ => caught id c = o).
  - eapply safe_bindE.
    + apply safe_detail_html. done.
    + intros html w1 Hw1 Hout. simpl in Hout. by apply safe_download_terms.
  - intros a w' Ha. simpl in Ha. by rewrite Ha.
  - intros e w' Hw' He. simpl in He. unfold downloadWarrant_catch. simpl.
    split; [by apply I_bar | by rewrite He].
Qed.

End SteadyWorker.

(* ===================================================================== *)
(** ** Item IDs, cache paths and requests *)
(* ===================================================================== *)

Lemma span_fst_forallb p s : forallb p (span p s).1 = true.
Proof.
  induction s as [|c s IH]; simpl; [done |].
  destruct (p c) eqn:Hp; [|done].
  destruct (span p s) as [a b]. simpl in *. by rewrite Hp, IH.
Qed.

(** The IDs of a listing are non-empty strings of digits. *)
Lemma match_TransID_valid s id : match_TransID s = Some id -> valid_id id.
Proof.
  induction s as [|c s IH].
  - simpl. destruct (span is_digit (drop 8 [])).1 as [|d ds] eqn:Hd; [done |].
    rewrite drop_nil in Hd. done.
  - intros H.
    change (match_TransID (c :: s)) with
      (match (if startsWith (js "TransID=") (c :: s)
              then match (span is_digit (drop 8 (c :: s))).1 with
                   | [] => None
                   | ds => Some ds
                   end
              else None) with
       | Some ds => Some ds
       | None => match_TransID s
       end) in H.
    destruct (startsWith (js "TransID=") (c :: s)); [|by apply IH].
    pose proof (span_fst_forallb is_digit (drop 8 (c :: s))) as Hall.
    destruct (span is_digit (drop 8 (c :: s))).1 as [|d ds] eqn:Hd; [by apply IH |].
    injection H as <-. split; done.
Qed.

Lemma parse_listing_valid dom html : Forall valid_id (parse_listing dom html).
Proof.
  unfold parse_listing.
  assert (∀ rows acc, Forall valid_id acc -> Forall valid_id (foldl listing_row acc rows))
    as H.
  { induction rows as [|r rows IH]; intros acc Hacc; simpl; [done |].
    apply IH. unfold listing_row.
    destruct (truthy (last_link_href r)); [|done].
    destruct (match_TransID (default [] (last_link_href r))) as [id |] eqn:Hm; [|done].
    apply Forall_app. split; [done |].
    apply Forall_singleton. by eapply match_TransID_valid. }
  by apply H.
Qed.

Lemma sanitize_digits id : forallb is_digit id = true -> sanitize id = id.
Proof.
  unfold sanitize. induction id as [|c id IH]; simpl; [done |].
  intros H. apply andb_true_iff in H as [Hc Hid].
  unfold is_alnum. rewrite Hc. simpl. f_equal. by apply IH.
Qed.

Lemma detail_path_valid id :
  valid_id id -> detail_path id = js "detail_" ++ id ++ js ".html".
Proof.
  intros [_ Hd]. unfold detail_path, CacheManager.getCachePath, sanitize.
  rewrite fmap_app. fold (sanitize id). rewrite (sanitize_digits id Hd).
  by rewrite <- app_assoc.
Qed.

Lemma detail_path_inj id id' :
  valid_id id -> valid_id id' -> detail_path id = detail_path id' -> id = id'.
Proof.
  intros Hv Hv'. rewrite !detail_path_valid by done.
  intros H. apply app_inv_head in H.
  assert (length id = length id') as Hlen.
  { apply (f_equal length) in H. rewrite !length_app in H. lia. }
  by apply app_inj_1 in H as [? _].
Qed.

Lemma listing_path_not_detail cfg id : listing_path cfg ≠ detail_path id.
Proof.
  unfold listing_path, detail_path, CacheManager.getCachePath, sanitize.
  rewrite !fmap_app. intros H. simpl in H. discriminate H.
Qed.

Lemma detailURL_inj id id' : detailURL id = detailURL id' -> id = id'.
Proof. unfold detailURL. intros H. by do 2 apply app_inv_head in H. Qed.

Lemma request_for_inj cfg id id' r :
  request_for cfg id r -> request_for cfg id' r -> id = id'.
Proof.
  intros [-> | [Hr Ha]] [H | [Hr' Ha']].
  - apply detailURL_inj. apply (f_equal url) in H. exact H.
  - simpl in Ha'. discriminate Ha'.
  - subst r. simpl in Ha. discriminate Ha.
  - apply detailURL_inj. congruence.
Qed.

Lemma request_for_listing cfg id : ¬ request_for cfg id (listing_request cfg).
Proof. intros [H | [H _]]; discriminate H. Qed.

(* ===================================================================== *)
(** ** The scheduler on a steady server *)
(* ===================================================================== *)

Section SteadyScheduler.
Variable env : Env.
Variable dom : Dom.
Variable cfg : Config.
Variable transIDs : list jsstring.
Variable o : jsstring -> DownloadOutcome.
Variable F : World -> Prop.
Hypothesis env_steady : steady env.
Hypothesis env_no_faults : no_faults env.
Hypothesis ids_valid : Forall valid_id transIDs.
Hypothesis F_ext : ∀ w w',
  cache w' = cache w -> downloads w' = downloads w -> trace w' = trace w ->
  F w -> F w'.
Hypothesis F_cache : ∀ id html w,
  id ∈ transIDs -> F w ->
  F (set_files CacheDir (<[detail_path id := html]> (cache w)) w).
Hypothesis F_get : ∀ id r w,
  id ∈ transIDs -> request_for cfg id r -> F w -> F (log (EvGet r) w).
Hypothesis F_sleep : ∀ ms w, F w -> F (log (EvSleep ms) w).
Hypothesis F_download : ∀ id w name content,
  id ∈ transIDs -> success (o id) = true -> F w ->
  F (set_files DownloadDir (<[name := content]> (downloads w)) w).

Abbreviation steady_inv := (steady_inv env dom cfg o F).

Lemma outcomes_kept_ext w w' :
  cache w' = cache w -> outcomes_kept env dom cfg o w -> outcomes_kept env dom cfg o w'.
Proof. intros Hc H id Hv. unfold prediction. rewrite Hc. by apply H. Qed.

Lemma steady_worker id w :
  id ∈ transIDs -> steady_inv w ->
  safe env steady_inv (fun c _ => ∀ r, c = Normal r -> r = o id)
    (downloadWarrant dom cfg id) w.
Proof.
  intros Hin Hw.
  assert (valid_id id) as Hv by (by eapply Forall_forall in ids_valid).
  eapply safe_impl; [|apply (safe_downloadWarrant env dom cfg id (o id) steady_inv)];
    try done.
  - intros c _ -> r Hr. by injection Hr as <-.
  - intros w1 w2 Hc Hd Ht [HJ HF].
    split; [by apply (outcomes_kept_ext w1) | by apply (F_ext w1)].
  - intros r w1 Hr [HJ HF].
    split; [by apply (outcomes_kept_ext w1) | by eapply F_get].
  - intros ms w1 [HJ HF]. split; [by apply (outcomes_kept_ext w1) | by apply F_sleep].
  - intros w1 [HJ _]. by apply HJ.
  - intros w1 html [HJ HF] Hout. split.
    + intros id' Hv'. unfold prediction. simpl.
      destruct (decide (id' = id)) as [-> | Hne].
      * by rewrite lookup_insert_eq.
      * rewrite lookup_insert_ne; [by apply HJ |].
        intros Hp. apply Hne. symmetry. by apply detail_path_inj.
    + by apply F_cache.
  - intros w1 name content Hs [HJ HF].
    split; [by apply (outcomes_kept_ext w1) | by eapply F_download].
Qed.

Lemma steady_inv_save w data : steady_inv w -> steady_inv (run env (save data) w).2.
Proof.
  intros [HJ HF]. rewrite run_save, env_no_faults. simpl.
  split; [by apply (outcomes_kept_ext w) | by apply (F_ext w)].
Qed.

(** Every state [processDownloads] reaches satisfies the invariant of the
    scheduler with the outcomes [o]. *)
Lemma steady_reachable data0 w s :
  steady_inv (start_bar w) ->
  reachable env dom cfg transIDs data0 w s ->
  sched_inv env cfg transIDs data0 (stored_ledger w) steady_inv
    (fun id r => r = o id) s.
Proof.
  intros Hw Hreach.
  eapply reachable_inv; try done.
  - apply steady_inv_save.
  - intros id w' Hin Hw'. by apply steady_worker.
Qed.

(** Without failing file operations [processDownloads] does not raise. *)
Lemma steady_not_rejected data0 w s e :
  steady_inv (start_bar w) ->
  reachable env dom cfg transIDs data0 w s ->
  at_phase s ≠ Rejected e.
Proof.
  intros Hw Hreach. unfold reachable in Hreach.
  revert s Hreach.
  apply (rtc_ind_r (R := sched_next env dom cfg transIDs)
           (fun s => at_phase s ≠ Rejected e) (sched_init data0 w)); [done |].
  intros s2 s3 Hr2 [j Hrest] _.
  pose proof (steady_reachable data0 w s2 Hw Hr2) as (_ & _ & _ & Hph).
  unfold sched_step in Hrest.
  destruct (at_phase s2) as [i | i pool | i rest | | e'] eqn:Hphase.
  - case_bool_decide; [|by injection Hrest as <-].
    destruct (launch env _ (world s2)) as [pool w']. by injection Hrest as <-.
  - destruct Hph as (_ & _ & _ & _ & Hpool).
    rewrite (rejection_none env cfg steady_inv (fun id r => r = o id) _ _ Hpool) in Hrest.
    destruct (fulfilled pool); [by injection Hrest as <- |].
    destruct (pool !! j) as [t |]; [|done]. simpl in Hrest.
    destruct (resume env t (world s2)) as [[t' w'] |]; [|done]. by injection Hrest as <-.
  - destruct rest as [|r rest]; [by injection Hrest as <- |].
    rewrite run_save, env_no_faults in Hrest. by injection Hrest as <-.
  - done.
  - done.
Qed.

(** When [processDownloads] returns, the results are the outcomes [o] of the
    IDs, in order, the ledger on disk holds their marks, and the invariant
    holds. *)
Lemma steady_returned data0 w s :
  steady_inv (start_bar w) ->
  stored_ledger w = Some data0 ->
  reachable env dom cfg transIDs data0 w s ->
  at_phase s = Returned ->
  results s = o <$> transIDs
  ∧ stored_ledger (world s) = Some (marks data0 (o <$> transIDs))
  ∧ steady_inv (world s).
Proof.
  intros Hw Hst Hreach Hphase.
  pose proof (steady_reachable data0 w s Hw Hreach) as (HI & Hstored & Hres & Hph).
  rewrite Hphase in Hph. destruct Hph as [_ Hlen].
  assert (results s = o <$> transIDs) as Hresults.
  { rewrite Hlen, firstn_all in Hres. clear -Hres.
    induction Hres as [|id r ids rs [_ ->] _ IH]; simpl; [done |]. by rewrite IH. }
  split; [done |]. split; [|done]. rewrite <- Hresults. by apply Hstored.
Qed.

End SteadyScheduler.

(* ===================================================================== *)
(** ** The prologue of [main] on a steady server *)
(* ===================================================================== *)

Section SteadyPrologue.
Variable env : Env.
Variable dom : Dom.
Variable cfg : Config.
Hypothesis env_steady : steady env.
Hypothesis env_no_faults : no_faults env.

Lemma run_fetch_steady r w :
  (run env (fetchWithRetry cfg r) w).1 = fetched env cfg r
  ∧ other_than_trace (run env (fetchWithRetry cfg r) w).2 = other_than_trace w
  ∧ ∃ evs, trace (run env (fetchWithRetry cfg r) w).2 = trace w ++ evs
           ∧ ∀ r', EvGet r' ∈ evs -> r' = r.
Proof.
  split; [|split].
  - pose proof (safe_fetch env cfg (fun _ => True) r env_steady
                  (fun _ _ => Logic.I) (fun _ _ _ => Logic.I) w Logic.I) as Hs.
    by apply safe_run in Hs as [_ Hs].
  - apply fetch_loop_downloads.
  - destruct (footprint_trace (fun _ _ => True)
                (fun X (e : async X) =>
                   match e with HttpGet r' => r' = r | Sleep _ => True end)
                env (fetchWithRetry cfg r) w) as (evs & Htr & Hall).
    { apply footprint_fetch_loop; done. }
    exists evs. split; [done |]. intros r' Hr'.
    rewrite Forall_forall in Hall. by apply (Hall _ Hr').
Qed.

Lemma run_ProgressTracker_new w :
  (run env ProgressTracker_new w).1 = loaded w
  ∧ cache (run env ProgressTracker_new w).2 = cache w
  ∧ downloads (run env ProgressTracker_new w).2 = downloads w
  ∧ progress_file (run env ProgressTracker_new w).2 = progress_file w
  ∧ trace (run env ProgressTracker_new w).2 = trace w.
Proof.
  unfold ProgressTracker_new, loaded. simpl.
  destruct (progress_file w) as [c |] eqn:Hpf; simpl; [|done].
  rewrite env_no_faults, Hpf. done.
Qed.

Lemma listing_result_fetched entry resp :
  truthy entry = false ->
  fetched env cfg (listing_request cfg) = Normal (Some resp) ->
  listing_result env dom cfg (Some (data resp)) = listing_result env dom cfg entry.
Proof.
  intros Hfalsy Hf. unfold listing_result, body_of. rewrite Hfalsy, Hf.
  destruct (data resp) as [|c html] eqn:Hd; simpl truthy; cbv iota.
  - by rewrite ?Hf, ?Hd.
  - done.
Qed.

Lemma run_extractTransIDs w :
  let entry := cache w !! listing_path cfg in
  let w' := (run env (extractTransIDs dom cfg) w).2 in
  (run env (extractTransIDs dom cfg) w).1 = listing_result env dom cfg entry
  ∧ downloads w' = downloads w
  ∧ progress_file w' = progress_file w
  ∧ (∀ p, p ≠ listing_path cfg -> cache w' !! p = cache w !! p)
  ∧ listing_result env dom cfg (cache w' !! listing_path cfg)
    = listing_result env dom cfg entry
  ∧ (is_normal (run env (extractTransIDs dom cfg) w).1 = true ->
     is_Some (cache w' !! listing_path cfg))
  ∧ ∃ evs, trace w' = trace w ++ evs
           ∧ ∀ r, EvGet r ∈ evs -> r = listing_request cfg ∧ truthy entry = false.
Proof.
  intros entry w'. subst entry w'.
  unfold extractTransIDs. rewrite run_try_catch. step_bindE.
  rewrite run_cache_get. fold (listing_path cfg).
  assert (∀ w0, cache w0 = cache w -> downloads w0 = downloads w ->
                progress_file w0 = progress_file w -> trace w0 = trace w ->
                truthy (cache w !! listing_path cfg) = false ->
    let res := run env
      (try_catch
         (bindE
            (bindE (fetchWithRetry cfg (Request (getListUrl cfg) None false))
               (fun resp => bindE (response_data resp)
                  (fun html => bindE (CacheManager.set
                     (js "listing_" ++ dateFrom cfg ++ js "_" ++ dateTo cfg) html)
                     (fun _ => ret html))))
            (fun html => ret (parse_listing dom html)))
         (fun err => throw (Error (js "Failed to fetch listings: " ++ message err)))) w0 in
    res.1 = listing_result env dom cfg (cache w !! listing_path cfg)
    ∧ downloads res.2 = downloads w
    ∧ progress_file res.2 = progress_file w
    ∧ (∀ p, p ≠ listing_path cfg -> cache res.2 !! p = cache w !! p)
    ∧ listing_result env dom cfg (cache res.2 !! listing_path cfg)
      = listing_result env dom cfg (cache w !! listing_path cfg)
    ∧ (is_normal res.1 = true -> is_Some (cache res.2 !! listing_path cfg))
    ∧ ∃ evs, trace res.2 = trace w ++ evs
             ∧ ∀ r, EvGet r ∈ evs ->
                    r = listing_request cfg ∧ truthy (cache w !! listing_path cfg) = false)
    as Hmiss.
  { intros w0 Hc0 Hd0 Hp0 Ht0 Hfalsy res. subst res.
    rewrite run_try_catch. step_bindE. step_bindE.
    fold (listing_request cfg).
    destruct (run_fetch_steady (listing_request cfg) w0) as (Hres & Hoth & evs & Htr & Hevs).
    destruct (run env (fetchWithRetry cfg (listing_request cfg)) w0) as [res w1].
    simpl in Hres, Hoth, Htr. subst res.
    unfold other_than_trace in Hoth. injection Hoth as Hc1 Hd1 Hp1 _ _.
    unfold listing_result at 1, body_of. rewrite Hfalsy.
    destruct (fetched env cfg (listing_request cfg)) as [[resp |] | e] eqn:Hf.
    - simpl. rewrite env_no_faults. simpl. fold (listing_path cfg).
      split; [done |]. split; [congruence |]. split; [congruence |].
      split; [intros p Hp; rewrite lookup_insert_ne by done; congruence |].
      split.
      { rewrite lookup_insert_eq. by apply listing_result_fetched. }
      split; [intros _; rewrite lookup_insert_eq; by eexists |].
      exists evs. split; [congruence |]. intros r Hr. split; [by apply Hevs | done].
    - simpl.
      split; [done |]. split; [congruence |]. split; [congruence |].
      split; [intros p Hp; congruence |]. split; [by rewrite Hc1, Hc0 |].
      split; [done |].
      exists evs. split; [congruence |]. intros r Hr. split; [by apply Hevs | done].
    - simpl.
      split; [done |]. split; [congruence |]. split; [congruence |].
      split; [intros p Hp; congruence |]. split; [by rewrite Hc1, Hc0 |].
      split; [done |].
      exists evs. split; [congruence |]. intros r Hr. split; [by apply Hevs | done]. }
  destruct (cache w !! listing_path cfg) as [c |] eqn:Hc.
  - rewrite env_no_faults.
    destruct c as [|c0 c].
    + (* an empty file *)
      simpl truthy. cbv iota.
      specialize (Hmiss (tick_fs w) eq_refl eq_refl eq_refl eq_refl eq_refl).
      rewrite run_try_catch in Hmiss. exact Hmiss.
    + simpl. unfold listing_result, body_of. simpl. rewrite Hc. simpl.
      repeat split; try done.
      exists []. split; [by rewrite app_nil_r |]. intros r Hr. by apply elem_of_nil in Hr.
  - simpl truthy. cbv iota.
    specialize (Hmiss w eq_refl eq_refl eq_refl eq_refl eq_refl).
    rewrite run_try_catch in Hmiss. exact Hmiss.
Qed.

(** The prologue of [main]: how it ends and what it leaves, from the cache
    file of the listing and the progress file. *)
Lemma main_prologue_steady w :
  let entry := cache w !! listing_path cfg in
  let res := main_prologue env dom cfg w in
  downloads res.2 = downloads w
  ∧ (∀ p, p ≠ listing_path cfg -> cache res.2 !! p = cache w !! p)
  ∧ listing_result env dom cfg (cache res.2 !! listing_path cfg)
    = listing_result env dom cfg entry
  ∧ (is_normal (listing_result env dom cfg entry) = true ->
     is_Some (cache res.2 !! listing_path cfg))
  ∧ (∃ evs, trace res.2 = trace w ++ evs
       ∧ ∀ r, EvGet r ∈ evs -> r = listing_request cfg ∧ truthy entry = false)
  ∧ match listing_result env dom cfg entry with
    | Throw e => res.1 = inl (Fatal e) ∧ progress_file res.2 = progress_file w
    | Normal ids =>
        if bool_decide (length ids = 0)
        then res.1 = inl NoWarrants ∧ progress_file res.2 = progress_file w
        else
          match ProgressFile.json_to_ledger (loaded w) with
          | None => res.1 = inl IllShapedLedger ∧ progress_file res.2 = progress_file w
          | Some data0 =>
              let data := ProgressTracker.setPending ids data0 in
              stored_ledger res.2 = Some data
              ∧ res.1 = (if bool_decide (length (ProgressTracker.getPending data) = 0)
                         then inl AllDownloaded
                         else inr (data, ProgressTracker.getPending data))
          end
    end.
Proof.
  intros entry res. subst entry res. unfold main_prologue.
  destruct (run_ProgressTracker_new w) as (Hld & Hc1 & Hd1 & Hp1 & Ht1).
  destruct (run env ProgressTracker_new w) as [ld w1]. simpl in Hld, Hc1, Hd1, Hp1, Ht1.
  subst ld.
  destruct (run_extractTransIDs w1)
    as (Hres & Hd2 & Hp2 & Hc2 & Hl2 & Hs2 & evs & Ht2 & Hevs).
  rewrite Hc1 in Hres, Hc2, Hl2, Hevs.
  destruct (run env (extractTransIDs dom cfg) w1) as [r w2].
  simpl in Hres, Hd2, Hp2, Hc2, Hl2, Hs2, Ht2. subst r.
  assert (∃ evs0, trace w2 = trace w ++ evs0
            ∧ ∀ r, EvGet r ∈ evs0 ->
                   r = listing_request cfg ∧ truthy (cache w !! listing_path cfg) = false)
    as Htrace.
  { exists evs. split; [congruence | done]. }
  destruct (listing_result env dom cfg (cache w !! listing_path cfg)) as [ids | e].
  - case_bool_decide.
    + simpl. repeat split; try done; congruence.
    + destruct (ProgressFile.json_to_ledger (loaded w)) as [data0 |].
      * cbv zeta.
        destruct (run env (save (ProgressTracker.setPending ids data0)) w2)
          as [r3 w3] eqn:Hrun.
        assert (r3 = Normal tt ∧ cache w3 = cache w2 ∧ downloads w3 = downloads w2
                ∧ trace w3 = trace w2) as (-> & Hc3 & Hd3 & Ht3).
        { rewrite run_save, env_no_faults in Hrun. by injection Hrun as <- <-. }
        pose proof (stored_ledger_save _ _ _ _ Hrun) as Hst.
        destruct Htrace as (evs0 & Htr0 & Hevs0).
        assert (∃ evs1, trace w3 = trace w ++ evs1
                  ∧ ∀ r, EvGet r ∈ evs1 ->
                         r = listing_request cfg
                         ∧ truthy (cache w !! listing_path cfg) = false) as Htrace.
        { exists evs0. split; [congruence | done]. }
        case_bool_decide; simpl; (split; [congruence |]);
          (split; [by intros p Hp; rewrite Hc3; apply Hc2 |]);
          (split; [by rewrite Hc3 |]); (split; [by rewrite Hc3 |]);
          (split; [done |]); done.
      * simpl. repeat split; try done; congruence.
  - simpl. repeat split; try done; congruence.
Qed.

End SteadyPrologue.

(** The ledger [load] gives is the one the progress file holds. *)
Lemma loaded_stored w data :
  stored_ledger w = Some data -> ProgressFile.json_to_ledger (loaded w) = Some data.
Proof.
  unfold stored_ledger, loaded. destruct (progress_file w) as [[| j] |]; try done.
Qed.

Lemma loaded_completed w data :
  ProgressFile.json_to_ledger (loaded w) = Some data -> completed_of w = completed data.
Proof.
  unfold completed_of, stored_ledger, loaded.
  destruct (progress_file w) as [[| j] |]; simpl.
  - intros H. by injection H as <-.
  - by intros ->.
  - intros H. by injection H as <-.
Qed.

Lemma completed_of_ext w w' :
  progress_file w' = progress_file w -> completed_of w' = completed_of w.
Proof. unfold completed_of, stored_ledger. by intros ->. Qed.

Lemma loaded_ext w w' : progress_file w' = progress_file w -> loaded w' = loaded w.
Proof. unfold loaded. by intros ->. Qed.

Section Rerun.
Variable env : Env.
Variable dom : Dom.
Variable cfg : Config.
Hypothesis env_steady : steady env.
Hypothesis env_no_faults : no_faults env.

Lemma transID_outcome_of id entry : transID (outcome_of env dom cfg id entry) = id.
Proof.
  unfold outcome_of, caught, terms_outcome.
  destruct (body_of env cfg (detail_request cfg id) entry) as [html | e]; [|done].
  destruct (extractTermsURL dom html) as [info |]; [|done].
  by destruct (fetched env cfg _) as [[resp |] | e].
Qed.

Lemma listing_result_valid entry ids :
  listing_result env dom cfg entry = Normal ids -> Forall valid_id ids.
Proof.
  unfold listing_result.
  destruct (body_of env cfg (listing_request cfg) entry) as [html | e]; [|done].
  intros H. injection H as <-. apply parse_listing_valid.
Qed.

(** The frame of the prologue. *)
Lemma main_prologue_frame w r w' :
  main_prologue env dom cfg w = (r, w') ->
  downloads w' = downloads w
  ∧ (∀ p, p ≠ listing_path cfg -> cache w' !! p = cache w !! p)
  ∧ listing_result env dom cfg (cache w' !! listing_path cfg)
    = listing_result env dom cfg (cache w !! listing_path cfg)
  ∧ (is_normal (listing_result env dom cfg (cache w !! listing_path cfg)) = true ->
     is_Some (cache w' !! listing_path cfg))
  ∧ ∃ evs, trace w' = trace w ++ evs
       ∧ ∀ r, EvGet r ∈ evs ->
              r = listing_request cfg ∧ truthy (cache w !! listing_path cfg) = false.
Proof.
  intros Hpro.
  pose proof (main_prologue_steady env dom cfg env_steady env_no_faults w) as H.
  cbv zeta in H. rewrite Hpro in H. simpl in H. tauto.
Qed.

(** The prologue hands over to [processDownloads]. *)
Lemma main_prologue_inr w data pend wp :
  main_prologue env dom cfg w = (inr (data, pend), wp) ->
  ∃ ids data0,
    listing_result env dom cfg (cache w !! listing_path cfg) = Normal ids
    ∧ ids ≠ []
    ∧ ProgressFile.json_to_ledger (loaded w) = Some data0
    ∧ data = ProgressTracker.setPending ids data0
    ∧ pend = ProgressTracker.getPending data
    ∧ stored_ledger wp = Some data.
Proof.
  intros Hpro.
  pose proof (main_prologue_steady env dom cfg env_steady env_no_faults w) as H.
  cbv zeta in H. rewrite Hpro in H. simpl in H.
  destruct H as (_ & _ & _ & _ & _ & H).
  destruct (listing_result env dom cfg (cache w !! listing_path cfg)) as [ids | e];
    [|by destruct H].
  case_bool_decide as Hlen; [by destruct H |].
  destruct (ProgressFile.json_to_ledger (loaded w)) as [data0 |]; [|by destruct H].
  destruct H as [Hst H]. case_bool_decide; [done |].
  injection H as -> ->. exists ids, data0.
  split; [done |]. split; [by intros -> | done].
Qed.

(** The prologue ends the run. *)
Lemma main_prologue_inl w st w' :
  main_prologue env dom cfg w = (inl st, w') ->
  st ≠ IllShapedLedger ->
  (progress_file w' = progress_file w
   ∧ ∀ ids, listing_result env dom cfg (cache w !! listing_path cfg) = Normal ids ->
            ids = [])
  ∨ ∃ ids data0,
      listing_result env dom cfg (cache w !! listing_path cfg) = Normal ids
      ∧ ProgressFile.json_to_ledger (loaded w) = Some data0
      ∧ stored_ledger w' = Some (ProgressTracker.setPending ids data0)
      ∧ ProgressTracker.getPending (ProgressTracker.setPending ids data0) = [].
Proof.
  intros Hpro Hst.
  pose proof (main_prologue_steady env dom cfg env_steady env_no_faults w) as H.
  cbv zeta in H. rewrite Hpro in H. simpl in H.
  destruct H as (_ & _ & _ & _ & _ & H).
  destruct (listing_result env dom cfg (cache w !! listing_path cfg)) as [ids | e].
  - case_bool_decide as Hlen.
    + left. split; [by destruct H |]. intros ids' Hids. injection Hids as <-.
      by destruct ids.
    + destruct (ProgressFile.json_to_ledger (loaded w)) as [data0 |].
      * right. destruct H as [Hstored H]. exists ids, data0.
        case_bool_decide as Hp; [|done].
        repeat split; try done.
        by apply nil_length_inv.
      * destruct H as [H _]. by injection H as ->.
  - left. split; [by destruct H | done].
Qed.

Lemma main_prologue_ill_shaped w w' :
  main_prologue env dom cfg w = (inl IllShapedLedger, w') ->
  ∃ ids, listing_result env dom cfg (cache w !! listing_path cfg) = Normal ids
         ∧ ids ≠ []
         ∧ ProgressFile.json_to_ledger (loaded w) = None.
Proof.
  intros Hpro.
  pose proof (main_prologue_steady env dom cfg env_steady env_no_faults w) as H.
  cbv zeta in H. rewrite Hpro in H. simpl in H.
  destruct H as (_ & _ & _ & _ & _ & H).
  destruct (listing_result env dom cfg (cache w !! listing_path cfg)) as [ids | e];
    [|by destruct H].
  case_bool_decide as Hlen; [by destruct H |].
  destruct (ProgressFile.json_to_ledger (loaded w)) as [data0 |].
  - destruct H as [_ H]. by case_bool_decide.
  - exists ids. split; [done |]. split; [|done]. by intros ->.
Qed.

Lemma main_prologue_throw w r w' e :
  main_prologue env dom cfg w = (r, w') ->
  listing_result env dom cfg (cache w !! listing_path cfg) = Throw e ->
  r = inl (Fatal e).
Proof.
  intros Hpro Hthrow.
  pose proof (main_prologue_steady env dom cfg env_steady env_no_faults w) as H.
  cbv zeta in H. rewrite Hpro, Hthrow in H. simpl in H. tauto.
Qed.

(** The workers keep their outcomes when the cache changes at the file of
    the listing only. *)
Lemma outcomes_kept_frame o w w' :
  (∀ p, p ≠ listing_path cfg -> cache w' !! p = cache w !! p) ->
  outcomes_kept env dom cfg o w -> outcomes_kept env dom cfg o w'.
Proof.
  intros Hc H id Hv. unfold prediction.
  rewrite Hc; [by apply H |]. intros Heq. by apply (listing_path_not_detail cfg id).
Qed.

(** Without failing file operations [processDownloads] does not raise in a
    run of [main]. *)
Lemma main_not_rejected w data pend wp s e :
  main_prologue env dom cfg w = (inr (data, pend), wp) ->
  reachable env dom cfg pend data wp s ->
  at_phase s ≠ Rejected e.
Proof.
  intros Hpro Hreach.
  destruct (main_prologue_inr _ _ _ _ Hpro)
    as (ids & data0 & Hids & Hne & Hj & -> & -> & Hstored).
  set (data := ProgressTracker.setPending ids data0) in *.
  apply (steady_not_rejected env dom cfg (ProgressTracker.getPending data)
           (prediction env dom cfg wp) (fun _ => True)
           env_steady env_no_faults) with (data0 := data) (w := wp); try done.
  apply Forall_forall. intros id Hin. apply elem_of_setPending in Hin as [Hin _].
  pose proof (listing_result_valid _ _ Hids) as Hv.
  rewrite Forall_forall in Hv. by apply Hv.
Qed.

(** A run from a world in which every item that is in the listing and not
    completed fails. *)
Lemma rerun w1 st2 w2 o :
  outcomes_kept env dom cfg o w1 ->
  (∀ ids, listing_result env dom cfg (cache w1 !! listing_path cfg) = Normal ids ->
          ids ≠ [] ->
          ∃ d1, stored_ledger w1 = Some d1
                ∧ ∀ id, id ∈ ids -> id ∉ ids_of (completed d1) ->
                        success (o id) = false) ->
  main_run env dom cfg w1 st2 w2 ->
  st2 ≠ IllShapedLedger
  ∧ downloads w2 = downloads w1
  ∧ completed_of w2 = completed_of w1
  ∧ ∃ evs, trace w2 = trace w1 ++ evs
      ∧ (∀ id r, id ∈ ids_of (completed_of w1) -> EvGet r ∈ evs ->
                 ¬ request_for cfg id r)
      ∧ (EvGet (listing_request cfg) ∈ evs ->
         truthy (cache w1 !! listing_path cfg) = false).
Proof.
  intros Hkept Hlist Hrun.
  destruct Hrun as [st w' Hpro | data pend wp s Hpro Hreach Hphase
                    | data pend wp s e Hpro Hreach Hphase].
  - (* the run ends in the prologue *)
    destruct (main_prologue_frame _ _ _ Hpro) as (Hd & Hc & Hl & Hsome & evs & Htr & Hevs).
    assert (st ≠ IllShapedLedger) as Hst.
    { intros ->. destruct (main_prologue_ill_shaped _ _ Hpro) as (ids & Hids & Hne & Hj).
      destruct (Hlist ids Hids Hne) as (d1 & Hd1 & _).
      apply loaded_stored in Hd1. congruence. }
    split; [done |]. split; [done |]. split.
    { destruct (main_prologue_inl _ _ _ Hpro Hst)
        as [[Hp _] | (ids & data0 & Hids & Hj & Hstored & _)].
      - by apply completed_of_ext.
      - rewrite (loaded_completed _ _ Hj). unfold completed_of. by rewrite Hstored. }
    exists evs. split; [done |]. split.
    + intros id r _ Hr Hfor. apply Hevs in Hr as [-> _].
      by apply (request_for_listing cfg id).
    + intros Hr. by apply Hevs in Hr as [_ Hr].
  - (* the run goes through [processDownloads] *)
    destruct (main_prologue_frame _ _ _ Hpro) as (Hd & Hc & Hl & Hsome & evs & Htr & Hevs).
    destruct (main_prologue_inr _ _ _ _ Hpro)
      as (ids & data0 & Hids & Hne & Hj & -> & -> & Hstored).
    destruct (Hlist ids Hids Hne) as (d1 & Hd1 & Hfail).
    apply loaded_stored in Hd1. rewrite Hj in Hd1. injection Hd1 as <-.
    set (data := ProgressTracker.setPending ids data0) in *.
    set (pend := ProgressTracker.getPending data) in *.
    set (F := fun w : World =>
      downloads w = downloads w1
      ∧ ∃ evs, trace w = trace w1 ++ evs
          ∧ (∀ id r, id ∈ ids_of (completed data0) -> EvGet r ∈ evs ->
                     ¬ request_for cfg id r)
          ∧ (EvGet (listing_request cfg) ∈ evs ->
             truthy (cache w1 !! listing_path cfg) = false)).
    assert (∀ id, id ∈ pend -> id ∈ ids ∧ id ∉ ids_of (completed data0)) as Hpend.
    { intros id Hin. by apply elem_of_setPending in Hin. }
    assert (Forall valid_id pend) as Hvalid.
    { apply Forall_forall. intros id Hin. apply Hpend in Hin as [Hin _].
      pose proof (listing_result_valid _ _ Hids) as Hv.
      rewrite Forall_forall in Hv. by apply Hv. }
    assert (∀ w w', cache w' = cache w -> downloads w' = downloads w ->
                    trace w' = trace w -> F w -> F w') as HFext.
    { intros w w' _ Hdw Htw [HFd HFt]. split; [congruence |]. by rewrite Htw. }
    assert (∀ id html w, id ∈ pend -> F w ->
              F (set_files CacheDir (<[detail_path id := html]> (cache w)) w)) as HFcache.
    { intros id html w _ HF. exact HF. }
    assert (∀ id r w, id ∈ pend -> request_for cfg id r -> F w -> F (log (EvGet r) w))
      as HFget.
    { intros id r w Hin Hfor [HFd (evs' & HFt & HFc & HFl)]. split; [done |].
      exists (evs' ++ [EvGet r]). simpl. split; [by rewrite HFt, app_assoc |]. split.
      - intros id' r' Hin' Hr' Hfor'. apply elem_of_app in Hr' as [Hr' | Hr'].
        + by apply (HFc id' r').
        + apply list_elem_of_singleton in Hr'. injection Hr' as ->.
          rewrite (request_for_inj _ _ _ _ Hfor' Hfor) in Hin'.
          by apply Hpend in Hin as [_ Hin].
      - intros Hr'. apply elem_of_app in Hr' as [Hr' | Hr']; [by apply HFl |].
        apply list_elem_of_singleton in Hr'. injection Hr' as <-.
        by apply request_for_listing in Hfor. }
    assert (∀ ms w, F w -> F (log (EvSleep ms) w)) as HFsleep.
    { intros ms w [HFd (evs' & HFt & HFc & HFl)]. split; [done |].
      exists (evs' ++ [EvSleep ms]). simpl. split; [by rewrite HFt, app_assoc |]. split.
      - intros id' r' Hin' Hr'. apply elem_of_app in Hr' as [Hr' | Hr'].
        + by apply (HFc id' r').
        + by apply list_elem_of_singleton in Hr'.
      - intros Hr'. apply elem_of_app in Hr' as [Hr' | Hr']; [by apply HFl |].
        by apply list_elem_of_singleton in Hr'. }
    assert (∀ id w name content, id ∈ pend -> success (o id) = true -> F w ->
              F (set_files DownloadDir (<[name := content]> (downloads w)) w)) as HFdl.
    { intros id w name content Hin Hs _. apply Hpend in Hin as [Hin Hnc].
      rewrite (Hfail id Hin Hnc) in Hs. discriminate Hs. }
    assert (steady_inv env dom cfg o F (start_bar wp)) as Hinv.
    { split.
      - apply (outcomes_kept_frame o w1); done.
      - split; [done |]. exists evs. split; [done |]. split.
        + intros id r _ Hr Hfor. apply Hevs in Hr as [-> _].
          by apply (request_for_listing cfg id).
        + intros Hr. by apply Hevs in Hr as [_ Hr]. }
    destruct (steady_returned env dom cfg pend o F env_steady env_no_faults Hvalid
                HFext HFcache HFget HFsleep HFdl data wp s Hinv Hstored Hreach Hphase)
      as (Hres & Hst & _ & HFd & evs' & HFt & HFc & HFl).
    split; [done |]. split; [done |].
    assert (completed_of w1 = completed data0) as Hcompl by by apply loaded_completed.
    split.
    { rewrite Hcompl. unfold completed_of. rewrite Hst.
      destruct (marks_lists data (o <$> pend)) as [-> _].
      assert (List.filter success (o <$> pend) = []) as ->; [|by rewrite app_nil_r].
      clear -Hpend Hfail. induction pend as [|id l IH]; [done |].
      simpl. destruct (Hpend id) as [Hin Hnc]; [by left |].
      rewrite (Hfail id Hin Hnc). apply IH. intros id' Hin'. apply Hpend. by right. }
    exists evs'. rewrite Hcompl. done.
  - (* no file operation fails *)
    by destruct (main_not_rejected _ _ _ _ _ e Hpro Hreach).
Qed.

(** What the first run leaves: every item that is in the listing and not
    completed has failed and fails again, and the cache holds the listing
    unless the run failed. *)
Lemma first_run w0 st1 w1 :
  main_run env dom cfg w0 st1 w1 ->
  st1 ≠ IllShapedLedger ->
  ∃ o, outcomes_kept env dom cfg o w1
       ∧ (∀ ids, listing_result env dom cfg (cache w1 !! listing_path cfg) = Normal ids ->
                 ids ≠ [] ->
                 ∃ d1, stored_ledger w1 = Some d1
                       ∧ ∀ id, id ∈ ids -> id ∉ ids_of (completed d1) ->
                               success (o id) = false)
       ∧ ((∃ e, st1 = Fatal e) ∨ is_Some (cache w1 !! listing_path cfg)).
Proof.
  intros Hrun1 Hst1.
  destruct Hrun1 as [st w' Hpro | data pend wp s Hpro Hreach Hphase
                     | data pend wp s e Hpro Hreach Hphase].
  - (* the first run ends in the prologue *)
    destruct (main_prologue_frame _ _ _ Hpro)
      as (Hd & Hc & Hl & Hsome & evs & Htr & Hevs).
    exists (prediction env dom cfg w'). split; [done |]. split.
    + intros ids Hids Hne. rewrite Hl in Hids.
      destruct (main_prologue_inl _ _ _ Hpro Hst1)
        as [[_ Hnil] | (ids' & data0 & Hids' & Hj & Hstored & Hpend)].
      * by rewrite (Hnil ids Hids) in Hne.
      * rewrite Hids in Hids'. injection Hids' as <-.
        exists (ProgressTracker.setPending ids data0). split; [done |].
        intros id Hin Hnc. simpl in Hnc.
        assert (id ∈ pending (ProgressTracker.setPending ids data0)) as Hp
          by by apply elem_of_setPending.
        unfold ProgressTracker.getPending in Hpend. rewrite Hpend in Hp.
        by apply elem_of_nil in Hp.
    + destruct (listing_result env dom cfg (cache w0 !! listing_path cfg))
        as [ids | e] eqn:Hids.
      * right. by apply Hsome.
      * left. exists e. apply (main_prologue_throw _ _ _ _ Hpro) in Hids.
        by injection Hids.
  - (* the first run goes through [processDownloads] *)
    destruct (main_prologue_frame _ _ _ Hpro)
      as (Hd & Hc & Hl & Hsome & evs & Htr & Hevs).
    destruct (main_prologue_inr _ _ _ _ Hpro)
      as (ids & data0 & Hids & Hne & Hj & -> & -> & Hstored).
    set (data := ProgressTracker.setPending ids data0) in *.
    set (pend := ProgressTracker.getPending data) in *.
    set (o := prediction env dom cfg wp).
    set (F := fun w : World => cache w !! listing_path cfg = cache wp !! listing_path cfg).
    assert (Forall valid_id pend) as Hvalid.
    { apply Forall_forall. intros id Hin. apply elem_of_setPending in Hin as [Hin _].
      pose proof (listing_result_valid _ _ Hids) as Hv.
      rewrite Forall_forall in Hv. by apply Hv. }
    destruct (steady_returned env dom cfg pend o F env_steady env_no_faults Hvalid) with
      (data0 := data) (w := wp) (s := s) as (Hres & Hst & Hkept & HF); try done.
    { intros w w' Hcw _ _ HF. unfold F. by rewrite Hcw. }
    { intros id html w _ HF. unfold F. simpl.
      rewrite lookup_insert_ne; [done |].
      intros Heq. by apply (listing_path_not_detail cfg id). }
    exists o. split; [done |]. split.
    + intros ids' Hids' Hne'. rewrite HF, Hl, Hids in Hids'. injection Hids' as <-.
      exists (marks data (o <$> pend)). split; [done |].
      intros id Hin Hnc.
      destruct (marks_lists data (o <$> pend)) as [Hcm _]. rewrite Hcm in Hnc.
      unfold ids_of in Hnc. rewrite fmap_app in Hnc.
      apply not_elem_of_app in Hnc as [Hnc0 Hncf].
      destruct (success (o id)) eqn:Hs; [|done]. exfalso. apply Hncf.
      apply elem_of_ids_filter; [intros i; apply transID_outcome_of |].
      split; [by apply elem_of_setPending | done].
    + right. rewrite HF. apply Hsome. by rewrite Hids.
  - (* no file operation fails *)
    by destruct (main_not_rejected _ _ _ _ _ e Hpro Hreach).
Qed.

End Rerun.

(* ===================================================================== *)
(** ** Termination of [processDownloads] and of [main] *)
(* ===================================================================== *)

Lemma advance_at_rest env {A} (t : task A) w : at_rest t -> advance env t w = (t, w).
Proof. by destruct t. Qed.

Lemma launch_at_rest env {A} (ts : list (task A)) : ∀ w,
  Forall at_rest (launch env ts w).1.
Proof.
  induction ts as [|t ts IH]; intros w; simpl; [done |].
  pose proof (advance_suspended env t w) as Ht.
  destruct (advance env t w) as [t' w1].
  specialize (IH w1). destruct (launch env ts w1) as [pool w2].
  by constructor.
Qed.

Lemma settled_fulfilled {A} (pool : list (prog A)) :
  Forall (fun t => settled t = true) pool -> rejection pool = None ->
  is_Some (fulfilled pool).
Proof.
  induction 1 as [|t pool Ht _ IH]; simpl; [by eexists |].
  destruct t as [[a | e] | |]; try done.
  intros Hrej. destruct (IH Hrej) as [rs ->]. by eexists.
Qed.

Lemma fulfilled_await {A} (pre rest : list (prog A)) {X} (e : async X) k :
  fulfilled (pre ++ Await e k :: rest) = None.
Proof.
  induction pre as [|t pre IH]; simpl; [done |].
  destruct t as [[a | err] | |]; try done. by rewrite IH.
Qed.

Section Termination.
Variable env : Env.
Variable dom : Dom.
Variable cfg : Config.
Variable transIDs : list jsstring.
Hypothesis concurrency_pos : 1 ≤ concurrentDownloads cfg.

Abbreviation next := (sched_next env dom cfg transIDs).

(** The results of a batch are recorded, and the loop goes on. *)
Lemma marking_ends i
    (Hloop : ∀ data rs w,
       ∃ s', rtc next (Sched (AtLoop (i + concurrentDownloads cfg)) data rs w) s'
             ∧ ended s') :
  ∀ rest data rs w,
    ∃ s', rtc next (Sched (Marking i rest) data rs w) s' ∧ ended s'.
Proof.
  induction rest as [|r rest IH]; intros data rs w.
  - destruct (Hloop data rs w) as (s' & Hpath & Hend). exists s'. split; [|done].
    eapply rtc_l; [|exact Hpath]. by exists 0.
  - destruct (run env (save (mark r data)) w) as [[u | e] w1] eqn:Hsave.
    + destruct (IH (mark r data) (rs ++ [r]) w1) as (s' & Hpath & Hend).
      exists s'. split; [|done]. eapply rtc_l; [|exact Hpath].
      exists 0. unfold sched_step. cbn [at_phase tracker results world].
      by rewrite Hsave.
    + exists (Sched (Rejected e) (mark r data) rs w1). split.
      * apply rtc_once. exists 0. unfold sched_step.
        cbn [at_phase tracker results world]. by rewrite Hsave.
      * right. by exists e.
Qed.

(** The workers of a batch settle, one after the other, or one of them is
    rejected. *)
Lemma await_all_ends i data rs
    (Hmark : ∀ brs w,
       ∃ s', rtc next (Sched (Marking i brs) data rs w) s' ∧ ended s') :
  ∀ rest pre w,
    Forall (fun t => settled t = true) pre ->
    Forall at_rest rest ->
    ∃ s', rtc next (Sched (AwaitAll i (pre ++ rest)) data rs w) s' ∧ ended s'.
Proof.
  induction rest as [|t rest IH]; intros pre w Hpre Hrest.
  - rewrite app_nil_r.
    destruct (rejection pre) as [e |] eqn:Hrej.
    + exists (Sched (Rejected e) data rs w). split.
      * apply rtc_once. exists 0. unfold sched_step. simpl. by rewrite Hrej.
      * right. by exists e.
    + destruct (settled_fulfilled pre Hpre Hrej) as [brs Hful].
      destruct (Hmark brs w) as (s' & Hpath & Hend). exists s'. split; [|done].
      eapply rtc_l; [|exact Hpath].
      exists 0. unfold sched_step. simpl. by rewrite Hrej, Hful.
  - apply Forall_cons in Hrest as [Ht Hrest].
    cut (∀ w, ∃ s', rtc next (Sched (AwaitAll i (pre ++ (advance env t w).1 :: rest))
                                data rs (advance env t w).2) s' ∧ ended s').
    { intros Hgen. specialize (Hgen w). by rewrite advance_at_rest in Hgen. }
    clear w Ht.
    induction t as [c | X e k IHt | X e k IHt]; intros w.
    + simpl. replace (pre ++ Ret c :: rest) with ((pre ++ [Ret c]) ++ rest)
        by (by rewrite <- app_assoc).
      apply IH; [|done]. apply Forall_app. split; [done | by constructor].
    + simpl. destruct (do_sync env e w) as [x w1]. apply IHt.
    + simpl. destruct (rejection (pre ++ Await e k :: rest)) as [err |] eqn:Hrej.
      * exists (Sched (Rejected err) data rs w). split.
        -- apply rtc_once. exists 0. unfold sched_step. simpl. by rewrite Hrej.
        -- right. by exists err.
      * destruct (do_async env e w) as [x w1] eqn:Hasync.
        destruct (IHt x w1) as (s' & Hpath & Hend). exists s'. split; [|done].
        eapply rtc_l; [|exact Hpath].
        exists (length pre). unfold sched_step. simpl.
        rewrite Hrej, fulfilled_await, list_lookup_middle by done. simpl.
        rewrite Hasync. destruct (advance env (k x) w1) as [t' w2]. simpl.
        replace (length pre) with (length pre + 0) by lia.
        by rewrite insert_app_r.
Qed.

(** From the head of the loop [processDownloads] returns or raises. *)
Lemma at_loop_ends : ∀ n i data rs w,
  length transIDs - i ≤ n ->
  ∃ s', rtc next (Sched (AtLoop i) data rs w) s' ∧ ended s'.
Proof.
  induction n as [|n IH]; intros i data rs w Hn.
  - exists (Sched Returned data rs w). split; [|by left].
    apply rtc_once. exists 0. unfold sched_step. simpl.
    rewrite bool_decide_eq_false_2 by lia. done.
  - destruct (decide (i < length transIDs)) as [Hi | Hi].
    + destruct (launch env (downloadWarrant dom cfg <$> batch_at cfg transIDs i) w)
        as [pool w1] eqn:Hlaunch.
      destruct (await_all_ends i data rs) with (rest := pool) (pre := @nil (prog DownloadOutcome))
                                               (w := w1) as (s' & Hpath & Hend).
      * intros brs w2. apply marking_ends. intros data' rs' w3. apply IH. lia.
      * done.
      * pose proof (launch_at_rest env (downloadWarrant dom cfg <$> batch_at cfg transIDs i) w)
          as Hrest.
        by rewrite Hlaunch in Hrest.
      * exists s'. split; [|done]. eapply rtc_l; [|exact Hpath].
        exists 0. unfold sched_step. simpl.
        rewrite bool_decide_eq_true_2 by done. by rewrite Hlaunch.
    + exists (Sched Returned data rs w). split; [|by left].
      apply rtc_once. exists 0. unfold sched_step. simpl.
      rewrite bool_decide_eq_false_2 by done. done.
Qed.

(** With a concurrency of at least one [processDownloads] returns or
    raises. *)
Lemma sched_terminates data w :
  ∃ s, reachable env dom cfg transIDs data w s ∧ ended s.
Proof. apply (at_loop_ends (length transIDs)). lia. Qed.

End Termination.

(** With a concurrency of at least one every run of [main] ends. *)
Lemma main_run_total env dom cfg w :
  1 ≤ concurrentDownloads cfg -> ∃ st w', main_run env dom cfg w st w'.
Proof.
  intros Hc.
  destruct (main_prologue env dom cfg w) as [[st | [data pend]] w1] eqn:Hpro.
  - exists st, w1. by apply main_exits.
  - destruct (sched_terminates env dom cfg pend Hc data w1) as (s & Hreach & [Hret | [e He]]).
    + exists (Complete (results s)), (world s). by eapply main_completes.
    + exists (Fatal e), (world s). by eapply main_fails.
Qed.


Lemma site_steady : steady site_env.
Proof. by intros n m r. Qed.

Lemma site_no_faults : no_faults site_env.
Proof. by intros n. Qed.


(* ===================================================================== *)
(** * Further properties of the code *)
(* ===================================================================== *)

(* ===================================================================== *)
(** ** The ledger operations *)
(* ===================================================================== *)

(** X1: [markCompleted(result)] makes the item completed and leaves completed
    what was; [markFailed(result)] changes the completed state of no item;
    both take the ID of the result, and no other ID, out of the pending
    list. *)
Theorem mark_postcondition result data :
  let c := ProgressTracker.markCompleted result data in
  let f := ProgressTracker.markFailed result data in
  ProgressTracker.isCompleted c (transID result) = true
  ∧ (∀ id, ProgressTracker.isCompleted data id = true ->
           ProgressTracker.isCompleted c id = true)
  ∧ (∀ id, ProgressTracker.isCompleted f id = ProgressTracker.isCompleted data id)
  ∧ failed c = failed data
  ∧ pending c = pending f
  ∧ (transID result ∉ pending c)
  ∧ (∀ id, id ≠ transID result -> (id ∈ pending c ↔ id ∈ pending data)).
Proof.
  intros c f. subst c f. unfold ProgressTracker.isCompleted. simpl.
  split; [|split; [|split; [|split; [|split; [|split]]]]]; try done.
  - rewrite existsb_app. simpl. rewrite bool_decide_eq_true_2 by done.
    by rewrite orb_true_r.
  - intros id Hid. rewrite existsb_app, Hid. done.
  - rewrite list_elem_of_filter. tauto.
  - intros id Hne. rewrite list_elem_of_filter. tauto.
Qed.

(* ===================================================================== *)
(** ** Names of cache files *)
(* ===================================================================== *)

Lemma sanitize_safe s : forallb is_safe_char (sanitize s) = true.
Proof.
  induction s as [|c s IH]; [done |]. simpl. rewrite IH, andb_true_r.
  unfold is_safe_char. destruct (is_alnum c) eqn:Hc; [by rewrite Hc | done].
Qed.

Lemma sanitize_alnum s : forallb is_alnum s = true -> sanitize s = s.
Proof.
  induction s as [|c s IH]; [done |]. simpl. intros H.
  apply andb_true_iff in H as [Hc Hs]. by rewrite Hc, IH.
Qed.

(** X2: the name [getCachePath(key)] gives to a cache file is the key with
    every code unit that is no letter and no digit replaced by an
    underscore, followed by [.html]: it has the length of the key plus five,
    holds no path separator, and is the key itself plus [.html] when the key
    is alphanumeric. *)
Theorem getCachePath_safe key :
  length (CacheManager.getCachePath key) = length key + 5
  ∧ (∃ name, CacheManager.getCachePath key = name ++ js ".html"
             ∧ length name = length key
             ∧ forallb is_safe_char name = true)
  ∧ (47%N ∉ CacheManager.getCachePath key)
  ∧ (92%N ∉ CacheManager.getCachePath key)
  ∧ (forallb is_alnum key = true -> CacheManager.getCachePath key = key ++ js ".html").
Proof.
  unfold CacheManager.getCachePath.
  assert (∀ x, is_safe_char x = false -> x ∉ js ".html" -> x ∉ sanitize key ++ js ".html")
    as Hnot.
  { intros x Hx Hh Hin. apply elem_of_app in Hin as [Hin | Hin]; [|done].
    pose proof (sanitize_safe key) as Hs. rewrite forallb_forall in Hs.
    apply list_elem_of_In, Hs in Hin. congruence. }
  split; [|split; [|split; [|split]]].
  - rewrite length_app. unfold sanitize. by rewrite length_fmap.
  - exists (sanitize key). split; [done |]. split; [|apply sanitize_safe].
    unfold sanitize. by rewrite length_fmap.
  - apply Hnot; [done |]. vm_compute. intros H. by repeat (inversion H as [|? ? ? H']; clear H; rename H' into H).
  - apply Hnot; [done |]. vm_compute. intros H. by repeat (inversion H as [|? ? ? H']; clear H; rename H' into H).
  - intros H. by rewrite sanitize_alnum.
Qed.

(* ===================================================================== *)
(** ** Validated dates *)
(* ===================================================================== *)

Lemma eat_digits_Some n : ∀ s rest,
  eat_digits n s = Some rest ->
  ∃ ds, s = ds ++ rest ∧ length ds = n ∧ forallb is_digit ds = true.
Proof.
  induction n as [|n IH]; intros s rest; simpl.
  - intros H. injection H as ->. by exists [].
  - destruct s as [|c s]; [done |]. destruct (is_digit c) eqn:Hc; [|done].
    intros H. apply IH in H as (ds & -> & Hlen & Hds).
    exists (c :: ds). simpl. by rewrite Hc, Hds, Hlen.
Qed.

Lemma eat_char_Some x s rest : eat_char x s = Some rest -> s = x :: rest.
Proof.
  destruct s as [|c s]; simpl; [done |].
  destruct (c =? x)%N eqn:Hc; [|done]. apply N.eqb_eq in Hc as ->.
  intros H. by injection H as ->.
Qed.

(** The strings [dateRegex] accepts: four digits, two digits and two digits,
    with a hyphen between them. *)
Lemma dateRegex_shape s :
  dateRegex_test s = true ->
  ∃ y m d, s = y ++ 45%N :: m ++ 45%N :: d
           ∧ length y = 4 ∧ length m = 2 ∧ length d = 2
           ∧ forallb is_digit y = true ∧ forallb is_digit m = true
           ∧ forallb is_digit d = true.
Proof.
  unfold dateRegex_test.
  destruct (eat_digits 4 s) as [s1 |] eqn:H1; cbn [mbind option_bind]; [|discriminate].
  destruct (eat_char 45 s1) as [s2 |] eqn:H2; cbn [mbind option_bind]; [|discriminate].
  destruct (eat_digits 2 s2) as [s3 |] eqn:H3; cbn [mbind option_bind]; [|discriminate].
  destruct (eat_char 45 s3) as [s4 |] eqn:H4; cbn [mbind option_bind]; [|discriminate].
  destruct (eat_digits 2 s4) as [[|c s5] |] eqn:H5; try discriminate.
  intros _.
  apply eat_digits_Some in H1 as (y & -> & Hy & Hyd).
  apply eat_char_Some in H2 as ->.
  apply eat_digits_Some in H3 as (m & -> & Hm & Hmd).
  apply eat_char_Some in H4 as ->.
  apply eat_digits_Some in H5 as (d & -> & Hd & Hdd).
  exists y, m, d. by rewrite app_nil_r.
Qed.

Lemma is_digit_alnum c : is_digit c = true -> is_alnum c = true.
Proof. unfold is_alnum. by intros ->. Qed.

Lemma remove_all_digits x s :
  is_digit x = false -> forallb is_digit s = true -> remove_all x s = s.
Proof.
  intros Hx. induction s as [|c s IH]; [done |]. simpl. intros H.
  apply andb_true_iff in H as [Hc Hs]. unfold remove_all in *.
  rewrite filter_cons_True by congruence. by rewrite IH.
Qed.

Lemma remove_all_app x s t : remove_all x (s ++ t) = remove_all x s ++ remove_all x t.
Proof. unfold remove_all. apply filter_app. Qed.

Lemma remove_all_here x s : remove_all x (x :: s) = remove_all x s.
Proof. unfold remove_all. by rewrite filter_cons_False by (by intros H; apply H). Qed.

Lemma sanitize_app s t : sanitize (s ++ t) = sanitize s ++ sanitize t.
Proof. unfold sanitize. apply fmap_app. Qed.

Lemma sanitize_length s : length (sanitize s) = length s.
Proof. unfold sanitize. apply length_fmap. Qed.

(** The listing URL and the name of the listing's cache file for a date the
    validator accepts. *)
Lemma date_without_hyphens y m d :
  forallb is_digit y = true -> forallb is_digit m = true -> forallb is_digit d = true ->
  remove_all 45%N (y ++ 45%N :: m ++ 45%N :: d) = y ++ m ++ d
  ∧ sanitize (y ++ 45%N :: m ++ 45%N :: d) = y ++ 95%N :: m ++ 95%N :: d.
Proof.
  intros Hy Hm Hd. split.
  - rewrite remove_all_app, remove_all_here, remove_all_app, remove_all_here.
    by rewrite (remove_all_digits _ y), (remove_all_digits _ m), (remove_all_digits _ d).
  - change (y ++ 45%N :: m ++ 45%N :: d) with (y ++ [45%N] ++ m ++ [45%N] ++ d).
    rewrite !sanitize_app.
    by rewrite (sanitize_digits y), (sanitize_digits m), (sanitize_digits d).
Qed.



Lemma valid_date_length s : dateRegex_test s = true -> length (sanitize s) = 10.
Proof.
  intros (y & m & d & -> & Hy & Hm & Hd & _)%dateRegex_shape.
  rewrite sanitize_length, length_app. simpl. rewrite length_app. simpl. lia.
Qed.

Lemma valid_date_sanitize_inj s s' :
  dateRegex_test s = true -> dateRegex_test s' = true ->
  sanitize s = sanitize s' -> s = s'.
Proof.
  intros (y & m & d & -> & Hy & Hm & Hd & Hyd & Hmd & Hdd)%dateRegex_shape.
  intros (y' & m' & d' & -> & Hy' & Hm' & Hd' & Hyd' & Hmd' & Hdd')%dateRegex_shape.
  destruct (date_without_hyphens y m d) as [_ ->]; try done.
  destruct (date_without_hyphens y' m' d') as [_ ->]; try done.
  intros H. apply app_inj_1 in H as [-> H]; [|congruence].
  injection H as H. apply app_inj_1 in H as [-> H]; [|congruence].
  by injection H as ->.
Qed.

(** X4: no two cache files are the same: the detail pages of two items have
    different files, the listing has a file that is the detail page of no
    item, and the listings of two date ranges whose dates pass the validator
    have different files. *)
Theorem cache_files_distinct cfg cfg' id id' :
  (valid_id id -> valid_id id' -> detail_path id = detail_path id' -> id = id')
  ∧ listing_path cfg ≠ detail_path id
  ∧ (dateRegex_test (dateFrom cfg) = true -> dateRegex_test (dateTo cfg) = true ->
     dateRegex_test (dateFrom cfg') = true -> dateRegex_test (dateTo cfg') = true ->
     listing_path cfg = listing_path cfg' ->
     dateFrom cfg = dateFrom cfg' ∧ dateTo cfg = dateTo cfg').
Proof.
  split; [apply detail_path_inj |]. split; [apply listing_path_not_detail |].
  intros Hf Ht Hf' Ht'. unfold listing_path, CacheManager.getCachePath.
  rewrite !sanitize_app. intros H.
  apply app_inv_tail in H. apply app_inv_head in H.
  apply app_inj_1 in H as [H1 H2].
  - apply valid_date_sanitize_inj in H1; try done.
    apply app_inv_head in H2. by apply valid_date_sanitize_inj in H2.
  - by rewrite !valid_date_length.
Qed.

(* ===================================================================== *)
(** ** The patterns of the pages *)
(* ===================================================================== *)

(** A code unit that a list does not hold, by computation. *)
Lemma not_elem_of_forallb (x : N) l :
  forallb (fun c => negb (c =? x)%N) l = true -> x ∉ l.
Proof.
  intros H Hin. rewrite forallb_forall in H.
  apply list_elem_of_In, H in Hin. by rewrite N.eqb_refl in Hin.
Qed.

Lemma startsWith_app p s : startsWith p (p ++ s) = true.
Proof. induction p as [|a p IH]; [done |]. simpl. by rewrite bool_decide_eq_true_2, IH. Qed.

Lemma startsWith_head a p c s : a ≠ c -> startsWith (a :: p) (c :: s) = false.
Proof. intros H. simpl. by rewrite bool_decide_eq_false_2. Qed.

(** A prefix of code units that satisfy [p], up to one that does not. *)
Lemma span_prefix p s rest :
  forallb p s = true ->
  match rest with c :: _ => p c = false | [] => True end ->
  span p (s ++ rest) = (s, rest).
Proof.
  intros Hs Hrest. induction s as [|c s IH]; simpl.
  - destruct rest as [|c rest]; simpl; [done | by rewrite Hrest].
  - simpl in Hs. apply andb_true_iff in Hs as [Hc Hs]. by rewrite Hc, IH.
Qed.

Lemma match_TransID_eq s :
  match_TransID s
  = match (if startsWith (js "TransID=") s
           then match fst (span is_digit (drop 8 s)) with
                | [] => None
                | ds => Some ds
                end
           else None) with
    | Some ds => Some ds
    | None => match s with [] => None | _ :: s' => match_TransID s' end
    end.
Proof. by destruct s. Qed.

Lemma match_TransID_skip pre s : 84%N ∉ pre -> match_TransID (pre ++ s) = match_TransID s.
Proof.
  induction pre as [|c pre IH]; [done |]. intros Hin.
  apply not_elem_of_cons in Hin as [Hc Hpre].
  rewrite match_TransID_eq. simpl app.
  change (js "TransID=") with (84%N :: js "ransID=").
  rewrite startsWith_head by done. by apply IH.
Qed.

Lemma match_TransID_here id rest :
  valid_id id ->
  match rest with c :: _ => is_digit c = false | [] => True end ->
  match_TransID (js "TransID=" ++ id ++ rest) = Some id.
Proof.
  intros [Hne Hd] Hrest. rewrite match_TransID_eq, startsWith_app.
  rewrite drop_app_length' by done.
  rewrite span_prefix by done. simpl. by destruct id.
Qed.

(** X5: the pattern that reads the ID of an item off a link finds the digits
    that follow the first [TransID=]; in particular it reads back, from the
    URL of the detail page that [downloadWarrant] builds for an ID, that
    ID. *)
Theorem detailURL_round_trip id :
  valid_id id ->
  match_TransID (detailURL id) = Some id
  ∧ ∀ pre rest,
      (84%N ∉ pre) ->
      match rest with c :: _ => is_digit c = false | [] => True end ->
      match_TransID (pre ++ js "TransID=" ++ id ++ rest) = Some id.
Proof.
  intros Hid.
  assert (∀ pre rest,
            (84%N ∉ pre) ->
            match rest with c :: _ => is_digit c = false | [] => True end ->
            match_TransID (pre ++ js "TransID=" ++ id ++ rest) = Some id) as Hgen.
  { intros pre rest Hpre Hrest. rewrite match_TransID_skip by done.
    by apply match_TransID_here. }
  split; [|exact Hgen].
  unfold detailURL.
  change (URLS_base ++ js "/public/ipos/IPOSDW01.aspx?TransID=" ++ id)
    with (js "https://market.sec.or.th/public/ipos/IPOSDW01.aspx?" ++ js "TransID=" ++ id).
  rewrite <- (app_nil_r id) at 1. apply Hgen; [|done].
  by apply not_elem_of_forallb.
Qed.

Lemma detailURL_round_trip_witness :
  valid_id (js "123") ∧ match_TransID (detailURL (js "123")) = Some (js "123").
Proof.
  assert (valid_id (js "123")) as Hid by (split; [discriminate | reflexivity]).
  split; [exact Hid |]. apply (detailURL_round_trip (js "123") Hid).
Defined.

Lemma foldl_listing_row rows : ∀ acc,
  foldl listing_row acc rows = acc ++ omap row_transID rows.
Proof.
  induction rows as [|r rows IH]; intros acc; simpl; [by rewrite app_nil_r |].
  rewrite IH. unfold listing_row, row_transID.
  destruct (truthy (last_link_href r)); [|done].
  destruct (match_TransID (default [] (last_link_href r))); [|done].
  by rewrite <- app_assoc.
Qed.

Lemma length_omap_le {A B} (f : A -> option B) l : length (omap f l) ≤ length l.
Proof.
  induction l as [|a l IH]; csimpl; [done |]. destruct (f a); simpl; lia.
Qed.

(** X6: the IDs of a listing page are those of its rows, in the order of the
    rows: a row whose last cell links to [TransID=] followed by digits gives
    these digits, any other row gives nothing, so there are at most as many
    IDs as rows. Nothing is removed: an ID that two rows link to is listed
    twice. *)
Theorem parse_listing_rows dom html :
  parse_listing dom html = omap row_transID (table_rows dom html)
  ∧ length (parse_listing dom html) ≤ length (table_rows dom html)
  ∧ ∀ rows1 rows2,
      table_rows dom html = rows1 ++ rows2 ->
      parse_listing dom html = omap row_transID rows1 ++ omap row_transID rows2.
Proof.
  assert (parse_listing dom html = omap row_transID (table_rows dom html)) as Heq.
  { unfold parse_listing. by rewrite foldl_listing_row. }
  split; [done |]. split.
  - rewrite Heq. apply length_omap_le.
  - intros rows1 rows2 Hrows. by rewrite Heq, Hrows, omap_app.
Qed.

(** The state of the loop of [extractTermsURL] after the rows: without a
    terms row nothing is found; else the date is the one of the last terms
    row. *)
Lemma foldl_terms_row dom rows :
  (Forall (fun r => is_terms_row dom r = false) rows
   ∧ foldl (terms_row dom) (None, None) rows = (None, None))
  ∨ ∃ before r after,
      rows = before ++ r :: after
      ∧ is_terms_row dom r = true
      ∧ Forall (fun r' => is_terms_row dom r' = false) after
      ∧ (foldl (terms_row dom) (None, None) rows).2
        = Some (trim dom (last_link_text r)).
Proof.
  induction rows as [|x rows IH] using rev_ind; [by left |].
  rewrite foldl_app. simpl. unfold terms_row at 1 3. fold (is_terms_row dom x).
  destruct (is_terms_row dom x) eqn:Hx.
  - right. exists rows, x, []. split; [done |]. split; [done |]. split; [done |].
    destruct (truthy (last_link_onclick x)); [|done].
    by destruct (match_window_open (default [] (last_link_onclick x))).
  - destruct IH as [[Hall Hf] | (before & r & after & -> & Hr & Hafter & Hd)].
    + left. split; [|done]. apply Forall_app. by split; [|constructor].
    + right. exists before, r, (after ++ [x]).
      split; [by rewrite <- app_assoc |]. split; [done |]. split; [|done].
      apply Forall_app. by split; [|constructor].
Qed.

(** X7: [extractTermsURL] returns [null] on a page without a terms row (an
    empty page among them). What it returns otherwise has an absolute URL (a
    URL that does not start with [http] is put after the base URL), the
    issuer and the symbol of the page, and the date of the last terms row of
    the page. *)
Theorem extractTermsURL_result dom html :
  (Forall (fun r => is_terms_row dom r = false) (table_rows dom html) ->
   extractTermsURL dom html = None)
  ∧ ∀ info,
      extractTermsURL dom html = Some info ->
      startsWith (js "http") (terms_url info) = true
      ∧ terms_issuer info = trim dom (issuer_text dom html)
      ∧ terms_symbol info = trim dom (symbol_text dom html)
      ∧ ∃ before r after,
          table_rows dom html = before ++ r :: after
          ∧ is_terms_row dom r = true
          ∧ Forall (fun r' => is_terms_row dom r' = false) after
          ∧ terms_fileDate info = Some (trim dom (last_link_text r)).
Proof.
  unfold extractTermsURL.
  pose proof (foldl_terms_row dom (table_rows dom html)) as Hrows.
  destruct (foldl (terms_row dom) (None, None) (table_rows dom html)) as [u d] eqn:Hfold.
  split.
  - intros Hall. destruct Hrows as [[_ Hf] | (before & r & after & Heq & Hr & _)].
    + by injection Hf as -> ->.
    + rewrite Heq in Hall. apply Forall_app in Hall as [_ Hall].
      apply Forall_cons in Hall as [Hr' _]. congruence.
  - intros info. destruct (truthy u) eqn:Hu; [|done].
    assert (∃ before r after,
              table_rows dom html = before ++ r :: after
              ∧ is_terms_row dom r = true
              ∧ Forall (fun r' => is_terms_row dom r' = false) after
              ∧ d = Some (trim dom (last_link_text r))) as Hd.
    { destruct Hrows as [[_ Hf] | Hrows]; [|done]. injection Hf as -> ->. done. }
    destruct (startsWith (js "http") (default [] u)) eqn:Hs;
      intros H; injection H as <-;
      cbn [terms_url terms_issuer terms_symbol terms_fileDate]; by repeat split.
Qed.

Lemma extractTermsURL_result_witness :
  ∃ info, extractTermsURL site_dom detail_page_123 = Some info
          ∧ startsWith (js "http") (terms_url info) = true.
Proof.
  destruct (extractTermsURL site_dom detail_page_123) as [info |] eqn:H;
    [|vm_compute in H; discriminate H].
  exists info. split; [reflexivity |].
  destruct (extractTermsURL_result site_dom detail_page_123) as [_ Hinfo].
  by destruct (Hinfo info H) as [Hs _].
Defined.

(* ===================================================================== *)
(** ** The file name of the content-disposition header *)
(* ===================================================================== *)

Lemma match_filename_eq s :
  match_filename s
  = match match_filename_here s with
    | Some v => Some v
    | None => match s with [] => None | _ :: s' => match_filename s' end
    end.
Proof. by destruct s. Qed.

Lemma match_filename_skip pre s :
  (102%N ∉ pre) -> match_filename (pre ++ s) = match_filename s.
Proof.
  induction pre as [|c pre IH]; [done |]. intros Hin.
  apply not_elem_of_cons in Hin as [Hc Hpre].
  rewrite match_filename_eq. simpl app. unfold match_filename_here.
  change (js "filename") with (102%N :: js "ilename").
  rewrite startsWith_head by done. by apply IH.
Qed.

Lemma remove_all_id x s : x ∉ s -> remove_all x s = s.
Proof.
  induction s as [|c s IH]; [done |]. intros Hin.
  apply not_elem_of_cons in Hin as [Hc Hs]. unfold remove_all in *.
  rewrite filter_cons_True by done. by rewrite IH.
Qed.

Lemma remove_all_not_elem x s : x ∉ remove_all x s.
Proof. unfold remove_all. rewrite list_elem_of_filter. tauto. Qed.

Lemma remove_all_other x y s : y ∉ s -> y ∉ remove_all x s.
Proof. unfold remove_all. rewrite list_elem_of_filter. tauto. Qed.

(** The pattern at the parameter: [filename], code units [mid] other than
    [;], [=] and the newline, [=] and the value. *)
Lemma match_filename_here_value mid v :
  forallb (fun c => negb ((c =? 59) || (c =? 61) || (c =? 10))%N) mid = true ->
  match_filename_here (js "filename" ++ mid ++ 61%N :: v)
  = match v with
    | q :: v' =>
        if ((q =? 39) || (q =? 34))%N then
          match span (fun c => negb (c =? q)%N) v' with
          | (body, _ :: _) =>
              if forallb (fun c => negb (is_line_terminator c)) body
              then Some (q :: body ++ [q])
              else Some (fst (span (fun c => negb ((c =? 59) || (c =? 10))%N) v))
          | _ => Some (fst (span (fun c => negb ((c =? 59) || (c =? 10))%N) v))
          end
        else Some (fst (span (fun c => negb ((c =? 59) || (c =? 10))%N) v))
    | [] => Some (fst (span (fun c => negb ((c =? 59) || (c =? 10))%N) v))
    end.
Proof.
  intros Hmid. unfold match_filename_here.
  rewrite startsWith_app, drop_app_length' by done.
  by rewrite span_prefix.
Qed.

Lemma remove_all_quoted q name :
  q = 34%N ∨ q = 39%N ->
  remove_all 34%N (remove_all 39%N (q :: name ++ [q]))
  = remove_all 34%N (remove_all 39%N name).
Proof.
  intros [-> | ->].
  - change (34%N :: name ++ [34%N]) with ([34%N] ++ name ++ [34%N]).
    rewrite (remove_all_app 39%N), (remove_all_app 39%N name).
    change (remove_all 39%N [34%N]) with [34%N].
    rewrite (remove_all_app 34%N), (remove_all_app 34%N (remove_all 39%N name)).
    change (remove_all 34%N [34%N]) with (@nil N). by rewrite app_nil_r.
  - change (39%N :: name ++ [39%N]) with ([39%N] ++ name ++ [39%N]).
    rewrite (remove_all_app 39%N), (remove_all_app 39%N name).
    change (remove_all 39%N [39%N]) with (@nil N). by rewrite app_nil_r.
Qed.

Lemma disposition_filename_capture cd c v :
  truthy (Some cd) = true ->
  match_filename cd = Some (c :: v) ->
  disposition_filename (Some cd) = Some (remove_all 34%N (remove_all 39%N (c :: v))).
Proof. unfold disposition_filename. intros -> H. simpl in *. by rewrite H. Qed.

(** X8: the file name read off a content-disposition header, for a header
    whose first [f] is that of the parameter [filename] (as in
    [attachment; filename=...]). A value between two quotes of the same kind
    gives what is between them, and a value without quotes gives the value up
    to the next [;] or newline; in both cases without any quote it holds. The
    name never holds a quote. A parameter [filename*=] is read the same way:
    its value [UTF-8''name] gives [UTF-8name]. *)
Theorem disposition_filename_forms pre mid name rest :
  (102%N ∉ pre) ->
  forallb (fun c => negb ((c =? 59) || (c =? 61) || (c =? 10))%N) mid = true ->
  (∀ q, q = 34%N ∨ q = 39%N ->
        (q ∉ name) ->
        forallb (fun c => negb (is_line_terminator c)) name = true ->
        disposition_filename (Some (pre ++ js "filename" ++ mid ++ 61%N :: q :: name ++ q :: rest))
        = Some (remove_all 34%N (remove_all 39%N name)))
  ∧ (match name with c :: _ => c ≠ 34%N ∧ c ≠ 39%N | [] => False end ->
     forallb (fun c => negb ((c =? 59) || (c =? 10))%N) name = true ->
     match rest with c :: _ => c = 59%N ∨ c = 10%N | [] => True end ->
     disposition_filename (Some (pre ++ js "filename" ++ mid ++ 61%N :: name ++ rest))
     = Some (remove_all 34%N (remove_all 39%N name)))
  ∧ (∀ cd fn, disposition_filename cd = Some fn -> (34%N ∉ fn) ∧ (39%N ∉ fn)).
Proof.
  intros Hpre Hmid.
  assert (∀ v, truthy (Some (pre ++ js "filename" ++ mid ++ 61%N :: v)) = true) as Htruthy.
  { intros v. destruct pre; reflexivity. }
  split; [|split].
  - intros q Hq Hname Hlt.
    rewrite (disposition_filename_capture _ q (name ++ [q])); [|done |].
    + f_equal. by apply remove_all_quoted.
    + rewrite match_filename_skip, match_filename_eq, match_filename_here_value by done.
      assert (((q =? 39) || (q =? 34))%N = true) as ->
        by (by destruct Hq as [-> | ->]).
      rewrite span_prefix; [by rewrite Hlt | |by rewrite N.eqb_refl].
      apply forallb_forall. intros c Hc. apply negb_true_iff, N.eqb_neq.
      intros ->. by apply Hname, list_elem_of_In.
  - intros Hhead Hname Hrest.
    destruct name as [|c name]; [done |]. destruct Hhead as [H34 H39].
    rewrite (disposition_filename_capture _ c name); [done | done |].
    rewrite match_filename_skip, match_filename_eq, match_filename_here_value by done.
    assert (span (fun c => negb ((c =? 59) || (c =? 10))%N) ((c :: name) ++ rest)
            = (c :: name, rest)) as Hspan.
    { apply span_prefix; [done |]. destruct rest as [|c' rest]; [done |].
      by destruct Hrest as [-> | ->]. }
    cbn [app]. cbn [app] in Hspan.
    assert (((c =? 39) || (c =? 34))%N = false) as ->.
    { apply orb_false_iff. by split; apply N.eqb_neq. }
    by rewrite Hspan.
  - intros cd fn. unfold disposition_filename.
    destruct (truthy cd); [|done].
    destruct (match_filename (default [] cd)) as [[|c v] |]; try done.
    intros H. injection H as <-. split.
    + apply remove_all_not_elem.
    + apply remove_all_other, remove_all_not_elem.
Qed.

Lemma disposition_filename_forms_witness :
  disposition_filename (Some (js "attachment; filename*=UTF-8''terms.pdf"))
  = Some (js "UTF-8terms.pdf").
Proof.
  destruct (disposition_filename_forms (js "attachment; ") (js "*") (js "UTF-8''terms.pdf") [])
    as (_ & Hplain & _).
  - by apply not_elem_of_forallb.
  - reflexivity.
  - apply Hplain.
    + split; discriminate.
    + reflexivity.
    + exact Logic.I.
Defined.

(* ===================================================================== *)
(** ** The configuration and the summary *)
(* ===================================================================== *)

(** X9: [getUserInputs] ends the process exactly when both dates are valid
    and the end date is earlier than the start date. Otherwise the
    configuration it sets has a concurrency of 1, 3 or 5 with a pacing delay
    of 2000, 1000 or 500 ms, three attempts per request with a retry delay
    of 2000 ms, and the dates of the answers; with such a configuration
    [processDownloads] returns or raises, whatever the list of IDs. *)
Theorem getUserInputs_settings Date_getTime path_join a :
  (getUserInputs Date_getTime path_join a = None
   ↔ ∃ start_time end_time,
       Date_getTime (ans_dateFrom a) = Some start_time
       ∧ Date_getTime (ans_dateTo a) = Some end_time
       ∧ (end_time < start_time)%Z)
  ∧ ∀ st,
      getUserInputs Date_getTime path_join a = Some st ->
      (concurrentDownloads (settings_config st), requestDelay (settings_config st))
        ∈ [(1, 2000); (3, 1000); (5, 500)]
      ∧ retryAttempts (settings_config st) = 3
      ∧ retryDelay (settings_config st) = 2000
      ∧ dateFrom (settings_config st) = ans_dateFrom a
      ∧ dateTo (settings_config st) = ans_dateTo a
      ∧ ∀ env dom transIDs data w,
          ∃ s, reachable env dom (settings_config st) transIDs data w s ∧ ended s.
Proof.
  unfold getUserInputs, Date_lt. split.
  - destruct (Date_getTime (ans_dateTo a)) as [e |];
      destruct (Date_getTime (ans_dateFrom a)) as [b |]; simpl.
    + destruct (e <? b)%Z eqn:Hlt.
      * split; [|done]. intros _. exists b, e. repeat split. by apply Z.ltb_lt.
      * split; [done |]. intros (b' & e' & Hb & He & Hlt').
        injection Hb as <-. injection He as <-. apply Z.ltb_lt in Hlt'. congruence.
    + split; [done |]. by intros (b' & e' & Hb & _).
    + split; [done |]. by intros (b' & e' & _ & He & _).
    + split; [done |]. by intros (b' & e' & Hb & _).
  - intros st.
    destruct (match Date_getTime (ans_dateTo a) with
              | Some x => match Date_getTime (ans_dateFrom a) with
                          | Some y => (x <? y)%Z
                          | None => false
                          end
              | None => false
              end); [done |].
    intros H. injection H as <-. simpl.
    split; [|split; [done |split; [done |split; [done |split; [done |]]]]].
    + destruct (ans_speed a); simpl.
      * apply list_elem_of_here.
      * apply list_elem_of_further, list_elem_of_here.
      * do 2 apply list_elem_of_further. apply list_elem_of_here.
    + intros env dom transIDs data w. apply sched_terminates. simpl.
      destruct (ans_speed a); simpl; lia.
Qed.

Lemma sum_fileSize rs : ∀ n,
  foldl (fun sum r => sum + fileSize_or_0 r) n (List.filter success rs)
  = foldl (fun sum r => sum + fileSize_or_0 r) n rs.
Proof.
  induction rs as [|r rs IH]; intros n; simpl; [done |].
  destruct r as [t sy iss fn fd sz | t reason]; simpl.
  - apply IH.
  - rewrite IH. f_equal. lia.
Qed.

Lemma filter_partition_length {A} (p : A -> bool) l :
  length (List.filter p l) + length (List.filter (fun a => negb (p a)) l) = length l.
Proof.
  induction l as [|a l IH]; simpl; [done |]. destruct (p a); simpl; lia.
Qed.

(** X10: the summary of a run. The two counts add up to the number of
    results; the total size is shown when one download at least succeeded
    and is the sum of the sizes of the results; the failed downloads are
    listed when there are between one and ten of them. After
    [processDownloads] has returned, the count of successful downloads is
    the number of entries the run has added to the completed list of the
    progress file, the count of failed ones the number it has added to the
    failed list, and together they are the number of pending IDs the run was
    given. *)
Theorem displaySummary_counts env dom cfg transIDs data w s :
  stored_ledger w = Some data ->
  reachable env dom cfg transIDs data w s ->
  at_phase s = Returned ->
  let shown := displaySummary (results s) in
  shown_successful shown + shown_failed shown = length transIDs
  ∧ (shown_totalSize shown = None ↔ shown_successful shown = 0)
  ∧ (∀ n, shown_totalSize shown = Some n ->
          n = foldl (fun sum r => sum + fileSize_or_0 r) 0 (results s))
  ∧ (shown_failures shown ≠ [] ↔ 1 ≤ shown_failed shown ≤ 10)
  ∧ ∃ stored,
      stored_ledger (world s) = Some stored
      ∧ length (completed stored) = length (completed data) + shown_successful shown
      ∧ length (failed stored) = length (failed data) + shown_failed shown.
Proof.
  intros Hstored Hreach Hphase shown. subst shown.
  pose proof (reachable_shape env dom cfg transIDs data w s Hreach)
    as (_ & Hst & _ & Hph).
  rewrite Hphase in Hph. destruct Hph as [_ Hlen].
  unfold displaySummary. simpl.
  pose proof (filter_partition_length success (results s)) as Hpart.
  split; [lia |]. split; [|split; [|split]].
  - destruct (List.filter success (results s)); simpl; [done |]. split; [done | lia].
  - intros n. destruct (0 <? length (List.filter success (results s))); [|done].
    intros H. injection H as <-. apply sum_fileSize.
  - destruct (List.filter (fun r => negb (success r)) (results s)) as [|f fs] eqn:Hf.
    + simpl. split; [done | lia].
    + change (0 <? length (f :: fs)) with true. rewrite andb_true_l.
      destruct (length (f :: fs) <=? 10) eqn:Hle.
      * apply Nat.leb_le in Hle. simpl. split; [simpl in Hle; lia | done].
      * apply Nat.leb_gt in Hle. split; [done | lia].
  - exists (marks data (results s)). split; [by apply Hst |].
    destruct (marks_lists data (results s)) as [-> ->].
    by rewrite !length_app.
Qed.

Lemma displaySummary_counts_witness :
  shown_successful (displaySummary (results site_first))
  + shown_failed (displaySummary (results site_first)) = length site_ids.
Proof.
  apply (displaySummary_counts site_env site_dom default_config site_ids site_data
           site_entry site_first).
  - vm_compute; reflexivity.
  - apply site_state_reachable.
  - vm_compute; reflexivity.
Defined.

(* ===================================================================== *)
(** ** The cache store *)
(* ===================================================================== *)



(* ===================================================================== *)
(** ** The listing: [extractTransIDs] *)
(* ===================================================================== *)

Lemma leaves_try_catch {A} (P : completion A -> Prop) (t : prog A) (h : error -> prog A) :
  leaves (fun c => match c with
                   | Normal a => P (Normal a)
                   | Throw e => leaves P (h e)
                   end) t ->
  leaves P (try_catch t h).
Proof.
  intros Ht. unfold try_catch.
  eapply leaves_bind_strong; [exact Ht |]. intros [a | e]; simpl; done.
Qed.

Lemma extractTransIDs_leaves dom cfg :
  leaves (fun c => match c with
                   | Normal ids => Forall valid_id ids
                   | Throw e => ∃ cause, message e = js "Failed to fetch listings: " ++ cause
                   end) (extractTransIDs dom cfg).
Proof.
  unfold extractTransIDs. apply leaves_try_catch.
  apply leaves_bindE; [|intros e; simpl; by eexists].
  intros html. apply leaves_bindE; [|intros e; simpl; by eexists].
  intros html'. simpl. apply parse_listing_valid.
Qed.


Lemma footprint_extractTransIDs dom cfg :
  footprint (@listing_sync cfg) (@listing_async cfg) (extractTransIDs dom cfg).
Proof.
  unfold extractTransIDs, try_catch.
  apply footprint_bind; [|intros [ids | e]; footprint_prim].
  apply footprint_bindE.
  { unfold CacheManager.get, CacheManager.has.
    apply footprint_bindE; [footprint_prim |].
    intros [|]; [|footprint_prim].
    apply footprint_bindE; [footprint_prim |]. intros c. footprint_prim. }
  intros html. apply footprint_bindE; [|intros html'; footprint_prim].
  destruct (truthy html); [footprint_prim |].
  apply footprint_bindE.
  { apply footprint_fetch_loop; [reflexivity | done]. }
  intros resp. apply footprint_bindE; [destruct resp; footprint_prim |].
  intros html'. apply footprint_bindE; [footprint_prim |]. intros u. footprint_prim.
Qed.

(** What a run of [extractTransIDs] leaves alone. *)
Lemma extractTransIDs_frame env dom cfg w :
  downloads (run env (extractTransIDs dom cfg) w).2 = downloads w
  ∧ progress_file (run env (extractTransIDs dom cfg) w).2 = progress_file w
  ∧ bar (run env (extractTransIDs dom cfg) w).2 = bar w
  ∧ (∀ p, p ≠ listing_path cfg ->
          cache (run env (extractTransIDs dom cfg) w).2 !! p = cache w !! p)
  ∧ ∃ evs, trace (run env (extractTransIDs dom cfg) w).2 = trace w ++ evs
           ∧ ∀ r, EvGet r ∈ evs -> r = listing_request cfg.
Proof.
  set (I := fun w' : World =>
    downloads w' = downloads w ∧ progress_file w' = progress_file w ∧ bar w' = bar w
    ∧ ∀ p, p ≠ listing_path cfg -> cache w' !! p = cache w !! p).
  assert (I (run env (extractTransIDs dom cfg) w).2) as (Hd & Hp & Hb & Hc).
  { apply (safe_run env I (fun _ _ => True)).
    apply (footprint_safe (@listing_sync cfg) (@listing_async cfg));
      [| |apply footprint_extractTransIDs |done].
    - intros X e w' He (Hd & Hp & Hb & Hc).
      destruct e as [[|] p | [|] p | [|] p content | | | j |]; simpl in He; try done.
      + simpl. destruct (fs_fault env (fs_ops w')); [done |].
        by destruct (cache w' !! p).
      + simpl. destruct (fs_fault env (fs_ops w')); [done |].
        split; [done |]. split; [done |]. split; [done |].
        intros p' Hp'. simpl. subst p. rewrite lookup_insert_ne by done. by apply Hc.
    - intros X e w' _ HI. by destruct e. }
  split; [done |]. split; [done |]. split; [done |]. split; [done |].
  destruct (footprint_trace (@listing_sync cfg) (@listing_async cfg) env
              (extractTransIDs dom cfg) w (footprint_extractTransIDs dom cfg))
    as (evs & Htr & Hall).
  exists evs. split; [done |]. intros r Hr.
  rewrite Forall_forall in Hall. by apply (Hall _ Hr).
Qed.

Lemma listing_fetch_throw env cfg key w0 e :
  (run env
     (bindE (fetchWithRetry cfg (listing_request cfg))
        (fun resp => bindE (response_data resp)
           (fun html => bindE (CacheManager.set key html) (fun _ => ret html)))) w0).1
  = Throw e ->
  cache (run env
     (bindE (fetchWithRetry cfg (listing_request cfg))
        (fun resp => bindE (response_data resp)
           (fun html => bindE (CacheManager.set key html) (fun _ => ret html)))) w0).2
  = cache w0.
Proof.
  step_bindE.
  pose proof (fetch_loop_downloads env cfg (listing_request cfg) (retryAttempts cfg)
                (retryAttempts cfg) 1 w0) as Hoth.
  change (fetch_loop cfg (listing_request cfg) (retryAttempts cfg) 1 (retryAttempts cfg))
    with (fetchWithRetry cfg (listing_request cfg)) in Hoth.
  destruct (run env (fetchWithRetry cfg (listing_request cfg)) w0) as [[[resp |] | e0] w1].
  - simpl in Hoth. unfold other_than_trace in Hoth. injection Hoth as Hc _ _ _ _.
    simpl. destruct (fs_fault env (fs_ops w1)); simpl; [done | discriminate].
  - simpl in Hoth. unfold other_than_trace in Hoth. by injection Hoth as Hc _ _ _ _.
  - simpl in Hoth. unfold other_than_trace in Hoth. by injection Hoth as Hc _ _ _ _.
Qed.


(* ===================================================================== *)
(** ** The worker: [downloadWarrant] *)
(* ===================================================================== *)


Lemma footprint_detail_html cfg id :
  footprint (@detail_sync id) (@worker_async cfg id) (detail_html cfg id).
Proof.
  unfold detail_html.
  apply footprint_bindE.
  { unfold CacheManager.get, CacheManager.has.
    apply footprint_bindE; [footprint_prim |].
    intros [|]; [|footprint_prim].
    apply footprint_bindE; [footprint_prim |]. intros c. footprint_prim. }
  intros html. destruct (truthy html); [footprint_prim |].
  apply footprint_bindE; [footprint_prim |]. intros u.
  apply footprint_bindE.
  { apply footprint_fetch_loop; [apply request_for_detail | done]. }
  intros resp. apply footprint_bindE; [destruct resp; footprint_prim |].
  intros html'. apply footprint_bindE; [footprint_prim |]. intros u'. footprint_prim.
Qed.

(** The first part of a worker leaves the download directory and the
    progress bar alone. *)
Lemma detail_html_downloads env cfg id w :
  downloads (run env (detail_html cfg id) w).2 = downloads w
  ∧ bar (run env (detail_html cfg id) w).2 = bar w.
Proof.
  set (I := fun w' : World => downloads w' = downloads w ∧ bar w' = bar w).
  apply (safe_run env I (fun _ _ => True)).
  apply (footprint_safe (@detail_sync id) (@worker_async cfg id));
    [| |apply footprint_detail_html |done].
  - intros X e w' He (Hd & Hb).
    destruct e as [[|] p | [|] p | [|] p content | | | j |]; simpl in He; try done.
    + simpl. destruct (fs_fault env (fs_ops w')); [done |].
      by destruct (cache w' !! p).
    + simpl. by destruct (fs_fault env (fs_ops w')).
  - intros X e w' _ HI. by destruct e.
Qed.


(* ===================================================================== *)
(** ** The prologue of [main] *)
(* ===================================================================== *)

Lemma ProgressTracker_new_frame env w :
  cache (run env ProgressTracker_new w).2 = cache w
  ∧ downloads (run env ProgressTracker_new w).2 = downloads w
  ∧ progress_file (run env ProgressTracker_new w).2 = progress_file w
  ∧ trace (run env ProgressTracker_new w).2 = trace w.
Proof.
  unfold ProgressTracker_new. simpl.
  destruct (progress_file w) as [c |] eqn:Hpf; simpl; [|done].
  destruct (fs_fault env (fs_ops w)); simpl; [done |]. by rewrite Hpf.
Qed.

(** X16: [main] up to the call of [processDownloads], however the file
    system and the network answer. It leaves the download directory alone
    and requests nothing but the listing. When it stops on an empty listing
    the progress file is as before. When it goes on, the progress file holds
    the ledger it hands over, and the IDs it hands over are the pending IDs
    of that ledger: there is one at least, each is a non-empty string of
    digits and none is completed. *)
Theorem main_prologue_handover env dom cfg w :
  let res := main_prologue env dom cfg w in
  downloads res.2 = downloads w
  ∧ (∃ evs, trace res.2 = trace w ++ evs ∧ ∀ r, EvGet r ∈ evs -> r = listing_request cfg)
  ∧ (res.1 = inl NoWarrants -> progress_file res.2 = progress_file w)
  ∧ ∀ data pend,
      res.1 = inr (data, pend) ->
      stored_ledger res.2 = Some data
      ∧ pend = pending data
      ∧ pend ≠ []
      ∧ ∀ id, id ∈ pend -> valid_id id ∧ ProgressTracker.isCompleted data id = false.
Proof.
  intros res. subst res. unfold main_prologue.
  destruct (ProgressTracker_new_frame env w) as (Hc1 & Hd1 & Hp1 & Ht1).
  destruct (run env ProgressTracker_new w) as [ld w1]. simpl in Hc1, Hd1, Hp1, Ht1.
  destruct (extractTransIDs_frame env dom cfg w1) as (Hd2 & Hp2 & _ & _ & evs & Ht2 & Hevs).
  pose proof (leaves_run _ env _ w1 (extractTransIDs_leaves dom cfg)) as Hids.
  destruct (run env (extractTransIDs dom cfg) w1) as [[ids | e] w2];
    simpl in Hd2, Hp2, Ht2, Hids.
  - assert (∃ evs0, trace w2 = trace w ++ evs0
                    ∧ ∀ r, EvGet r ∈ evs0 -> r = listing_request cfg) as Htrace.
    { exists evs. split; [congruence | done]. }
    case_bool_decide as Hlen.
    { simpl. split; [congruence |]. split; [done |]. split; [congruence | done]. }
    destruct (ProgressFile.json_to_ledger ld) as [data0 |].
    + cbv zeta.
      destruct (run env (save (ProgressTracker.setPending ids data0)) w2)
        as [[[] | e] w3] eqn:Hsave.
      * pose proof (stored_ledger_save _ _ _ _ Hsave) as Hst.
        rewrite run_save in Hsave.
        destruct (fs_fault env (fs_ops w2)); [done |]. injection Hsave as <-.
        case_bool_decide as Hpend; simpl.
        -- split; [congruence |]. split; [done |]. split; [done | done].
        -- split; [congruence |]. split; [done |]. split; [done |].
           intros data pend H. injection H as <- <-.
           split; [done |]. split; [done |]. split; [by intros Hnil; apply Hpend; simpl; rewrite Hnil |].
           intros id Hin. apply elem_of_setPending in Hin as [Hin Hnc].
           rewrite Forall_forall in Hids. split; [by apply Hids |].
           by apply isCompleted_false.
      * rewrite run_save in Hsave.
        destruct (fs_fault env (fs_ops w2)); [|done]. injection Hsave as _ <-.
        simpl. split; [congruence |]. split; [done | done].
    + simpl. split; [congruence |]. split; [done | done].
  - simpl. split; [congruence |]. split; [|done].
    exists evs. split; [congruence | done].
Qed.

(* ===================================================================== *)
(** ** The scheduler: [processDownloads] *)
(* ===================================================================== *)

Lemma pending_mark r data :
  pending (mark r data) = filter (fun id => id ≠ transID r) (pending data).
Proof. unfold mark. by destruct (success r). Qed.

Lemma filter_True_all {A} (P : A -> Prop) `{∀ x, Decision (P x)} (l : list A) :
  (∀ x, P x) -> filter P l = l.
Proof.
  intros HP. induction l as [|a l IH]; [done |].
  rewrite filter_cons_True by done. by rewrite IH.
Qed.

Lemma filter_none {A} (P : A -> Prop) `{∀ x, Decision (P x)} (l : list A) :
  (∀ x, x ∈ l -> ¬ P x) -> filter P l = [].
Proof.
  induction l as [|a l IH]; intros HP; [done |].
  rewrite filter_cons_False by (apply HP; by left).
  apply IH. intros x Hx. apply HP. by right.
Qed.

(** The pending list after the marks of a list of results: the IDs of the
    results are taken out. *)
Lemma pending_marks rs : ∀ data,
  pending (marks data rs) = filter (fun id => id ∉ ids_of rs) (pending data).
Proof.
  induction rs as [|r rs IH]; intros data.
  - simpl. symmetry. apply filter_True_all. intros x Hx. by apply elem_of_nil in Hx.
  - change (marks data (r :: rs)) with (marks (mark r data) rs).
    rewrite IH, pending_mark, list_filter_filter.
    apply list_filter_iff. intros id. simpl. rewrite not_elem_of_cons. tauto.
Qed.

Lemma Forall2_transID ids rs :
  Forall2 (fun id r => transID r = id) ids rs -> ids_of rs = ids.
Proof.
  induction 1 as [|id r ids rs Hr _ IH]; [done |]. simpl. by rewrite Hr, IH.
Qed.

(** X17: when [processDownloads], called as [main] calls it with the pending
    IDs of the ledger, has returned, it has one result per pending ID, in the
    order of the IDs whatever the order in which the workers have finished;
    no ID is pending any more and every one of them is recorded as completed
    or as failed; and the progress file holds that ledger. *)
Theorem run_leaves_nothing_pending env dom cfg data w s :
  stored_ledger w = Some data ->
  reachable env dom cfg (ProgressTracker.getPending data) data w s ->
  at_phase s = Returned ->
  Forall2 (fun id r => transID r = id) (ProgressTracker.getPending data) (results s)
  ∧ pending (tracker s) = []
  ∧ (∀ id, id ∈ ProgressTracker.getPending data ->
           id ∈ ids_of (completed (tracker s)) ∨ id ∈ ids_of (failed (tracker s)))
  ∧ stored_ledger (world s) = Some (tracker s).
Proof.
  intros Hstored Hreach Hphase.
  pose proof (reachable_shape env dom cfg _ data w s Hreach) as (_ & Hst & Hres & Hph).
  rewrite Hphase in Hph. destruct Hph as [Htr Hlen].
  rewrite Hlen, firstn_all in Hres.
  assert (Forall2 (fun id r => transID r = id) (ProgressTracker.getPending data) (results s))
    as Hids.
  { eapply Forall2_impl; [exact Hres |]. by intros id r [? _]. }
  pose proof (Forall2_transID _ _ Hids) as Heq.
  split; [done |]. split; [|split].
  - rewrite Htr, pending_marks, Heq. apply filter_none. by intros id Hin Hnot.
  - intros id Hin. rewrite <- Heq in Hin.
    apply list_elem_of_fmap in Hin as (r & -> & Hr).
    pose proof (elem_of_marks data (results s) r Hr) as Hm. rewrite <- Htr in Hm.
    apply elem_of_app in Hm as [Hm | Hm]; [left | right];
      apply list_elem_of_fmap; by exists r.
  - rewrite Htr. by apply Hst.
Qed.

Lemma run_leaves_nothing_pending_witness :
  pending (tracker site_first) = []
  ∧ stored_ledger (world site_first) = Some (tracker site_first).
Proof.
  destruct (run_leaves_nothing_pending site_env site_dom default_config site_data
              site_entry site_first) as (_ & Hp & _ & Hst).
  - vm_compute; reflexivity.
  - apply site_state_reachable.
  - vm_compute; reflexivity.
  - split; [exact Hp | exact Hst].
Defined.

(** X18: with a concurrency of zero, [processDownloads] on a list that is
    not empty never returns and never raises: the loop goes on for ever
    with empty batches, without any request, any write or any result. *)
Theorem zero_concurrency_loops env dom cfg transIDs data w s :
  concurrentDownloads cfg = 0 ->
  transIDs ≠ [] ->
  reachable env dom cfg transIDs data w s ->
  ¬ ended s
  ∧ (∃ s', sched_next env dom cfg transIDs s s')
  ∧ world s = start_bar w
  ∧ results s = []
  ∧ tracker s = data.
Proof.
  intros Hc Hne Hreach.
  assert ((at_phase s = AtLoop 0 ∨ at_phase s = AwaitAll 0 [] ∨ at_phase s = Marking 0 [])
          ∧ world s = start_bar w ∧ results s = [] ∧ tracker s = data)
    as (Hph & Hw & Hrs & Htr).
  { unfold reachable in Hreach. revert s Hreach.
    apply (rtc_ind_r (R := sched_next env dom cfg transIDs)
             (fun s => (at_phase s = AtLoop 0 ∨ at_phase s = AwaitAll 0 []
                        ∨ at_phase s = Marking 0 [])
                       ∧ world s = start_bar w ∧ results s = [] ∧ tracker s = data)
             (sched_init data w)); [by repeat split; try left |].
    intros s2 s3 _ [j Hstep] (Hph & Hw & Hrs & Htr).
    unfold sched_step in Hstep.
    destruct Hph as [Hph | [Hph | Hph]]; rewrite Hph in Hstep.
    - rewrite bool_decide_eq_true_2 in Hstep by (destruct transIDs; [done | simpl; lia]).
      unfold batch_at in Hstep. rewrite Hc in Hstep. simpl in Hstep.
      injection Hstep as <-. simpl. by repeat split; try (right; left).
    - simpl in Hstep. injection Hstep as <-. simpl. by repeat split; try (right; right).
    - rewrite Hc in Hstep. injection Hstep as <-. simpl. by repeat split; try left. }
  split; [|split; [|done]].
  - intros [Hret | [e He]]; destruct Hph as [Hph | [Hph | Hph]]; congruence.
  - unfold sched_next, sched_step.
    destruct Hph as [Hph | [Hph | Hph]]; rewrite Hph.
    + rewrite bool_decide_eq_true_2 by (destruct transIDs; [done | simpl; lia]).
      exists (Sched (AwaitAll 0 []) (tracker s) (results s) (world s)), 0.
      unfold batch_at. rewrite Hc. done.
    + by eexists _, 0.
    + by eexists _, 0.
Qed.

Lemma zero_concurrency_loops_witness :
  ¬ ended (exec site_env site_dom stalled_config site_ids [0; 0; 0; 0; 0; 0; 0]
             (sched_init site_data site_entry)).
Proof.
  apply (zero_concurrency_loops site_env site_dom stalled_config site_ids site_data
           site_entry).
  - reflexivity.
  - discriminate.
  - apply exec_reachable.
Defined.

(** X19: on an empty list [processDownloads] returns at once, with no
    result: it starts the progress bar and does nothing else. *)
Theorem processDownloads_empty env dom cfg data w s :
  reachable env dom cfg [] data w s ->
  (s = sched_init data w ∨ s = Sched Returned data [] (start_bar w))
  ∧ sched_next env dom cfg [] (sched_init data w) (Sched Returned data [] (start_bar w)).
Proof.
  intros Hreach. split; [|by exists 0].
  unfold reachable in Hreach. revert s Hreach.
  apply (rtc_ind_r (R := sched_next env dom cfg [])
           (fun s => s = sched_init data w ∨ s = Sched Returned data [] (start_bar w))
           (sched_init data w)); [by left |].
  intros s2 s3 _ [j Hstep] [-> | ->].
  - right. unfold sched_step in Hstep. simpl in Hstep. by injection Hstep as <-.
  - done.
Qed.

Lemma processDownloads_empty_witness :
  sched_next site_env site_dom default_config [] (sched_init site_data site_entry)
    (Sched Returned site_data [] (start_bar site_entry)).
Proof.
  apply (processDownloads_empty site_env site_dom default_config site_data site_entry
           (sched_init site_data site_entry)).
  apply rtc_refl.
Defined.

Section StrongTermination.
Variable env : Env.
Variable dom : Dom.
Variable cfg : Config.
Variable transIDs : list jsstring.
Hypothesis concurrency_pos : 1 ≤ concurrentDownloads cfg.

Abbreviation after := (fun s' s => sched_next env dom cfg transIDs s s').

Lemma pool_wf_stuck {A} (t : task A) pool :
  (∀ w, resume env t w = None) -> pool_wf env pool -> pool_wf env (t :: pool).
Proof.
  intros Hstuck. induction 1 as [pool _ IH]. constructor.
  intros [|j] t0 w t' w' Hlook Hres; simpl in Hlook.
  - injection Hlook as <-. by rewrite Hstuck in Hres.
  - simpl. by eapply IH.
Qed.

Lemma pool_wf_await {A X} (e : async X) (k : X -> task A) pool :
  (∀ x w pool', pool_wf env pool' -> pool_wf env ((advance env (k x) w).1 :: pool')) ->
  pool_wf env pool -> pool_wf env (Await e k :: pool).
Proof.
  intros Hk Hpool. induction Hpool as [pool Hpool IH]. constructor.
  intros [|j] t0 w t' w' Hlook Hres; simpl in Hlook.
  - injection Hlook as <-. simpl in Hres.
    destruct (do_async env e w) as [x w1]. injection Hres as Hres.
    simpl. pose proof (Hk x w1 pool (pool_wf_intro env pool Hpool)) as H.
    by rewrite Hres in H.
  - simpl. by eapply IH.
Qed.

Lemma pool_wf_advance {A} (t : task A) : ∀ w pool,
  pool_wf env pool -> pool_wf env ((advance env t w).1 :: pool).
Proof.
  induction t as [a | X e k IH | X e k IH]; intros w pool Hpool; simpl.
  - by apply pool_wf_stuck.
  - destruct (do_sync env e w) as [x w1]. by apply IH.
  - by apply pool_wf_await.
Qed.

Lemma pool_wf_all {A} (pool : list (task A)) : pool_wf env pool.
Proof.
  induction pool as [|t pool IH].
  - constructor. by intros j t w t' w' Hlook.
  - destruct t as [a | X e k | X e k].
    + by apply pool_wf_stuck.
    + by apply pool_wf_stuck.
    + apply pool_wf_await; [|done]. intros x w pool'. apply pool_wf_advance.
Qed.

Lemma acc_ended data rs w ph :
  ph = Returned ∨ (∃ e, ph = Rejected e) -> Acc after (Sched ph data rs w).
Proof.
  intros Hph. constructor. intros s' [j Hstep]. unfold sched_step in Hstep. simpl in Hstep.
  by destruct Hph as [-> | [e ->]].
Qed.

Lemma acc_marking i
    (Hloop : ∀ data rs w, Acc after (Sched (AtLoop (i + concurrentDownloads cfg)) data rs w)) :
  ∀ rest data rs w, Acc after (Sched (Marking i rest) data rs w).
Proof.
  induction rest as [|r rest IH]; intros data rs w; constructor; intros s' [j Hstep];
    unfold sched_step in Hstep; cbn [at_phase tracker results world] in Hstep.
  - injection Hstep as <-. apply Hloop.
  - destruct (run env (save (mark r data)) w) as [[u | e] w1]; injection Hstep as <-.
    + apply IH.
    + apply acc_ended. right. by exists e.
Qed.

Lemma acc_await_all i
    (Hmark : ∀ brs data rs w, Acc after (Sched (Marking i brs) data rs w)) :
  ∀ pool data rs w, Acc after (Sched (AwaitAll i pool) data rs w).
Proof.
  intros pool. pose proof (pool_wf_all pool) as Hwf.
  induction Hwf as [pool _ IH]. intros data rs w.
  constructor. intros s' [j Hstep].
  unfold sched_step in Hstep. cbn [at_phase tracker results world] in Hstep.
  destruct (rejection pool) as [e |].
  { injection Hstep as <-. apply acc_ended. right. by exists e. }
  destruct (fulfilled pool) as [brs |].
  { injection Hstep as <-. apply Hmark. }
  destruct (pool !! j) as [t |] eqn:Hlook; [|done]. simpl in Hstep.
  destruct (resume env t w) as [[t' w'] |] eqn:Hres; [|done]. simpl in Hstep.
  injection Hstep as <-. by eapply IH.
Qed.

Lemma acc_at_loop : ∀ n i data rs w,
  length transIDs - i ≤ n -> Acc after (Sched (AtLoop i) data rs w).
Proof.
  induction n as [|n IH]; intros i data rs w Hn; constructor; intros s' [j Hstep];
    unfold sched_step in Hstep; cbn [at_phase tracker results world] in Hstep.
  - rewrite bool_decide_eq_false_2 in Hstep by lia. injection Hstep as <-.
    apply acc_ended. by left.
  - case_bool_decide as Hi.
    + destruct (launch env _ w) as [pool w1]. injection Hstep as <-.
      apply acc_await_all. apply acc_marking. intros data' rs' w'. apply IH. lia.
    + injection Hstep as <-. apply acc_ended. by left.
Qed.

Lemma sched_well_founded s : Acc after s.
Proof.
  assert (∀ i data rs w, Acc after (Sched (AtLoop i) data rs w)) as Hloop.
  { intros i data rs w. by apply (acc_at_loop (length transIDs - i)). }
  destruct s as [[i | i pool | i rest | | e] data rs w].
  - apply Hloop.
  - apply acc_await_all, acc_marking. intros. apply Hloop.
  - apply acc_marking. intros. apply Hloop.
  - apply acc_ended. by left.
  - apply acc_ended. right. by exists e.
Qed.

(** While [processDownloads] runs, the workers of the pool are suspended
    or settled. *)
Lemma reachable_at_rest data w s :
  reachable env dom cfg transIDs data w s ->
  ∀ i pool, at_phase s = AwaitAll i pool -> Forall at_rest pool.
Proof.
  intros Hreach. unfold reachable in Hreach. revert s Hreach.
  apply (rtc_ind_r (R := sched_next env dom cfg transIDs)
           (fun s => ∀ i pool, at_phase s = AwaitAll i pool -> Forall at_rest pool)
           (sched_init data w)); [done |].
  intros s2 s3 _ [j Hstep] IH i pool Hph.
  unfold sched_step in Hstep.
  destruct (at_phase s2) as [i2 | i2 pool2 | i2 rest | | e] eqn:Hph2.
  - case_bool_decide; [|injection Hstep as <-; done].
    pose proof (launch_at_rest env (downloadWarrant dom cfg <$> batch_at cfg transIDs i2)
                  (world s2)) as Hrest.
    destruct (launch env _ (world s2)) as [pool' w']. injection Hstep as <-.
    simpl in Hph. by injection Hph as _ <-.
  - destruct (rejection pool2); [injection Hstep as <-; done |].
    destruct (fulfilled pool2); [injection Hstep as <-; done |].
    destruct (pool2 !! j) as [t |] eqn:Hlook; [|done]. simpl in Hstep.
    destruct (resume env t (world s2)) as [[t' w'] |] eqn:Hres; [|done]. simpl in Hstep.
    injection Hstep as <-. simpl in Hph. injection Hph as _ <-.
    apply Forall_insert; [by eapply IH |]. by eapply resume_suspended.
  - destruct rest as [|r rest]; [injection Hstep as <-; done |].
    destruct (run env (save (mark r (tracker s2))) (world s2)) as [[u | e] w'];
      injection Hstep as <-; done.
  - done.
  - done.
Qed.

Lemma unsettled_awaits {A} (pool : list (prog A)) :
  Forall at_rest pool -> rejection pool = None -> fulfilled pool = None ->
  ∃ j X (e : async X) k, pool !! j = Some (Await e k).
Proof.
  induction 1 as [|t pool Ht _ IH]; [done |].
  destruct t as [[a | err] | X e k | X e k]; simpl; try done.
  - intros Hrej Hful. destruct (fulfilled pool); [done |].
    destruct (IH Hrej eq_refl) as (j & X & e & k & Hlook). by exists (S j), X, e, k.
  - intros _ _. by exists 0, X, e, k.
Qed.

End StrongTermination.

(** X20: with a concurrency of at least one, [processDownloads] ends
    whatever the order in which the requests and the sleeps of its workers
    complete: there is no infinite sequence of steps of the event loop, and
    from every state it reaches that has not returned or raised a further
    step is possible. *)
Theorem processDownloads_terminates env dom cfg transIDs :
  1 ≤ concurrentDownloads cfg ->
  (∀ s, Acc (fun s' s => sched_next env dom cfg transIDs s s') s)
  ∧ ∀ data w s,
      reachable env dom cfg transIDs data w s ->
      ended s ∨ ∃ s', sched_next env dom cfg transIDs s s'.
Proof.
  intros Hc. split; [intros s; by apply sched_well_founded |].
  intros data w s Hreach.
  pose proof (reachable_at_rest env dom cfg transIDs data w s Hreach) as Hrest.
  unfold sched_next, sched_step.
  destruct (at_phase s) as [i | i pool | i rest | | e] eqn:Hph.
  - right. case_bool_decide; [|by eexists _, 0].
    destruct (launch env _ (world s)) as [pool w']. by eexists _, 0.
  - right. destruct (rejection pool) as [e |] eqn:Hrej; [by eexists _, 0 |].
    destruct (fulfilled pool) as [brs |] eqn:Hful; [by eexists _, 0 |].
    destruct (unsettled_awaits pool (Hrest i pool eq_refl) Hrej Hful)
      as (j & X & e & k & Hlook).
    destruct (do_async env e (world s)) as [x w1] eqn:Hx.
    destruct (advance env (k x) w1) as [t' w'] eqn:Hadv.
    exists (Sched (AwaitAll i (<[j := t']> pool)) (tracker s) (results s) w'), j.
    rewrite Hlook. simpl. by rewrite Hx, Hadv.
  - right. destruct rest as [|r rest]; [by eexists _, 0 |].
    destruct (run env (save (mark r (tracker s))) (world s)) as [[u | e] w'];
      by eexists _, 0.
  - left. by left.
  - left. right. by exists e.
Qed.

Lemma processDownloads_terminates_witness :
  Acc (fun s' s => sched_next site_env site_dom default_config site_ids s s')
    (sched_init site_data site_entry).
Proof.
  destruct (processDownloads_terminates site_env site_dom default_config site_ids)
    as [Hacc _].
  - unfold default_config. simpl. lia.
  - apply Hacc.
Defined.

(** [processDownloads] raises only the error of a write of the progress
    file that has failed. *)
Lemma rejected_by_save env dom cfg transIDs data w s e :
  reachable env dom cfg transIDs data w s ->
  at_phase s = Rejected e ->
  ∃ n, fs_fault env n = Some e.
Proof.
  intros Hreach. unfold reachable in Hreach. revert s Hreach.
  apply (rtc_ind_r (R := sched_next env dom cfg transIDs)
           (fun s => at_phase s = Rejected e -> ∃ n, fs_fault env n = Some e)
           (sched_init data w)); [done |].
  intros s2 s3 Hr2 [j Hstep] _ Hph.
  pose proof (reachable_shape env dom cfg transIDs data w s2 Hr2) as (_ & _ & _ & Hinv).
  unfold sched_step in Hstep.
  destruct (at_phase s2) as [i2 | i2 pool2 | i2 rest | | e2] eqn:Hph2.
  - case_bool_decide; [|by injection Hstep as <-].
    destruct (launch env _ (world s2)) as [pool' w']. by injection Hstep as <-.
  - destruct Hinv as (_ & _ & _ & _ & Hpool).
    rewrite (rejection_none env cfg _ _ _ _ Hpool) in Hstep.
    destruct (fulfilled pool2); [by injection Hstep as <- |].
    destruct (pool2 !! j) as [t |]; [|done]. simpl in Hstep.
    destruct (resume env t (world s2)) as [[t' w'] |]; [|done]. by injection Hstep as <-.
  - destruct rest as [|r rest]; [by injection Hstep as <- |].
    rewrite run_save in Hstep.
    destruct (fs_fault env (fs_ops (world s2))) as [e0 |] eqn:Hfault.
    + injection Hstep as <-. simpl in Hph. injection Hph as <-. by eexists.
    + by injection Hstep as <-.
  - done.
  - done.
Qed.



(* ===================================================================== *)
(** ** The URL of the terms file *)
(* ===================================================================== *)

Lemma match_window_open_eq s :
  match_window_open s
  = match (if startsWith (js "window.open('") s
           then match span (fun c => negb (c =? 39)%N) (drop 13 s) with
                | ((_ :: _) as u, _ :: _) => Some u
                | _ => None
                end
           else None) with
    | Some u => Some u
    | None => match s with [] => None | _ :: s' => match_window_open s' end
    end.
Proof. by destruct s. Qed.

Lemma match_window_open_skip pre s :
  (119%N ∉ pre) -> match_window_open (pre ++ s) = match_window_open s.
Proof.
  induction pre as [|c pre IH]; [done |]. intros Hin.
  apply not_elem_of_cons in Hin as [Hc Hpre].
  rewrite match_window_open_eq. simpl app.
  change (js "window.open('") with (119%N :: js "indow.open('").
  rewrite startsWith_head by done. by apply IH.
Qed.

Lemma terms_row_url dom st r :
  (terms_row dom st r).1
  = if gives_url dom r then row_terms_url r else st.1.
Proof.
  unfold terms_row, gives_url, row_terms_url. fold (is_terms_row dom r).
  destruct (is_terms_row dom r); [|done]. simpl.
  destruct (truthy (last_link_onclick r)); [|done].
  by destruct (match_window_open (default [] (last_link_onclick r))).
Qed.

(** The URL of the loop of [extractTermsURL] after the rows: the one of the
    last row that gives one. *)
Lemma foldl_terms_url dom rows :
  (Forall (fun r => gives_url dom r = false) rows
   ∧ (foldl (terms_row dom) (None, None) rows).1 = None)
  ∨ ∃ before r after,
      rows = before ++ r :: after
      ∧ gives_url dom r = true
      ∧ Forall (fun r' => gives_url dom r' = false) after
      ∧ (foldl (terms_row dom) (None, None) rows).1 = row_terms_url r.
Proof.
  induction rows as [|x rows IH] using rev_ind; [by left |].
  rewrite foldl_app. simpl. rewrite terms_row_url.
  destruct (gives_url dom x) eqn:Hx.
  - right. by exists rows, x, [].
  - destruct IH as [[Hall Hf] | (before & r & after & -> & Hr & Hafter & Hu)].
    + left. split; [|done]. apply Forall_app. by split; [|constructor].
    + right. exists before, r, (after ++ [x]).
      split; [by rewrite <- app_assoc |]. split; [done |]. split; [|done].
      apply Forall_app. by split; [|constructor].
Qed.

(** X22: where the URL of the terms file comes from. It is the URL that the
    link of a terms row opens ([window.open('...')] in its [onclick], with
    [&amp;] decoded), the last such row of the page deciding; a terms row
    whose link opens nothing gives no URL (its date is taken all the same).
    The pattern reads the URL between the first [window.open('] and the next
    quote. *)
Theorem terms_url_source dom html info :
  extractTermsURL dom html = Some info ->
  (∃ before r after u,
     table_rows dom html = before ++ r :: after
     ∧ is_terms_row dom r = true
     ∧ row_terms_url r = Some u
     ∧ Forall (fun r' => gives_url dom r' = false) after
     ∧ terms_url info = if startsWith (js "http") u then u else URLS_base ++ u)
  ∧ ∀ pre u rest,
      (119%N ∉ pre) -> u ≠ [] -> (39%N ∉ u) ->
      match_window_open (pre ++ js "window.open('" ++ u ++ 39%N :: rest) = Some u.
Proof.
  intros Hinfo. split.
  - unfold extractTermsURL in Hinfo.
    pose proof (foldl_terms_url dom (table_rows dom html)) as Hrows.
    destruct (foldl (terms_row dom) (None, None) (table_rows dom html)) as [u d].
    simpl in Hrows.
    destruct (truthy u) eqn:Hu; [|done].
    destruct Hrows as [[_ ->] | (before & r & after & Heq & Hr & Hafter & ->)]; [done |].
    unfold gives_url in Hr. apply andb_true_iff in Hr as [Hterms Hsome].
    apply bool_decide_eq_true in Hsome as [x Hx].
    exists before, r, after, x. rewrite Hx in Hinfo |- *.
    split; [done |]. split; [done |]. split; [done |]. split; [done |].
    change (default [] (Some x)) with x in Hinfo.
    destruct (startsWith (js "http") x); by injection Hinfo as <-.
  - intros pre u rest Hpre Hne Hu.
    rewrite match_window_open_skip, match_window_open_eq, startsWith_app by done.
    rewrite drop_app_length' by done.
    rewrite (span_prefix _ u (39%N :: rest)); [by destruct u | |done].
    apply forallb_forall. intros c Hc. apply negb_true_iff, N.eqb_neq.
    intros ->. by apply Hu, list_elem_of_In.
Qed.

Lemma terms_url_source_witness :
  ∃ info, extractTermsURL site_dom detail_page_123 = Some info
          ∧ ∃ before r after u,
              table_rows site_dom detail_page_123 = before ++ r :: after
              ∧ is_terms_row site_dom r = true
              ∧ row_terms_url r = Some u
              ∧ Forall (fun r' => gives_url site_dom r' = false) after
              ∧ terms_url info = if startsWith (js "http") u then u else URLS_base ++ u.
Proof.
  destruct (extractTermsURL site_dom detail_page_123) as [info |] eqn:H;
    [|vm_compute in H; discriminate H].
  exists info. split; [reflexivity |].
  by destruct (terms_url_source site_dom detail_page_123 info H) as [Hsrc _].
Defined.

(* ===================================================================== *)
(** ** Decoding [&amp;] *)
(* ===================================================================== *)

Lemma replace_amp_fuel_enough : ∀ fuel1 fuel2 s,
  length s ≤ fuel1 -> length s ≤ fuel2 ->
  replace_amp_fuel fuel1 s = replace_amp_fuel fuel2 s.
Proof.
  induction fuel1 as [|fuel1 IH]; intros fuel2 s H1 H2.
  - destruct s; [|simpl in H1; lia]. by destruct fuel2.
  - destruct fuel2 as [|fuel2]; [destruct s; [done | simpl in H2; lia] |].
    destruct s as [|c s]; [done |]. simpl in H1, H2.
    cbn [replace_amp_fuel].
    destruct (startsWith (js "&amp;") (c :: s)).
    + f_equal. apply IH; rewrite length_drop; simpl; lia.
    + f_equal. apply IH; lia.
Qed.

Lemma replace_amp_cons c s :
  replace_amp (c :: s)
  = if startsWith (js "&amp;") (c :: s) then 38%N :: replace_amp (drop 5 (c :: s))
    else c :: replace_amp s.
Proof.
  unfold replace_amp. cbn [length replace_amp_fuel].
  destruct (startsWith (js "&amp;") (c :: s)).
  - f_equal. apply replace_amp_fuel_enough; [rewrite length_drop; simpl; lia | done].
  - done.
Qed.

Lemma startsWith_amp_head c s : 38%N ≠ c -> startsWith (js "&amp;") (c :: s) = false.
Proof. intros Hc. change (js "&amp;") with (38%N :: js "amp;"). by apply startsWith_head. Qed.

Lemma replace_amp_plain s : (38%N ∉ s) -> replace_amp s = s.
Proof.
  induction s as [|c s IH]; [done |]. intros Hin.
  apply not_elem_of_cons in Hin as [Hc Hs]. rewrite replace_amp_cons.
  rewrite startsWith_amp_head by done. by rewrite IH.
Qed.

Lemma replace_amp_prefix a b : (38%N ∉ a) -> replace_amp (a ++ b) = a ++ replace_amp b.
Proof.
  induction a as [|c a IH]; [done |]. intros Hin.
  apply not_elem_of_cons in Hin as [Hc Ha]. simpl app. rewrite replace_amp_cons.
  rewrite startsWith_amp_head by done. by rewrite IH.
Qed.

Lemma replace_amp_here b : replace_amp (js "&amp;" ++ b) = 38%N :: replace_amp b.
Proof.
  change (js "&amp;" ++ b) with (38%N :: js "amp;" ++ b). rewrite replace_amp_cons.
  change (38%N :: js "amp;" ++ b) with (js "&amp;" ++ b).
  by rewrite startsWith_app, drop_app_length' by done.
Qed.

(** X23: the decoding of [&amp;] in the URL of the terms file. A string
    without [&] is left as it is; in general the text up to the first [&amp;]
    is kept, that [&amp;] becomes [&] and the decoding goes on after it, so
    that every [&amp;] is decoded once ([&amp;amp;] gives [&amp;]); the result
    is never longer than the string. *)
Theorem replace_amp_decodes a b :
  (38%N ∉ a) ->
  replace_amp a = a
  ∧ replace_amp (a ++ js "&amp;" ++ b) = a ++ 38%N :: replace_amp b
  ∧ replace_amp (a ++ js "&amp;amp;" ++ b) = a ++ js "&amp;" ++ replace_amp b
  ∧ ∀ s, length (replace_amp s) ≤ length s.
Proof.
  intros Ha.
  split; [by apply replace_amp_plain |]. split; [|split].
  - by rewrite replace_amp_prefix, replace_amp_here.
  - change (js "&amp;amp;" ++ b) with (js "&amp;" ++ js "amp;" ++ b).
    rewrite replace_amp_prefix, replace_amp_here by done.
    rewrite (replace_amp_prefix (js "amp;") b) by (by apply not_elem_of_forallb).
    done.
  - intros s. remember (length s) as n eqn:Hn. revert s Hn.
    induction n as [n IH] using lt_wf_ind. intros [|c s] Hn; [unfold replace_amp; simpl; lia |].
    rewrite replace_amp_cons. destruct (startsWith (js "&amp;") (c :: s)).
    + simpl length. simpl in Hn.
      pose proof (IH (length (drop 5 (c :: s)))) as H.
      rewrite length_drop in H. simpl in H.
      specialize (H ltac:(lia) (drop 5 (c :: s))). rewrite length_drop in H. simpl in H.
      specialize (H eq_refl). simpl in H. lia.
    + simpl. simpl in Hn. specialize (IH (length s) ltac:(lia) s eq_refl). lia.
Qed.

Lemma replace_amp_decodes_witness :
  replace_amp (js "/FILEVIEW?id=5" ++ js "&amp;" ++ js "type=terms")
  = js "/FILEVIEW?id=5" ++ 38%N :: replace_amp (js "type=terms").
Proof.
  destruct (replace_amp_decodes (js "/FILEVIEW?id=5") (js "type=terms")) as (_ & H & _).
  - by apply not_elem_of_forallb.
  - exact H.
Defined.

(* ===================================================================== *)
(** ** The time [fetchWithRetry] waits *)
(* ===================================================================== *)

Lemma attempts_from_gets d r : ∀ k a,
  length (List.filter is_get (attempts_from d r a k)) = k.
Proof.
  induction k as [|k IH]; intros a; [done |].
  destruct k as [|k]; [done |].
  rewrite attempts_from_SS. cbn [List.filter is_get length]. by rewrite IH.
Qed.

Lemma attempts_from_sleep d r : ∀ k a,
  2 * total_sleep (attempts_from d r (S a) (S k)) = d * (k * (2 * a + k + 1)).
Proof.
  induction k as [|k IH]; intros a.
  - simpl. lia.
  - rewrite attempts_from_SS. cbn [total_sleep foldr].
    change (foldr _ 0 (attempts_from d r (S (S a)) (S k)))
      with (total_sleep (attempts_from d r (S (S a)) (S k))).
    specialize (IH (S a)). nia.
Qed.

(** X24: the cost of a call of [fetchWithRetry(url, options, retries)],
    whatever the network answers: at most [retries] requests, and sleeps
    that add up to at most [retryDelay * retries * (retries - 1) / 2]
    (6000 ms with the three attempts and the 2000 ms of the
    configuration). With no attempt allowed it makes no request and
    resolves to [undefined]. *)
Theorem fetchWithRetry_budget env cfg r retries w :
  ∃ evs,
    trace (run env (fetchWithRetry_n cfg r retries) w).2 = trace w ++ evs
    ∧ length (List.filter is_get evs) ≤ retries
    ∧ 2 * total_sleep evs ≤ retryDelay cfg * (retries * (retries - 1))
    ∧ (retries = 0 ->
       (run env (fetchWithRetry_n cfg r retries) w).1 = Normal None ∧ evs = []).
Proof.
  destruct retries as [|n].
  - exists []. simpl. rewrite app_nil_r. repeat split; lia.
  - destruct (fetch_loop_run env cfg r (S n) (S n) 1 w) as (k & Hk & Htr & _);
      [lia | lia |].
    exists (attempts_from (retryDelay cfg) r 1 k).
    split; [exact Htr |]. split; [rewrite attempts_from_gets; lia |].
    split; [|done].
    destruct k as [|k]; [lia |]. rewrite attempts_from_sleep.
    replace (S n - 1) with n by lia.
    assert (k ≤ n) as Hkn by lia. nia.
Qed.

(* ===================================================================== *)
(** ** The progress bar *)
(* ===================================================================== *)

Lemma ticks_impl {A} (t : task A) : ∀ (Q Q' : nat -> A -> Prop),
  (∀ m a, Q m a -> Q' m a) -> ticks Q t -> ticks Q' t.
Proof.
  induction t as [a | X e k IH | X e k IH]; intros Q Q' HQ; simpl.
  - apply HQ.
  - intros H x. eapply IH; [|apply H]. destruct (is_bar_increment e); simpl; auto.
  - intros H x. eapply IH; [exact HQ | apply H].
Qed.

Lemma ticks_bind {A B} (t : task A) (f : A -> task B) : ∀ Q,
  ticks (fun m a => ticks (fun m' b => Q (m + m') b) (f a)) t -> ticks Q (bind t f).
Proof.
  induction t as [a | X e k IH | X e k IH]; intros Q; simpl.
  - intros H. exact H.
  - intros H x. specialize (H x). destruct (is_bar_increment e); apply IH; exact H.
  - intros H x. apply IH, H.
Qed.

Lemma ticks_zero Ps Pa {A} (t : task A) :
  footprint Ps Pa t -> (∀ X (e : sync X), Ps X e -> is_bar_increment e = false) ->
  ∀ Q : nat -> A -> Prop, (∀ a, Q 0 a) -> ticks Q t.
Proof.
  intros Hfoot HPs. induction t as [a | X e k IH | X e k IH]; intros Q HQ; simpl.
  - apply HQ.
  - destruct Hfoot as [He Hk]. intros x. rewrite (HPs _ _ He). by apply IH.
  - destruct Hfoot as [He Hk]. intros x. by apply IH.
Qed.

Lemma ticks_bindE {A B} (t : prog A) (f : A -> prog B) (Q : nat -> completion B -> Prop) :
  (∀ Q' : nat -> completion A -> Prop, (∀ c, Q' 0 c) -> ticks Q' t) ->
  (∀ a, ticks Q (f a)) -> (∀ e, Q 0 (Throw e)) -> ticks Q (bindE t f).
Proof.
  intros Ht Hf HQ. unfold bindE. apply ticks_bind, Ht.
  intros [a | e]; simpl; [apply Hf | apply HQ].
Qed.

Lemma detail_sync_no_tick id X (e : sync X) : detail_sync id e -> is_bar_increment e = false.
Proof. by destruct e. Qed.

(** Every path of a worker increments the progress bar once. *)
Lemma downloadWarrant_ticks dom cfg id :
  ticks (fun m _ => m = 1) (downloadWarrant dom cfg id).
Proof.
  unfold downloadWarrant, try_catch. apply ticks_bind.
  apply (ticks_impl _ (fun m c => match c with Normal _ => m = 1 | Throw _ => m = 0 end)).
  { intros m [o | e] ->; simpl; [done |]. intros []. done. }
  unfold downloadWarrant_try. apply ticks_bindE.
  - intros Q' HQ'.
    apply (ticks_zero (@detail_sync id) (@worker_async cfg id));
      [apply footprint_detail_html | apply detail_sync_no_tick | done].
  - intros html. unfold download_terms.
    destruct (extractTermsURL dom html) as [info |]; [|simpl; by intros []].
    apply ticks_bindE.
    + intros Q' HQ'.
      apply (ticks_zero (fun _ _ => False) (fun _ _ => True));
        [by apply footprint_fetch_loop | done | done].
    + intros [resp |]; [|done]. simpl. intros [[] | e]; simpl; [by intros [] | done].
    + done.
  - done.
Qed.

Lemma bar_do_sync env {X} (e : sync X) w :
  bar (do_sync env e w).2 = if is_bar_increment e then S (bar w) else bar w.
Proof.
  destruct e as [d p | d p | d p c | | | j |]; simpl; try done.
  - destruct (fs_fault env (fs_ops w)); [done |]. by destruct (files d w !! p).
  - destruct (fs_fault env (fs_ops w)); [done |]. by destruct d.
  - destruct (fs_fault env (fs_ops w)); [done |]. by destruct (progress_file w).
  - by destruct (fs_fault env (fs_ops w)).
Qed.

Lemma bar_do_async env {X} (e : async X) w : bar (do_async env e w).2 = bar w.
Proof. by destruct e. Qed.

Lemma ticks_advance env {A} (t : task A) : ∀ (Q : nat -> A -> Prop) w,
  ticks Q t ->
  bar w ≤ bar (advance env t w).2
  ∧ ticks (fun m a => Q (bar (advance env t w).2 - bar w + m) a) (advance env t w).1.
Proof.
  induction t as [a | X e k IH | X e k IH]; intros Q w H; simpl.
  - split; [lia |]. simpl. by replace (bar w - bar w + 0) with 0 by lia.
  - pose proof (bar_do_sync env e w) as Hbar.
    destruct (do_sync env e w) as [x w1]. simpl in Hbar. specialize (H x).
    destruct (IH x _ w1 H) as [Hle Ht].
    split; [destruct (is_bar_increment e); lia |].
    eapply ticks_impl; [|exact Ht]. intros m a. simpl.
    destruct (is_bar_increment e).
    + by replace (bar (advance env (k x) w1).2 - bar w + m)
        with (S (bar (advance env (k x) w1).2 - bar w1 + m)) by lia.
    + by rewrite Hbar.
  - split; [lia |]. simpl. intros x. eapply ticks_impl; [|apply H].
    intros m a. simpl. by replace (bar w - bar w + m) with m by lia.
Qed.

Lemma launch_ticks env {A} (ts : list (task A)) : ∀ w,
  Forall (ticks (fun m _ => m = 1)) ts ->
  ∃ ds, Forall2 (fun d t => ticks (fun m _ => d + m = 1) t) ds (launch env ts w).1
        ∧ bar (launch env ts w).2 = bar w + sum_list ds.
Proof.
  induction ts as [|t ts IH]; intros w Hts; simpl.
  - exists []. split; [constructor | simpl; lia].
  - apply Forall_cons in Hts as [Ht Hts].
    destruct (ticks_advance env t _ w Ht) as [Hle Ht'].
    destruct (advance env t w) as [t' w1]. simpl in Hle, Ht'.
    destruct (IH w1 Hts) as (ds & Hds & Hbar).
    destruct (launch env ts w1) as [pool w2]. simpl in Hds, Hbar.
    exists ((bar w1 - bar w) :: ds). split; [by constructor |]. simpl. lia.
Qed.

Lemma fulfilled_ticks {A} (pool : list (prog A)) : ∀ ds brs,
  fulfilled pool = Some brs ->
  Forall2 (fun d t => ticks (fun m _ => d + m = 1) t) ds pool ->
  sum_list ds = length brs.
Proof.
  induction pool as [|t pool IH]; intros ds brs Hful Hds.
  - apply Forall2_nil_inv_r in Hds as ->. simpl in Hful. by injection Hful as <-.
  - apply Forall2_cons_inv_r in Hds as (d & ds' & Hd & Hds' & ->).
    destruct t as [[a | e] | |]; simpl in Hful; try done.
    destruct (fulfilled pool) as [brs' |]; [|done]. simpl in Hful. injection Hful as <-.
    simpl in Hd. simpl. rewrite (IH ds' brs' eq_refl Hds'). lia.
Qed.

Lemma sum_list_insert ds : ∀ j d x,
  ds !! j = Some d -> sum_list (<[j := d + x]> ds) = sum_list ds + x.
Proof.
  induction ds as [|d0 ds IH]; intros [|j] d x H; simpl in *; try done.
  - injection H as ->. lia.
  - rewrite (IH j d x H). lia.
Qed.

Lemma reachable_bar env dom cfg transIDs data w s :
  reachable env dom cfg transIDs data w s -> bar_inv s.
Proof.
  intros Hreach. unfold reachable in Hreach. revert s Hreach.
  apply (rtc_ind_r (R := sched_next env dom cfg transIDs) bar_inv (sched_init data w));
    [done |].
  intros s2 s3 _ [j Hstep] Hinv. unfold bar_inv in *. unfold sched_step in Hstep.
  destruct (at_phase s2) as [i2 | i2 pool2 | i2 rest | | e] eqn:Hph2.
  - case_bool_decide; [|by injection Hstep as <-].
    destruct (launch_ticks env (downloadWarrant dom cfg <$> batch_at cfg transIDs i2)
                (world s2)) as (ds & Hds & Hbar).
    { apply Forall_fmap, Forall_forall. intros id _. apply downloadWarrant_ticks. }
    destruct (launch env _ (world s2)) as [pool' w']. injection Hstep as <-.
    simpl in *. exists ds. split; [done | lia].
  - destruct Hinv as (ds & Hds & Hbar).
    destruct (rejection pool2); [by injection Hstep as <- |].
    destruct (fulfilled pool2) as [brs |] eqn:Hful.
    { injection Hstep as <-. simpl. by rewrite <- (fulfilled_ticks pool2 ds brs Hful Hds). }
    destruct (pool2 !! j) as [t |] eqn:Hlook; [|done]. simpl in Hstep.
    destruct (resume env t (world s2)) as [[t' w'] |] eqn:Hres; [|done]. simpl in Hstep.
    injection Hstep as <-. simpl.
    destruct (Forall2_lookup_r _ _ _ _ _ Hds Hlook) as (d & Hd & Ht).
    destruct t as [a | X e k | X e k]; simpl in Hres; try done.
    pose proof (bar_do_async env e (world s2)) as Hasync.
    destruct (do_async env e (world s2)) as [x w1]. simpl in Hasync.
    injection Hres as Hadv.
    destruct (ticks_advance env (k x) _ w1 (Ht x)) as [Hle Ht'].
    rewrite Hadv in Hle, Ht'. simpl in Hle, Ht'.
    exists (<[j := d + (bar w' - bar w1)]> ds). split.
    + apply Forall2_insert; [done |].
      eapply ticks_impl; [|exact Ht']. intros m a. simpl. lia.
    + rewrite (sum_list_insert ds j d _ Hd). lia.
  - destruct rest as [|r rest]; [injection Hstep as <-; simpl in *; lia |].
    rewrite run_save in Hstep.
    destruct (fs_fault env (fs_ops (world s2))); injection Hstep as <-; [done |].
    simpl in *. rewrite length_app. simpl. lia.
  - done.
  - done.
Qed.

(** X25: the progress bar. Every path of a worker increments it exactly
    once, whatever happens to the item; and when [processDownloads] has
    returned, whatever the order in which the workers have run, the bar
    stands at the number of IDs it was started with. *)
Theorem progress_bar_completes env dom cfg transIDs data w s :
  reachable env dom cfg transIDs data w s ->
  at_phase s = Returned ->
  bar (world s) = length transIDs
  ∧ ∀ id, ticks (fun m _ => m = 1) (downloadWarrant dom cfg id).
Proof.
  intros Hreach Hph. split; [|intros id; apply downloadWarrant_ticks].
  pose proof (reachable_bar env dom cfg transIDs data w s Hreach) as Hbar.
  pose proof (reachable_shape env dom cfg transIDs data w s Hreach) as (_ & _ & _ & Hinv).
  unfold bar_inv in Hbar. rewrite Hph in Hbar, Hinv. destruct Hinv as [_ Hlen]. lia.
Qed.

Lemma progress_bar_completes_witness : bar (world site_first) = length site_ids.
Proof.
  apply (progress_bar_completes site_env site_dom default_config site_ids site_data
           site_entry site_first).
  - apply site_state_reachable.
  - vm_compute; reflexivity.
Defined.

(* ===================================================================== *)
(** ** What [processDownloads] touches *)
(* ===================================================================== *)



(* ===================================================================== *)
(** ** File names without a content-disposition header *)
(* ===================================================================== *)

Lemma digits_before_underscore d : ∀ d' b b',
  forallb is_digit d = true -> forallb is_digit d' = true ->
  d ++ 95%N :: b = d' ++ 95%N :: b' -> d = d'.
Proof.
  induction d as [|c d IH]; intros [|c' d'] b b' Hd Hd' Heq; simpl in *; try done.
  - injection Heq as <- _. by apply andb_true_iff in Hd' as [? _].
  - injection Heq as -> _. by apply andb_true_iff in Hd as [? _].
  - injection Heq as -> Heq. apply andb_true_iff in Hd as [_ Hd].
    apply andb_true_iff in Hd' as [_ Hd']. f_equal. by eapply IH.
Qed.

(** X27: the file name of an item when the response for its terms file has
    no content-disposition header: the sanitized symbol, [_Terms_], the ID
    and [.pdf]. It holds no path separator, and the names of two items with
    different IDs are different, whatever their symbols: such files never
    overwrite each other. *)
Theorem fallback_names info info' id id' resp resp' :
  valid_id id -> valid_id id' ->
  content_disposition resp = None -> content_disposition resp' = None ->
  filename_for info id resp = sanitize (terms_symbol info) ++ js "_Terms_" ++ id ++ js ".pdf"
  ∧ (47%N ∉ filename_for info id resp)
  ∧ (92%N ∉ filename_for info id resp)
  ∧ (filename_for info id resp = filename_for info' id' resp' -> id = id').
Proof.
  intros [Hne Hd] [Hne' Hd'] Hcd Hcd'.
  assert (∀ i r j, content_disposition r = None ->
            filename_for i j r = sanitize (terms_symbol i) ++ js "_Terms_" ++ j ++ js ".pdf")
    as Hname.
  { intros i r j Hr. unfold filename_for, disposition_filename. by rewrite Hr. }
  rewrite !Hname by done.
  assert (∀ x, is_safe_char x = false -> is_digit x = false -> x ∉ js "_Terms_" ->
               x ∉ js ".pdf" ->
               x ∉ sanitize (terms_symbol info) ++ js "_Terms_" ++ id ++ js ".pdf") as Hnot.
  { intros x Hx Hxd H1 H2 Hin. rewrite !elem_of_app in Hin.
    destruct Hin as [Hin | [Hin | [Hin | Hin]]]; try done.
    - pose proof (sanitize_safe (terms_symbol info)) as Hs. rewrite forallb_forall in Hs.
      apply list_elem_of_In, Hs in Hin. congruence.
    - rewrite forallb_forall in Hd. apply list_elem_of_In, Hd in Hin. congruence. }
  split; [done |]. split; [|split].
  - apply Hnot; try done; by apply not_elem_of_forallb.
  - apply Hnot; try done; by apply not_elem_of_forallb.
  - intros Heq.
    apply (f_equal (@rev N)) in Heq. rewrite !rev_app_distr in Heq.
    rewrite <- !app_assoc in Heq. apply app_inv_head in Heq.
    change (rev (js "_Terms_")) with (95%N :: rev (js "_Terms")) in Heq.
    simpl in Heq.
    apply digits_before_underscore in Heq.
    + apply (f_equal (@rev N)) in Heq. by rewrite !rev_involutive in Heq.
    + rewrite forallb_forall in Hd |- *. intros x Hx. apply Hd. by apply in_rev.
    + rewrite forallb_forall in Hd' |- *. intros x Hx. apply Hd'. by apply in_rev.
Qed.

Lemma fallback_names_witness :
  filename_for (Build_TermsInfo (js "https://x") (js "KGI") (js "ABC-1") None) (js "123")
    (Response terms_file None)
  = js "ABC_1_Terms_123.pdf".
Proof.
  destruct (fallback_names
              (Build_TermsInfo (js "https://x") (js "KGI") (js "ABC-1") None)
              (Build_TermsInfo (js "https://x") (js "KGI") (js "ABC-1") None)
              (js "123") (js "123") (Response terms_file None) (Response terms_file None))
    as (H & _); try done.
Defined.

(* ===================================================================== *)
(** ** [isCompleted] on a progress file that was edited *)
(* ===================================================================== *)

Lemma some_transID_is_total id items :
  Forall (fun item => item ≠ JNull) items ->
  ∃ b, ProgressFile.some (ProgressFile.transID_is id) items = Normal b
       ∧ (b = true ↔ ∃ props, JObj props ∈ items
                              ∧ ProgressFile.assoc (js "transID") props = Some (JStr id)).
Proof.
  induction 1 as [|item items Hitem _ IH].
  - exists false. split; [done |]. split; [done |].
    intros (props & Hin & _). by apply elem_of_nil in Hin.
  - destruct IH as (b & Hb & Hiff). simpl.
    unfold ProgressFile.transID_is at 1, ProgressFile.get_prop.
    destruct item as [| bb | n | str | arr | props]; try done;
      try (exists b; rewrite Hb; split; [done |]; rewrite Hiff; split;
           [intros (props & Hin & Ha); exists props; split; [by right | done]
           |intros (props & Hin & Ha); apply elem_of_cons in Hin as [Hin | Hin];
            [done | by exists props]]).
    destruct (ProgressFile.assoc (js "transID") props) as [[| bb | n | str | arr | props'] |]
      eqn:Ha;
      try (exists b; rewrite Hb; split; [done |]; rewrite Hiff; split;
           [intros (props0 & Hin & Ha0); exists props0; split; [by right | done]
           |intros (props0 & Hin & Ha0); apply elem_of_cons in Hin as [Hin | Hin];
            [injection Hin as <-; congruence | by exists props0]]).
    case_bool_decide as Hstr.
    + subst str. exists true. split; [done |]. split; [|done]. intros _.
      exists props. split; [by left | done].
    + exists b. rewrite Hb. split; [done |]. rewrite Hiff. split.
      * intros (props0 & Hin & Ha0). exists props0. split; [by right | done].
      * intros (props0 & Hin & Ha0). apply elem_of_cons in Hin as [Hin | Hin];
          [injection Hin as <-; congruence | by exists props0].
Qed.

(** X28: [isCompleted] on whatever the progress file holds. When the
    [completed] property is an array without [null] entries it does not
    raise, and it is true exactly when an entry is an object whose
    [transID] is the ID as a string; entries of any other kind, without a
    [transID] or with a [transID] that is no string, are passed over. When
    the property is missing it raises a [TypeError]. *)
Theorem isCompleted_on_any_file props id :
  (∀ items,
     ProgressFile.assoc (js "completed") props = Some (JArr items) ->
     Forall (fun item => item ≠ JNull) items ->
     ∃ b, ProgressFile.isCompleted (JObj props) id = Normal b
          ∧ (b = true ↔ ∃ props', JObj props' ∈ items
                                  ∧ ProgressFile.assoc (js "transID") props'
                                    = Some (JStr id)))
  ∧ (ProgressFile.assoc (js "completed") props = None ->
     ProgressFile.isCompleted (JObj props) id = Throw (ProgressFile.TypeError_read (js "some"))).
Proof.
  unfold ProgressFile.isCompleted, ProgressFile.get_prop. split.
  - intros items -> Hitems. by apply some_transID_is_total.
  - by intros ->.
Qed.
